(** * rhyme_check: the rhyme analyzer (src/components/rhymeAnalyzer.js)

    A shallow embedding of [analyzeRhymePatterns] and of its helpers, and the
    properties of the matching engine: span extraction, pair
    classification, greedy conflict-free selection, result assembly and
    input validation.

    Conventions of the embedding:
    - character and line indices, and span lengths, are [nat]; differences,
      priorities and tolerances are [Z], the JavaScript numbers the code
      computes on them being integers;
    - JavaScript strings are [string]; only equality, concatenation and
      substring search are used on them;
    - the [Set] of "line-char" keys is a [gset (nat * nat)]: the key
      [`${line}-${i}`] determines the pair [(line, i)];
    - a thrown [Error] is the [inl] of a sum;
    - the arrays, the [Set], the [Map] and the counters a call fills are
      values local to the functional reading of the body; the module
      [Stateful] reads the same body with them in a store, and the two
      readings are proved to agree. *)

From Stdlib Require Import ZArith Ascii String List.
From stdpp Require Import base decidable option list strings gmap sets pretty sorting.

Open Scope Z_scope.
#[local] Set Warnings "-register-all".

(** ** JavaScript values, as far as the input validation looks at them *)

Inductive JsVal : Type :=
  | JUndefined
  | JNull
  | JBool (b : bool)
  | JNum (n : Z)
  | JStr (s : string)
  | JArr (items : list JsVal)
  | JObj (fields : list (string * JsVal)).

(** [Array.isArray(v)] *)
Definition isArray (v : JsVal) : bool :=
  match v with JArr _ => true | _ => false end.

(** [typeof v !== 'object' || v === null] *)
Definition notAnObject (v : JsVal) : bool :=
  match v with JArr _ | JObj _ => false | _ => true end.

(** Property lookup in an object literal: the first binding of the key. *)
Fixpoint lookupField (k : string) (fields : list (string * JsVal)) : JsVal :=
  match fields with
  | [] => JUndefined
  | (k', v) :: rest => if String.eqb k k' then v else lookupField k rest
  end.

(** [v.k] for the property names the analyzer reads ([line], [charInfos],
    [char], [pinyin], [normalGroup], [strictGroup]): none of them is a
    property of an array. *)
Definition getProp (v : JsVal) (k : string) : JsVal :=
  match v with
  | JObj fields => lookupField k fields
  | _ => JUndefined
  end.

(** [typeof v === 'string'] *)
Definition asString (v : JsVal) : option string :=
  match v with JStr s => Some s | _ => None end.

(** ** Data model *)

Module CharInfo.
Record t : Type := mk {
  char : string;
  pinyin : string;
  normalGroup : string;
  strictGroup : string
}.
End CharInfo.

Module Line.
Record t : Type := mk {
  line : string;
  charInfos : list CharInfo.t
}.
End Line.

Abbreviation Verse := (list Line.t).

(** A candidate span: the objects pushed by [extractAllRhymeSequences]. *)
Module Seq.
Record t : Type := mk {
  lineIndex : nat;
  startIndex : nat;
  endIndex : nat;
  length : nat;
  sequence : list string;
  sequenceKey : string;
  chars : list string;
  pinyins : list string;
  isEndOfLine : bool;
  priorityScore : Z
}.
End Seq.

(** ** getSequenceKey *)

Definition getSequenceKey (sequence : list string) : string :=
  String.concat "_" sequence.

(** ** extractAllRhymeSequences *)

(** [rhymeGroup === '未知' || rhymeGroup === ''] *)
Definition isUnknownGroup (rhymeGroup : string) : bool :=
  String.eqb rhymeGroup "未知" || String.eqb rhymeGroup "".

(** The innermost loop, over the characters [startIndex..endIndex] of the
    line: [None] is [hasUnknownRhyme], otherwise the three arrays
    [rhymeSequence], [chars], [pinyins]. *)
Fixpoint scanChars (cs : list CharInfo.t)
  : option (list string * list string * list string) :=
  match cs with
  | [] => Some ([], [], [])
  | charInfo :: rest =>
      if isUnknownGroup (CharInfo.normalGroup charInfo) then None
      else
        match scanChars rest with
        | None => None
        | Some (rhymeSequence, chars, pinyins) =>
            Some (CharInfo.normalGroup charInfo :: rhymeSequence,
                  CharInfo.char charInfo :: chars,
                  CharInfo.pinyin charInfo :: pinyins)
        end
  end.

(** The characters [charInfos[startIndex..endIndex]]; the loops only call
    it with [endIndex < length charInfos]. *)
Definition charRange (charInfos : list CharInfo.t) (startIndex endIndex : nat)
  : list CharInfo.t :=
  take (endIndex + 1 - startIndex) (drop startIndex charInfos).

(** Body of the two index loops: the span [startIndex..endIndex] of a line,
    if it has no unknown rhyme group. *)
Definition extractSpan (lineIndex : nat) (charInfos : list CharInfo.t)
    (startIndex endIndex : nat) : option Seq.t :=
  let maxLength := List.length charInfos in
  let sequenceLength := (endIndex - startIndex + 1)%nat in
  let isEndOfLine := Nat.eqb endIndex (maxLength - 1) in
  match scanChars (charRange charInfos startIndex endIndex) with
  | None => None
  | Some (rhymeSequence, chars, pinyins) =>
      Some {| Seq.lineIndex := lineIndex;
              Seq.startIndex := startIndex;
              Seq.endIndex := endIndex;
              Seq.length := sequenceLength;
              Seq.sequence := rhymeSequence;
              Seq.sequenceKey := getSequenceKey rhymeSequence;
              Seq.chars := chars;
              Seq.pinyins := pinyins;
              Seq.isEndOfLine := isEndOfLine;
              Seq.priorityScore :=
                (if isEndOfLine then 1000 else 0) + Z.of_nat sequenceLength * 10 |}
  end.

(** [for startIndex in 0..maxLength-1, for endIndex in startIndex..maxLength-1] *)
Definition extractLine (lineIndex : nat) (group : Line.t) : list Seq.t :=
  let charInfos := Line.charInfos group in
  let maxLength := List.length charInfos in
  flat_map (fun startIndex =>
    omap (fun endIndex => extractSpan lineIndex charInfos startIndex endIndex)
         (seq startIndex (maxLength - startIndex)))
    (seq 0 maxLength).

(** [rhymeGroups.forEach((group, lineIndex) => ...)], lines numbered from
    [lineIndex]. *)
Fixpoint extractFrom (lineIndex : nat) (rhymeGroups : Verse) : list Seq.t :=
  match rhymeGroups with
  | [] => []
  | group :: rest => extractLine lineIndex group ++ extractFrom (S lineIndex) rest
  end.

(** [Array.prototype.sort] with the comparator [(a, b) => key b - key a]:
    a stable sort by decreasing key.  An element is inserted in front of the
    first one whose key is not greater, so equal keys keep their order. *)
Section StableSort.
Context {A : Type} (key : A -> Z).

Fixpoint insertDesc (x : A) (l : list A) : list A :=
  match l with
  | [] => [x]
  | y :: rest =>
      if Z.ltb (key x) (key y) then y :: insertDesc x rest else x :: y :: rest
  end.

Definition sortDesc (l : list A) : list A := foldr insertDesc [] l.

(** [l] is by decreasing key. *)
Definition sortedDesc (l : list A) : Prop :=
  StronglySorted (fun a b => key b <= key a) l.
End StableSort.

Definition extractAllRhymeSequences (rhymeGroups : Verse) : list Seq.t :=
  sortDesc Seq.priorityScore (extractFrom 0 rhymeGroups).

(** ** Options *)

(** The [options] argument: a field is [None] when the caller left it
    [undefined], and the destructuring then takes the default. *)
Module Options.
Record t : Type := mk {
  detectEndRhyme : option bool;
  detectInterLineRhyme : option bool;
  detectInternalRhyme : option bool;
  interLineTolerance : option Z;
  interLineLineDiffTolerance : option Z;
  internalRhymeTolerance : option Z
}.

(** [options = {}] *)
Definition empty : t := mk None None None None None None.
End Options.

(** The six local constants the destructuring binds. *)
Module Config.
Record t : Type := mk {
  detectEndRhyme : bool;
  detectInterLineRhyme : bool;
  detectInternalRhyme : bool;
  interLineTolerance : Z;
  interLineLineDiffTolerance : Z;
  internalRhymeTolerance : Z
}.
End Config.

Definition resolveOptions (options : Options.t) : Config.t :=
  {| Config.detectEndRhyme := default true (Options.detectEndRhyme options);
     Config.detectInterLineRhyme := default true (Options.detectInterLineRhyme options);
     Config.detectInternalRhyme := default true (Options.detectInternalRhyme options);
     Config.interLineTolerance := default 2 (Options.interLineTolerance options);
     Config.interLineLineDiffTolerance :=
       default 4 (Options.interLineLineDiffTolerance options);
     Config.internalRhymeTolerance := default 0 (Options.internalRhymeTolerance options) |}.

(** ** The pair predicates *)

Definition isWithinFourLines (seq1 seq2 : Seq.t) (tolerance : Z) : bool :=
  let lineDiff := Z.abs (Z.of_nat (Seq.lineIndex seq2) - Z.of_nat (Seq.lineIndex seq1)) in
  lineDiff <=? tolerance.

(** Declared in the module, and called nowhere in it. *)
Definition isNonEndInterLineRhyme (seq1 seq2 : Seq.t) (tolerance : Z) : bool :=
  if Nat.eqb (Seq.lineIndex seq1) (Seq.lineIndex seq2) then false
  else if Seq.isEndOfLine seq1 || Seq.isEndOfLine seq2 then false
  else
    let posDiff := Z.abs (Z.of_nat (Seq.startIndex seq1) - Z.of_nat (Seq.startIndex seq2)) in
    posDiff <=? tolerance.

(** The number of characters strictly between two spans of a line, [0] when
    they overlap or touch: the [interval] both [isInternalRhymeValid] and
    the internal-rhyme branch compute. *)
Definition charGap (seq1 seq2 : Seq.t) : Z :=
  let start1 := Z.of_nat (Seq.startIndex seq1) in
  let end1 := Z.of_nat (Seq.endIndex seq1) in
  let start2 := Z.of_nat (Seq.startIndex seq2) in
  let end2 := Z.of_nat (Seq.endIndex seq2) in
  if end1 <? start2 then start2 - end1 - 1
  else if end2 <? start1 then start1 - end2 - 1
  else 0.

Definition isInternalRhymeValid (seq1 seq2 : Seq.t) (tolerance : Z) : bool :=
  if negb (Nat.eqb (Seq.lineIndex seq1) (Seq.lineIndex seq2)) then true
  else
    let interval := charGap seq1 seq2 in
    let rhymeCount := Z.min (Z.of_nat (Seq.length seq1)) (Z.of_nat (Seq.length seq2)) in
    interval <=? rhymeCount + tolerance.

(** ** Candidate matches *)

(** The three template strings a match is labelled with; the number is
    [seq1.length]. *)
Inductive RhymeType : Type :=
  | EndRhyme (n : nat)
  | InterLineRhyme (n : nat)
  | InternalRhyme (n : nat).

Definition rhymeTypeString (rhymeType : RhymeType) : string :=
  match rhymeType with
  | EndRhyme n => pretty n +:+ "字句尾押韵"
  | InterLineRhyme n => pretty n +:+ "字非句尾句间押韵"
  | InternalRhyme n => pretty n +:+ "字句内押韵"
  end.

Module Match.
Record t : Type := mk {
  seq1 : Seq.t;
  seq2 : Seq.t;
  rhymeType : RhymeType;
  interval : Z;
  priority : Z;
  sequenceLength : nat;
  sequence : list string;
  sequenceKey : string
}.
End Match.

(** [rhymeGroups[lineIndex].charInfos.length]; the index is that of a span
    of the verse, hence in range. *)
Definition lineLength (rhymeGroups : Verse) (lineIndex : nat) : Z :=
  from_option (fun group => Z.of_nat (List.length (Line.charInfos group))) 0
              (rhymeGroups !! lineIndex).

(** [interval] of the inter-line branch. *)
Definition interLineInterval (rhymeGroups : Verse) (seq1 seq2 : Seq.t) : Z :=
  let line1Length := lineLength rhymeGroups (Seq.lineIndex seq1) in
  let line2Length := lineLength rhymeGroups (Seq.lineIndex seq2) in
  let forwardDiff := Z.abs (Z.of_nat (Seq.startIndex seq1) - Z.of_nat (Seq.startIndex seq2)) in
  let reverse1 := line1Length - 1 - Z.of_nat (Seq.endIndex seq1) in
  let reverse2 := line2Length - 1 - Z.of_nat (Seq.endIndex seq2) in
  let reverseDiff := Z.abs (reverse1 - reverse2) in
  Z.min forwardDiff reverseDiff.

(** The [if / else if / else if] chain of the pair loop: the label, the
    interval and the type priority of a pair of spans with equal keys, or
    [None] when [isValid] stays false (or the loop [continue]s). *)
Definition classify (cfg : Config.t) (rhymeGroups : Verse) (seq1 seq2 : Seq.t)
  : option (RhymeType * Z * Z) :=
  if Config.detectEndRhyme cfg && (Seq.isEndOfLine seq1 || Seq.isEndOfLine seq2) then
    let interval := Z.abs (Z.of_nat (Seq.lineIndex seq1) - Z.of_nat (Seq.lineIndex seq2)) in
    Some (EndRhyme (Seq.length seq1), interval, 1000 - interval)
  else if Config.detectInterLineRhyme cfg
          && negb (Nat.eqb (Seq.lineIndex seq1) (Seq.lineIndex seq2)) then
    let chars1 := String.concat "" (Seq.chars seq1) in
    let chars2 := String.concat "" (Seq.chars seq2) in
    if String.eqb chars1 chars2 then None
    else
      let interval := interLineInterval rhymeGroups seq1 seq2 in
      if interval <=? Config.interLineTolerance cfg then
        Some (InterLineRhyme (Seq.length seq1), interval, 500 - interval)
      else None
  else if Config.detectInternalRhyme cfg
          && Nat.eqb (Seq.lineIndex seq1) (Seq.lineIndex seq2) then
    let interval := charGap seq1 seq2 in
    if isInternalRhymeValid seq1 seq2 (Config.internalRhymeTolerance cfg) then
      Some (InternalRhyme (Seq.length seq1), interval, 100 - interval)
    else None
  else None.

(** Body of the inner pair loop, for [seq1 = allSequences[i]] and
    [seq2 = allSequences[j]], [i < j]. *)
Definition pairMatch (cfg : Config.t) (rhymeGroups : Verse) (seq1 seq2 : Seq.t)
  : option Match.t :=
  if negb (isWithinFourLines seq1 seq2 (Config.interLineLineDiffTolerance cfg)) then None
  else if negb (String.eqb (Seq.sequenceKey seq1) (Seq.sequenceKey seq2)) then None
  else
    match classify cfg rhymeGroups seq1 seq2 with
    | None => None
    | Some (rhymeType, interval, priority) =>
        let lengthPriority := Z.of_nat (Seq.length seq1) * 10 in
        let totalPriority := priority + lengthPriority in
        Some {| Match.seq1 := seq1;
                Match.seq2 := seq2;
                Match.rhymeType := rhymeType;
                Match.interval := interval;
                Match.priority := totalPriority;
                Match.sequenceLength := Seq.length seq1;
                Match.sequence := Seq.sequence seq1;
                Match.sequenceKey := Seq.sequenceKey seq1 |}
    end.

(** [for i, for j = i + 1 ..]: every span against the spans after it. *)
Fixpoint collectMatches (cfg : Config.t) (rhymeGroups : Verse) (allSequences : list Seq.t)
  : list Match.t :=
  match allSequences with
  | [] => []
  | seq1 :: rest =>
      omap (pairMatch cfg rhymeGroups seq1) rest ++ collectMatches cfg rhymeGroups rest
  end.

(** [allPossibleMatches], after its sort by decreasing priority. *)
Definition allPossibleMatches (cfg : Config.t) (rhymeGroups : Verse) : list Match.t :=
  sortDesc Match.priority
    (collectMatches cfg rhymeGroups (extractAllRhymeSequences rhymeGroups)).

(** ** Greedy selection *)

(** A character cell [(lineIndex, charIndex)]. *)
Abbreviation Cell := (nat * nat)%type.

(** The cells [startIndex..endIndex] of a span's line, in loop order. *)
Definition seqCells (s : Seq.t) : list Cell :=
  map (fun i => (Seq.lineIndex s, i))
      (seq (Seq.startIndex s) (Seq.endIndex s + 1 - Seq.startIndex s)).

Definition isSequenceMarked (s : Seq.t) (markedPositions : gset Cell) : bool :=
  existsb (fun cell => bool_decide (cell ∈ markedPositions)) (seqCells s).

Definition markSequencePositions (s : Seq.t) (markedPositions : gset Cell) : gset Cell :=
  foldl (fun marked cell => marked ∪ {[ cell ]}) markedPositions (seqCells s).

Module Position.
Record t : Type := mk {
  line : nat;
  char : nat;
  length : nat
}.
End Position.

Module RhymeResult.
Record t : Type := mk {
  type : string;
  rhymeType : RhymeType;
  rhymeGroup : option string;
  sequenceLength : nat;
  sequence : list string;
  positions : Position.t * Position.t;
  chars : list string * list string;
  pinyins : list string * list string;
  similarity : Z
}.
End RhymeResult.

(** [hay.includes(needle)] *)
Fixpoint includes (needle hay : string) : bool :=
  String.prefix needle hay
  || match hay with
     | EmptyString => false
     | String _ rest => includes needle rest
     end.

(** The object literal built on commit.  The labels hold no upper-case
    letter and no white space, so [type] is the label itself;
    [rhymeGroup] is [sequence[0]]. *)
Definition mkRhymeResult (m : Match.t) : RhymeResult.t :=
  let seq1 := Match.seq1 m in
  let seq2 := Match.seq2 m in
  {| RhymeResult.type := rhymeTypeString (Match.rhymeType m);
     RhymeResult.rhymeType := Match.rhymeType m;
     RhymeResult.rhymeGroup := head (Match.sequence m);
     RhymeResult.sequenceLength := Match.sequenceLength m;
     RhymeResult.sequence := Match.sequence m;
     RhymeResult.positions :=
       ({| Position.line := Seq.lineIndex seq1; Position.char := Seq.startIndex seq1;
           Position.length := Seq.length seq1 |},
        {| Position.line := Seq.lineIndex seq2; Position.char := Seq.startIndex seq2;
           Position.length := Seq.length seq2 |});
     RhymeResult.chars := (Seq.chars seq1, Seq.chars seq2);
     RhymeResult.pinyins := (Seq.pinyins seq1, Seq.pinyins seq2);
     RhymeResult.similarity := 1 |}.

(** The mutable state of the selection loop. *)
Module Selection.
Record t : Type := mk {
  markedPositions : gset Cell;
  analysisResults : list RhymeResult.t;
  endRhymeCount : nat;
  internalRhymeCount : nat
}.

Definition init : t := mk ∅ [] 0%nat 0%nat.
End Selection.

(** A candidate is committed when neither of its spans has a marked cell. *)
Definition isFree (m : Match.t) (markedPositions : gset Cell) : bool :=
  negb (isSequenceMarked (Match.seq1 m) markedPositions)
  && negb (isSequenceMarked (Match.seq2 m) markedPositions).

(** One iteration of [for (const match of allPossibleMatches)]. *)
Definition selectStep (st : Selection.t) (m : Match.t) : Selection.t :=
  if isFree m (Selection.markedPositions st) then
    let isEnd := includes "句尾" (rhymeTypeString (Match.rhymeType m)) in
    {| Selection.markedPositions :=
         markSequencePositions (Match.seq2 m)
           (markSequencePositions (Match.seq1 m) (Selection.markedPositions st));
       Selection.analysisResults := Selection.analysisResults st ++ [mkRhymeResult m];
       Selection.endRhymeCount :=
         if isEnd then S (Selection.endRhymeCount st) else Selection.endRhymeCount st;
       Selection.internalRhymeCount :=
         if isEnd then Selection.internalRhymeCount st
         else S (Selection.internalRhymeCount st) |}
  else st.

Definition selectMatches (matches : list Match.t) : Selection.t :=
  foldl selectStep Selection.init matches.

(** ** Identifiers and colours *)

Definition colorPalette : list string :=
  [ "#FF5733"; "#33FF57"; "#3357FF"; "#FF33A8"; "#FFC300";
    "#C70039"; "#900C3F"; "#581845"; "#1ABC9C"; "#3498DB" ].

(** [s.padStart(3, '0')] *)
Definition padStart3 (s : string) : string :=
  String.concat "" (replicate (3 - String.length s) "0") +:+ s.

Module FinalResult.
Record t : Type := mk {
  id : string;
  result : RhymeResult.t;
  color : string
}.
End FinalResult.

(** [analysisResults.map((result, index) => ...)], from [index] on, with
    the colour map and [colorIndex] the callback updates. *)
Fixpoint assignColors (index : nat) (rhymeGroupColors : gmap string string)
    (colorIndex : nat) (results : list RhymeResult.t) : list FinalResult.t :=
  match results with
  | [] => []
  | result :: rest =>
      let sequenceKey := getSequenceKey (RhymeResult.sequence result) in
      let '(colors, nextIndex) :=
        match rhymeGroupColors !! sequenceKey with
        | Some _ => (rhymeGroupColors, colorIndex)
        | None =>
            (<[ sequenceKey :=
                  default "" (colorPalette !! (colorIndex mod List.length colorPalette)%nat) ]>
               rhymeGroupColors,
             S colorIndex)
        end in
      {| FinalResult.id := "rhyme_" +:+ padStart3 (pretty (index + 1)%nat);
         FinalResult.result := result;
         FinalResult.color := default "" (colors !! sequenceKey) |}
      :: assignColors (S index) colors nextIndex rest
  end.

(** ** analyzeRhymePatterns *)

Module Summary.
Record t : Type := mk {
  totalLines : nat;
  totalRhymeCount : nat;
  endRhyme : nat;
  internalRhyme : nat
}.
End Summary.

Module Analysis.
Record t : Type := mk {
  rhymeGroups : JsVal;
  analysisResults : list FinalResult.t;
  summary : Summary.t
}.
End Analysis.

(** The messages of the three [throw new Error(...)]. *)
Definition InputShapeError : string := "输入必须是韵脚组序列数组".
Definition LineShapeError : string := "韵脚组序列格式无效".
Definition CharInfoShapeError : string := "韵脚组字符信息格式无效".

(** The test on one [charInfo]; [Some] is the entry read as a record. *)
Definition checkCharInfo (charInfo : JsVal) : option CharInfo.t :=
  if notAnObject charInfo then None
  else
    match asString (getProp charInfo "char"), asString (getProp charInfo "pinyin"),
          asString (getProp charInfo "normalGroup"),
          asString (getProp charInfo "strictGroup") with
    | Some c, Some p, Some n, Some s => Some (CharInfo.mk c p n s)
    | _, _, _, _ => None
    end.

(** [for (const charInfo of group.charInfos)] *)
Fixpoint checkCharInfos (items : list JsVal) : option (list CharInfo.t) :=
  match items with
  | [] => Some []
  | charInfo :: rest =>
      match checkCharInfo charInfo with
      | None => None
      | Some c =>
          match checkCharInfos rest with
          | None => None
          | Some cs => Some (c :: cs)
          end
      end
  end.

(** The test on one [group], then on each of its [charInfos]. *)
Definition checkGroup (group : JsVal) : string + Line.t :=
  if notAnObject group then inl LineShapeError
  else
    match asString (getProp group "line"), getProp group "charInfos" with
    | Some line, JArr items =>
        match checkCharInfos items with
        | None => inl CharInfoShapeError
        | Some charInfos => inr (Line.mk line charInfos)
        end
    | _, _ => inl LineShapeError
    end.

(** [for (const group of rhymeGroups)]: the first failure is thrown. *)
Fixpoint checkGroups (groups : list JsVal) : string + Verse :=
  match groups with
  | [] => inr []
  | group :: rest =>
      match checkGroup group with
      | inl e => inl e
      | inr l =>
          match checkGroups rest with
          | inl e => inl e
          | inr ls => inr (l :: ls)
          end
      end
  end.

(** Everything after the validation, on the verse read as records. *)
Definition analyzeValid (input : JsVal) (rhymeGroups : Verse) (options : Options.t)
  : Analysis.t :=
  let cfg := resolveOptions options in
  let st := selectMatches (allPossibleMatches cfg rhymeGroups) in
  let finalResults := assignColors 0 ∅ 0 (Selection.analysisResults st) in
  {| Analysis.rhymeGroups := input;
     Analysis.analysisResults := finalResults;
     Analysis.summary :=
       {| Summary.totalLines := List.length rhymeGroups;
          Summary.totalRhymeCount := List.length finalResults;
          Summary.endRhyme := Selection.endRhymeCount st;
          Summary.internalRhyme := Selection.internalRhymeCount st |} |}.

Definition analyzeRhymePatterns (rhymeGroups : JsVal) (options : Options.t)
  : string + Analysis.t :=
  match rhymeGroups with
  | JArr groups =>
      if Nat.eqb (List.length groups) 0 then
        inr {| Analysis.rhymeGroups := JArr [];
               Analysis.analysisResults := [];
               Analysis.summary := Summary.mk 0 0 0 0 |}
      else
        match checkGroups groups with
        | inl e => inl e
        | inr verse => inr (analyzeValid rhymeGroups verse options)
        end
  | _ => inl InputShapeError
  end.

(** * The call with its working state written out *)

(** The definitions above read the body of [analyzeRhymePatterns] as nested
    expressions.  Here it is read a second time statement by statement, with
    every variable and object the code assigns to or mutates held in a store
    that outlives the call: the array [allSequences] of
    [extractAllRhymeSequences] and the arrays and the flag of its innermost
    loop, the [Set] of marked positions, the arrays of candidates and of
    results, the two counters, the colour [Map] and [colorIndex].  A call
    starts in the store the call before it ended in, and a declaration of the
    source ([const markedPositions = new Set()], [let colorIndex = 0]) is
    the assignment that begins the life of its component. *)

Module Working.
Record t : Type := mk {
  allSequences : list Seq.t;
  rhymeSequence : list string;
  chars : list string;
  pinyins : list string;
  hasUnknownRhyme : bool;
  markedPositions : gset Cell;
  allPossibleMatches : list Match.t;
  analysisResults : list RhymeResult.t;
  endRhymeCount : nat;
  internalRhymeCount : nat;
  rhymeGroupColors : gmap string string;
  colorIndex : nat
}.

(** A store nothing has been written to. *)
Definition blank : t :=
  mk [] [] [] [] false ∅ [] [] 0%nat 0%nat ∅ 0%nat.

(** Assignment to one component. *)
Definition withAllSequences (x : list Seq.t) (w : t) : t :=
  mk x (rhymeSequence w) (chars w) (pinyins w) (hasUnknownRhyme w)
    (markedPositions w) (allPossibleMatches w) (analysisResults w) (endRhymeCount w)
    (internalRhymeCount w) (rhymeGroupColors w) (colorIndex w).
Definition withRhymeSequence (x : list string) (w : t) : t :=
  mk (allSequences w) x (chars w) (pinyins w) (hasUnknownRhyme w)
    (markedPositions w) (allPossibleMatches w) (analysisResults w) (endRhymeCount w)
    (internalRhymeCount w) (rhymeGroupColors w) (colorIndex w).
Definition withChars (x : list string) (w : t) : t :=
  mk (allSequences w) (rhymeSequence w) x (pinyins w) (hasUnknownRhyme w)
    (markedPositions w) (allPossibleMatches w) (analysisResults w) (endRhymeCount w)
    (internalRhymeCount w) (rhymeGroupColors w) (colorIndex w).
Definition withPinyins (x : list string) (w : t) : t :=
  mk (allSequences w) (rhymeSequence w) (chars w) x (hasUnknownRhyme w)
    (markedPositions w) (allPossibleMatches w) (analysisResults w) (endRhymeCount w)
    (internalRhymeCount w) (rhymeGroupColors w) (colorIndex w).
Definition withHasUnknownRhyme (x : bool) (w : t) : t :=
  mk (allSequences w) (rhymeSequence w) (chars w) (pinyins w) x (markedPositions w)
    (allPossibleMatches w) (analysisResults w) (endRhymeCount w)
    (internalRhymeCount w) (rhymeGroupColors w) (colorIndex w).
Definition withMarkedPositions (x : gset Cell) (w : t) : t :=
  mk (allSequences w) (rhymeSequence w) (chars w) (pinyins w) (hasUnknownRhyme w) x
    (allPossibleMatches w) (analysisResults w) (endRhymeCount w)
    (internalRhymeCount w) (rhymeGroupColors w) (colorIndex w).
Definition withAllPossibleMatches (x : list Match.t) (w : t) : t :=
  mk (allSequences w) (rhymeSequence w) (chars w) (pinyins w) (hasUnknownRhyme w)
    (markedPositions w) x (analysisResults w) (endRhymeCount w)
    (internalRhymeCount w) (rhymeGroupColors w) (colorIndex w).
Definition withAnalysisResults (x : list RhymeResult.t) (w : t) : t :=
  mk (allSequences w) (rhymeSequence w) (chars w) (pinyins w) (hasUnknownRhyme w)
    (markedPositions w) (allPossibleMatches w) x (endRhymeCount w)
    (internalRhymeCount w) (rhymeGroupColors w) (colorIndex w).
Definition withEndRhymeCount (x : nat) (w : t) : t :=
  mk (allSequences w) (rhymeSequence w) (chars w) (pinyins w) (hasUnknownRhyme w)
    (markedPositions w) (allPossibleMatches w) (analysisResults w) x
    (internalRhymeCount w) (rhymeGroupColors w) (colorIndex w).
Definition withInternalRhymeCount (x : nat) (w : t) : t :=
  mk (allSequences w) (rhymeSequence w) (chars w) (pinyins w) (hasUnknownRhyme w)
    (markedPositions w) (allPossibleMatches w) (analysisResults w) (endRhymeCount w)
    x (rhymeGroupColors w) (colorIndex w).
Definition withRhymeGroupColors (x : gmap string string) (w : t) : t :=
  mk (allSequences w) (rhymeSequence w) (chars w) (pinyins w) (hasUnknownRhyme w)
    (markedPositions w) (allPossibleMatches w) (analysisResults w) (endRhymeCount w)
    (internalRhymeCount w) x (colorIndex w).
Definition withColorIndex (x : nat) (w : t) : t :=
  mk (allSequences w) (rhymeSequence w) (chars w) (pinyins w) (hasUnknownRhyme w)
    (markedPositions w) (allPossibleMatches w) (analysisResults w) (endRhymeCount w)
    (internalRhymeCount w) (rhymeGroupColors w) x.
End Working.

Declare Scope stateful_scope.
Delimit Scope stateful_scope with stateful.

Module Stateful.

(** A statement: from a store to a value and the store it leaves. *)
Definition M (A : Type) : Type := Working.t -> A * Working.t.

Definition ret {A : Type} (a : A) : M A := fun w => (a, w).

Definition bind {A B : Type} (c : M A) (k : A -> M B) : M B :=
  fun w => k (fst (c w)) (snd (c w)).

Notation "x <- c ;; k" := (bind c (fun x => k))
  (at level 100, c at next level, right associativity) : stateful_scope.
Notation "c ;; k" := (bind c (fun _ => k))
  (at level 100, right associativity) : stateful_scope.

Local Open Scope stateful_scope.

(** Reading the store, and an assignment or a mutation. *)
Definition gets {A : Type} (f : Working.t -> A) : M A := fun w => (f w, w).
Definition modify (f : Working.t -> Working.t) : M unit := fun w => (tt, f w).

(** [for (const x of l) body], and the counting loops over a range. *)
Fixpoint forEach {A : Type} (l : list A) (body : A -> M unit) : M unit :=
  match l with
  | [] => ret tt
  | x :: rest => body x ;; forEach rest body
  end.

(** [l.forEach((x, index) => body)], indices from [index] on. *)
Fixpoint forEachIndexed {A : Type} (index : nat) (l : list A) (body : A -> nat -> M unit)
  : M unit :=
  match l with
  | [] => ret tt
  | x :: rest => body x index ;; forEachIndexed (S index) rest body
  end.

(** [l.map((x, index) => f)], indices from [index] on. *)
Fixpoint mapIndexed {A B : Type} (index : nat) (l : list A) (f : A -> nat -> M B)
  : M (list B) :=
  match l with
  | [] => ret []
  | x :: rest =>
      y <- f x index ;;
      ys <- mapIndexed (S index) rest f ;;
      ret (y :: ys)
  end.

(** The innermost loop of [extractAllRhymeSequences]: three pushes for a
    character, or the flag and [break]. *)
Fixpoint scanLoop (cs : list CharInfo.t) : M unit :=
  match cs with
  | [] => ret tt
  | charInfo :: rest =>
      let rhymeGroup := CharInfo.normalGroup charInfo in
      if isUnknownGroup rhymeGroup then
        modify (Working.withHasUnknownRhyme true)
      else
        modify (fun w =>
          Working.withRhymeSequence (Working.rhymeSequence w ++ [rhymeGroup]) w) ;;
        modify (fun w =>
          Working.withChars (Working.chars w ++ [CharInfo.char charInfo]) w) ;;
        modify (fun w =>
          Working.withPinyins (Working.pinyins w ++ [CharInfo.pinyin charInfo]) w) ;;
        scanLoop rest
  end.

(** Body of the two index loops, for one [startIndex] and [endIndex]. *)
Definition scanSpan (lineIndex : nat) (charInfos : list CharInfo.t)
    (startIndex endIndex : nat) : M unit :=
  let maxLength := List.length charInfos in
  let sequenceLength := (endIndex - startIndex + 1)%nat in
  let isEndOfLine := Nat.eqb endIndex (maxLength - 1) in
  modify (Working.withRhymeSequence []) ;;
  modify (Working.withChars []) ;;
  modify (Working.withPinyins []) ;;
  modify (Working.withHasUnknownRhyme false) ;;
  scanLoop (charRange charInfos startIndex endIndex) ;;
  hasUnknownRhyme <- gets Working.hasUnknownRhyme ;;
  if hasUnknownRhyme then ret tt
  else
    rhymeSequence <- gets Working.rhymeSequence ;;
    chars <- gets Working.chars ;;
    pinyins <- gets Working.pinyins ;;
    modify (fun w =>
      Working.withAllSequences
        (Working.allSequences w ++
           [ {| Seq.lineIndex := lineIndex;
                Seq.startIndex := startIndex;
                Seq.endIndex := endIndex;
                Seq.length := sequenceLength;
                Seq.sequence := rhymeSequence;
                Seq.sequenceKey := getSequenceKey rhymeSequence;
                Seq.chars := chars;
                Seq.pinyins := pinyins;
                Seq.isEndOfLine := isEndOfLine;
                Seq.priorityScore :=
                  (if isEndOfLine then 1000 else 0) + Z.of_nat sequenceLength * 10 |} ])
        w).

(** Callback of [rhymeGroups.forEach]. *)
Definition scanLine (group : Line.t) (lineIndex : nat) : M unit :=
  let charInfos := Line.charInfos group in
  let maxLength := List.length charInfos in
  forEach (seq 0 maxLength) (fun startIndex =>
    forEach (seq startIndex (maxLength - startIndex)) (fun endIndex =>
      scanSpan lineIndex charInfos startIndex endIndex)).

(** The array is sorted in place and returned. *)
Definition extractAllRhymeSequences (rhymeGroups : Verse) : M (list Seq.t) :=
  modify (Working.withAllSequences []) ;;
  forEachIndexed 0 rhymeGroups scanLine ;;
  modify (fun w =>
    Working.withAllSequences (sortDesc Seq.priorityScore (Working.allSequences w)) w) ;;
  gets Working.allSequences.

(** [markedPositions.add] for each cell of the span. *)
Definition markSequencePositions (s : Seq.t) : M unit :=
  forEach (seqCells s) (fun cell =>
    modify (fun w =>
      Working.withMarkedPositions (Working.markedPositions w ∪ {[ cell ]}) w)).

(** The pair loops: [seq1] against every span after it, a push for a valid
    pair. *)
Fixpoint pairLoops (cfg : Config.t) (rhymeGroups : Verse) (allSequences : list Seq.t)
  : M unit :=
  match allSequences with
  | [] => ret tt
  | seq1 :: rest =>
      forEach rest (fun seq2 =>
        match pairMatch cfg rhymeGroups seq1 seq2 with
        | None => ret tt
        | Some m =>
            modify (fun w =>
              Working.withAllPossibleMatches (Working.allPossibleMatches w ++ [m]) w)
        end) ;;
      pairLoops cfg rhymeGroups rest
  end.

(** One iteration of [for (const match of allPossibleMatches)]. *)
Definition commitMatch (m : Match.t) : M unit :=
  let seq1 := Match.seq1 m in
  let seq2 := Match.seq2 m in
  marked1 <- gets (fun w => isSequenceMarked seq1 (Working.markedPositions w)) ;;
  marked2 <- gets (fun w => isSequenceMarked seq2 (Working.markedPositions w)) ;;
  if negb marked1 && negb marked2 then
    modify (fun w =>
      Working.withAnalysisResults (Working.analysisResults w ++ [mkRhymeResult m]) w) ;;
    (if includes "句尾" (rhymeTypeString (Match.rhymeType m)) then
       modify (fun w => Working.withEndRhymeCount (S (Working.endRhymeCount w)) w)
     else
       modify (fun w =>
         Working.withInternalRhymeCount (S (Working.internalRhymeCount w)) w)) ;;
    markSequencePositions seq1 ;;
    markSequencePositions seq2
  else ret tt.

(** Callback of [analysisResults.map]. *)
Definition colourResult (result : RhymeResult.t) (index : nat) : M FinalResult.t :=
  let sequenceKey := getSequenceKey (RhymeResult.sequence result) in
  known <- gets (fun w => Working.rhymeGroupColors w !! sequenceKey) ;;
  match known with
  | Some _ => ret tt
  | None =>
      modify (fun w =>
        Working.withRhymeGroupColors
          (<[ sequenceKey :=
                default "" (colorPalette
                              !! (Working.colorIndex w mod List.length colorPalette)%nat) ]>
             (Working.rhymeGroupColors w)) w) ;;
      modify (fun w => Working.withColorIndex (S (Working.colorIndex w)) w)
  end ;;
  color <- gets (fun w => Working.rhymeGroupColors w !! sequenceKey) ;;
  ret {| FinalResult.id := "rhyme_" +:+ padStart3 (pretty (index + 1)%nat);
         FinalResult.result := result;
         FinalResult.color := default "" color |}.

(** Everything after the validation, on the verse read as records. *)
Definition analyzeValid (input : JsVal) (rhymeGroups : Verse) (options : Options.t)
  : M Analysis.t :=
  let cfg := resolveOptions options in
  allSequences <- extractAllRhymeSequences rhymeGroups ;;
  modify (Working.withMarkedPositions ∅) ;;
  modify (Working.withAllPossibleMatches []) ;;
  pairLoops cfg rhymeGroups allSequences ;;
  modify (fun w =>
    Working.withAllPossibleMatches
      (sortDesc Match.priority (Working.allPossibleMatches w)) w) ;;
  modify (Working.withAnalysisResults []) ;;
  modify (Working.withEndRhymeCount 0) ;;
  modify (Working.withInternalRhymeCount 0) ;;
  matches <- gets Working.allPossibleMatches ;;
  forEach matches commitMatch ;;
  modify (Working.withRhymeGroupColors ∅) ;;
  modify (Working.withColorIndex 0) ;;
  analysisResults <- gets Working.analysisResults ;;
  finalResults <- mapIndexed 0 analysisResults colourResult ;;
  endRhymeCount <- gets Working.endRhymeCount ;;
  internalRhymeCount <- gets Working.internalRhymeCount ;;
  ret {| Analysis.rhymeGroups := input;
         Analysis.analysisResults := finalResults;
         Analysis.summary :=
           {| Summary.totalLines := List.length rhymeGroups;
              Summary.totalRhymeCount := List.length finalResults;
              Summary.endRhyme := endRhymeCount;
              Summary.internalRhyme := internalRhymeCount |} |}.

(** The validation writes nothing; a [throw] or the early [return] leaves
    the store as it was. *)
Definition analyzeRhymePatterns (rhymeGroups : JsVal) (options : Options.t)
  : M (string + Analysis.t) :=
  match rhymeGroups with
  | JArr groups =>
      if Nat.eqb (List.length groups) 0 then
        ret (inr {| Analysis.rhymeGroups := JArr [];
                    Analysis.analysisResults := [];
                    Analysis.summary := Summary.mk 0 0 0 0 |})
      else
        match checkGroups groups with
        | inl e => ret (inl e)
        | inr verse =>
            res <- analyzeValid rhymeGroups verse options ;;
            ret (inr res)
        end
  | _ => ret (inl InputShapeError)
  end.

(** Calls one after the other, each in the store the one before left. *)
Fixpoint session (calls : list (JsVal * Options.t)) : M (list (string + Analysis.t)) :=
  match calls with
  | [] => ret []
  | (rhymeGroups, options) :: rest =>
      outcome <- analyzeRhymePatterns rhymeGroups options ;;
      outcomes <- session rest ;;
      ret (outcome :: outcomes)
  end.

End Stateful.

(** * Specification vocabulary and example inputs *)

(** ** Spans and rhyme types *)

(** What it is to be the span [startIndex..endIndex] of a line of the
    verse: the invariant of the objects [extractAllRhymeSequences] builds. *)
Definition spanOf (rhymeGroups : Verse) (s : Seq.t) : Prop :=
  ∃ group,
    rhymeGroups !! Seq.lineIndex s = Some group
    ∧ (Seq.startIndex s <= Seq.endIndex s < List.length (Line.charInfos group))%nat
    ∧ extractSpan (Seq.lineIndex s) (Line.charInfos group)
        (Seq.startIndex s) (Seq.endIndex s) = Some s.

Definition isEndRhyme (rt : RhymeType) : bool :=
  match rt with EndRhyme _ => true | _ => false end.
Definition isInterLineRhyme (rt : RhymeType) : bool :=
  match rt with InterLineRhyme _ => true | _ => false end.
Definition isInternalRhyme (rt : RhymeType) : bool :=
  match rt with InternalRhyme _ => true | _ => false end.

(** ** Cells *)

(** The cells a position covers, as the renderer ([createRhymeMarkers] of
    the visualizer) enumerates them: [pos.char + i] for
    [i < (pos.length || 1)]. *)
Definition positionCells (pos : Position.t) : list Cell :=
  let length := if Nat.eqb (Position.length pos) 0 then 1%nat else Position.length pos in
  map (fun i => (Position.line pos, (Position.char pos + i)%nat)) (seq 0 length).

Definition resultCells (r : RhymeResult.t) : list Cell :=
  positionCells (fst (RhymeResult.positions r))
  ++ positionCells (snd (RhymeResult.positions r)).

(** The cells of the two spans of a candidate. *)
Definition matchCells (m : Match.t) : list Cell :=
  seqCells (Match.seq1 m) ++ seqCells (Match.seq2 m).

(** A span whose [length] is that of its index range. *)
Definition wfSeq (s : Seq.t) : Prop :=
  (Seq.startIndex s <= Seq.endIndex s)%nat
  ∧ Seq.length s = (Seq.endIndex s - Seq.startIndex s + 1)%nat.

Definition wfMatch (m : Match.t) : Prop :=
  wfSeq (Match.seq1 m) ∧ wfSeq (Match.seq2 m).

(** ** The selection loop *)

(** The marked set when the candidate of index [k] is considered. *)
Definition markedBefore (matches : list Match.t) (k : nat) : gset Cell :=
  Selection.markedPositions (selectMatches (take k matches)).

Definition pairwiseDisjoint (rs : list RhymeResult.t) : Prop :=
  ∀ i j ri rj c,
    i ≠ j -> rs !! i = Some ri -> rs !! j = Some rj ->
    c ∈ resultCells ri -> c ∈ resultCells rj -> False.

(** The invariant of the selection loop: the cells of every committed
    result are marked, and no two committed results share a cell. *)
Definition selectionInv (st : Selection.t) : Prop :=
  (∀ r c, r ∈ Selection.analysisResults st -> c ∈ resultCells r ->
          c ∈ Selection.markedPositions st)
  ∧ pairwiseDisjoint (Selection.analysisResults st).

(** ** Shapes *)

(** The shape the validation asks of a character entry, of a line entry
    and of the verse. *)
Definition charInfoShaped (c : JsVal) : Prop :=
  notAnObject c = false
  ∧ is_Some (asString (getProp c "char")) ∧ is_Some (asString (getProp c "pinyin"))
  ∧ is_Some (asString (getProp c "normalGroup"))
  ∧ is_Some (asString (getProp c "strictGroup")).

Definition lineShaped (g : JsVal) : Prop :=
  notAnObject g = false
  ∧ is_Some (asString (getProp g "line"))
  ∧ isArray (getProp g "charInfos") = true.

Definition charInfosOf (g : JsVal) : list JsVal :=
  match getProp g "charInfos" with JArr items => items | _ => [] end.

Definition groupShaped (g : JsVal) : Prop :=
  lineShaped g ∧ Forall charInfoShaped (charInfosOf g).

Definition verseShaped (v : JsVal) : Prop :=
  ∃ groups, v = JArr groups ∧ Forall groupShaped groups.

(** A label that is neither the unknown nor the empty one. *)
Definition knownGroup (g : string) : Prop := g ≠ "未知" ∧ g ≠ "".

(** ** Example inputs *)

(** The object literals of a character entry and of a line entry. *)
Definition jsChar (c p n s : string) : JsVal :=
  JObj [("char", JStr c); ("pinyin", JStr p); ("normalGroup", JStr n); ("strictGroup", JStr s)].

Definition jsLine (text : string) (cs : list JsVal) : JsVal :=
  JObj [("line", JStr text); ("charInfos", JArr cs)].

(** A character entry whose transcription is its character and whose two
    groups are [n], as a JavaScript value and as a record. *)
Definition jc (c n : string) : JsVal := jsChar c c n n.

Definition ci (c n : string) : CharInfo.t := CharInfo.mk c c n n.

(** Three lines: [x y z] with groups [a a b], then [w] and [v], both [a]. *)
Definition tercet : JsVal :=
  JArr [ jsLine "xyz" [jc "x" "a"; jc "y" "a"; jc "z" "b"];
         jsLine "w" [jc "w" "a"];
         jsLine "v" [jc "v" "a"] ].

Definition tercetVerse : Verse :=
  [ Line.mk "xyz" [ci "x" "a"; ci "y" "a"; ci "z" "b"];
    Line.mk "w" [ci "w" "a"];
    Line.mk "v" [ci "v" "a"] ].

(** One line [x y z w] with groups [a a a b]. *)
Definition triple : JsVal :=
  JArr [ jsLine "xyzw" [jc "x" "a"; jc "y" "a"; jc "z" "a"; jc "w" "b"] ].

(** Two lines of one character each, [x] and [y], both of group [a]. *)
Definition couplet : JsVal :=
  JArr [ jsLine "x" [jc "x" "a"]; jsLine "y" [jc "y" "a"] ].

Definition coupletVerse : Verse :=
  [ Line.mk "x" [ci "x" "a"]; Line.mk "y" [ci "y" "a"] ].

Definition noEndRhyme : Options.t :=
  {| Options.detectEndRhyme := Some false;
     Options.detectInterLineRhyme := None;
     Options.detectInternalRhyme := None;
     Options.interLineTolerance := None;
     Options.interLineLineDiffTolerance := None;
     Options.internalRhymeTolerance := None |}.

(** The results of a call, [[]] if it throws. *)
Definition resultsOf (v : JsVal) (options : Options.t) : list FinalResult.t :=
  match analyzeRhymePatterns v options with
  | inr res => Analysis.analysisResults res
  | inl _ => []
  end.

(** Two lines [x p] and [y q], of groups [a b] and [a c]. *)
Definition stanza : JsVal :=
  JArr [ jsLine "xp" [jc "x" "a"; jc "p" "b"]; jsLine "yq" [jc "y" "a"; jc "q" "c"] ].

(** The options with every field set to its default. *)
Definition allDefaults : Options.t :=
  {| Options.detectEndRhyme := Some true;
     Options.detectInterLineRhyme := Some true;
     Options.detectInternalRhyme := Some true;
     Options.interLineTolerance := Some 2;
     Options.interLineLineDiffTolerance := Some 4;
     Options.internalRhymeTolerance := Some 0 |}.

(** The spans of [x] and of [y] in a line [x p y q] of groups [a c a d]:
    one character lies between them. *)
Definition spanX : Seq.t := Seq.mk 0 0 0 1 ["a"] "a" ["x"] ["x"] false 10.
Definition spanY : Seq.t := Seq.mk 0 2 2 1 ["a"] "a" ["y"] ["y"] false 10.
Definition gapVerse : Verse :=
  [ Line.mk "xpyq" [ci "x" "a"; ci "p" "c"; ci "y" "a"; ci "q" "d"] ].

(** ** Labels and counts *)

(** A decimal digit, as [pretty] prints them. *)
Definition isDigit (c : Ascii.ascii) : Prop := ∃ x, c = pretty_N_char x.

Fixpoint allDigits (s : string) : Prop :=
  match s with
  | EmptyString => True
  | String c rest => isDigit c ∧ allDigits rest
  end.

(** The number of results whose type satisfies [P]. *)
Definition countType (P : RhymeType -> bool) (results : list FinalResult.t) : nat :=
  List.length (List.filter (fun fr => P (RhymeResult.rhymeType (FinalResult.result fr)))
                           results).

(** The invariant of the two counters of the selection loop. *)
Definition countersInv (st : Selection.t) : Prop :=
  Selection.endRhymeCount st
  = List.length (List.filter (fun r => negb (isInternalRhyme (RhymeResult.rhymeType r)))
                             (Selection.analysisResults st))
  ∧ Selection.internalRhymeCount st
    = List.length (List.filter (fun r => isInternalRhyme (RhymeResult.rhymeType r))
                               (Selection.analysisResults st)).

(** ** Positions in the verse *)

(** The position lies in its line, and [chars] and [pinyins] are the
    characters and transcriptions the verse has there. *)
Definition positionShows (rhymeGroups : Verse) (pos : Position.t)
    (chars pinyins : list string) : Prop :=
  ∃ group,
    rhymeGroups !! Position.line pos = Some group
    ∧ (0 < Position.length pos)%nat
    ∧ (Position.char pos + Position.length pos <= List.length (Line.charInfos group))%nat
    ∧ chars = map CharInfo.char
                (take (Position.length pos) (drop (Position.char pos) (Line.charInfos group)))
    ∧ pinyins = map CharInfo.pinyin
                  (take (Position.length pos) (drop (Position.char pos) (Line.charInfos group))).

(** The labels of the verse at a position. *)
Definition positionLabels (rhymeGroups : Verse) (pos : Position.t) : list string :=
  match rhymeGroups !! Position.line pos with
  | Some group =>
      map CharInfo.normalGroup
        (take (Position.length pos) (drop (Position.char pos) (Line.charInfos group)))
  | None => []
  end.

(** The position ends with the last character of its line. *)
Definition endsLine (rhymeGroups : Verse) (pos : Position.t) : Prop :=
  lineLength rhymeGroups (Position.line pos)
  = Z.of_nat (Position.char pos + Position.length pos).

(** The number of characters strictly between two positions of a line. *)
Definition positionGap (p1 p2 : Position.t) : Z :=
  Z.max 0
    (Z.max (Z.of_nat (Position.char p2) - Z.of_nat (Position.char p1 + Position.length p1))
           (Z.of_nat (Position.char p1) - Z.of_nat (Position.char p2 + Position.length p2))).

(** The distance of the inter-line rule, from the starts of the two
    positions or from the ends of their lines, whichever is smaller. *)
Definition positionInterval (rhymeGroups : Verse) (p1 p2 : Position.t) : Z :=
  let forwardDiff := Z.abs (Z.of_nat (Position.char p1) - Z.of_nat (Position.char p2)) in
  let reverse1 :=
    lineLength rhymeGroups (Position.line p1)
    - Z.of_nat (Position.char p1 + Position.length p1) in
  let reverse2 :=
    lineLength rhymeGroups (Position.line p2)
    - Z.of_nat (Position.char p2 + Position.length p2) in
  Z.min forwardDiff (Z.abs (reverse1 - reverse2)).

(** The position of a span, as [mkRhymeResult] builds it. *)
Definition seqPosition (s : Seq.t) : Position.t :=
  {| Position.line := Seq.lineIndex s; Position.char := Seq.startIndex s;
     Position.length := Seq.length s |}.

(** ** Identifiers and colours of the results *)

(** The sequence key the colour of a result is looked up with. *)
Definition resultKey (fr : FinalResult.t) : string :=
  getSequenceKey (RhymeResult.sequence (FinalResult.result fr)).

(** [colorPalette[j % colorPalette.length]] *)
Definition paletteColor (j : nat) : string :=
  default "" (colorPalette !! (j mod List.length colorPalette)%nat).

(** The invariant of the colour map: its keys are the [colorIndex] keys met
    so far, the [j]-th of them mapped to the [j]-th colour of the cycle. *)
Definition colorsInv (colors : gmap string string) (colorIndex : nat) : Prop :=
  ∃ keys : list string,
    NoDup keys ∧ List.length keys = colorIndex
    ∧ ∀ k c, colors !! k = Some c <-> ∃ j, keys !! j = Some k ∧ c = paletteColor j.

(** ** Sequence keys *)

(** The text has no [_], the separator of [getSequenceKey]. *)
Fixpoint noUnderscore (s : string) : bool :=
  match s with
  | EmptyString => true
  | String c rest => negb (Ascii.eqb c "_") && noUnderscore rest
  end.

(** No rhyme-group label of the verse has an underscore. *)
Definition plainLabels (rhymeGroups : Verse) : Prop :=
  ∀ group c, group ∈ rhymeGroups -> c ∈ Line.charInfos group ->
             noUnderscore (CharInfo.normalGroup c) = true.

(** Two lines, [x] of group [a_b] and [y z] of groups [a] and [b]. *)
Definition underscored : JsVal :=
  JArr [ jsLine "x" [jc "x" "a_b"]; jsLine "yz" [jc "y" "a"; jc "z" "b"] ].

(** ** validateRhymeGroups (src/components/rhymeConverter.js) *)

(** [typeof v === 'string'] *)
Definition isString (v : JsVal) : bool :=
  match v with JStr _ => true | _ => false end.

Definition requiredFields : list string :=
  ["char"; "pinyin"; "normalGroup"; "strictGroup"].

(** Body of the loop over [group.charInfos]: [false] is the early
    [return false]. *)
Definition validCharInfo (charInfo : JsVal) : bool :=
  negb (notAnObject charInfo)
  && forallb (fun field => isString (getProp charInfo field)) requiredFields.

(** Body of the loop over [rhymeGroups]. *)
Definition validGroup (group : JsVal) : bool :=
  negb (notAnObject group)
  && (isString (getProp group "line") && isArray (getProp group "charInfos"))
  && forallb validCharInfo (charInfosOf group).

Definition validateRhymeGroups (rhymeGroups : JsVal) : bool :=
  match rhymeGroups with
  | JArr groups => forallb validGroup groups
  | _ => false
  end.

(** ** createRhymeMarkers and generateSimpleStats
       (src/components/rhymeVisualizer.js) *)

(** [if (!markers.has(key)) markers.set(key, []); markers.get(key).push(result)] *)
Definition pushMarker (result : FinalResult.t) (markers : gmap Cell (list FinalResult.t))
    (cell : Cell) : gmap Cell (list FinalResult.t) :=
  <[ cell := default [] (markers !! cell) ++ [result] ]> markers.

(** The loop over the characters of one position. *)
Definition markPosition (result : FinalResult.t) (markers : gmap Cell (list FinalResult.t))
    (pos : Position.t) : gmap Cell (list FinalResult.t) :=
  foldl (pushMarker result) markers (positionCells pos).

(** The first argument is not read by the function. *)
Definition createRhymeMarkers (rhymeGroups : JsVal) (analysisResults : list FinalResult.t)
  : gmap Cell (list FinalResult.t) :=
  foldl (fun markers result =>
           let positions := RhymeResult.positions (FinalResult.result result) in
           markPosition result (markPosition result markers (fst positions)) (snd positions))
        ∅ analysisResults.

(** [rhymeMarkers.get(key) || []], the markers the renderer reads for a
    character. *)
Definition markersAt (markers : gmap Cell (list FinalResult.t)) (cell : Cell)
  : list FinalResult.t :=
  default [] (markers !! cell).

(** The markers a result pushes for a cell: one for each of its positions
    that covers the cell. *)
Definition markersOf (cell : Cell) (result : FinalResult.t) : list FinalResult.t :=
  let positions := RhymeResult.positions (FinalResult.result result) in
  (if decide (cell ∈ positionCells (fst positions)) then [result] else [])
  ++ (if decide (cell ∈ positionCells (snd positions)) then [result] else []).

(** [totalChars] of [generateSimpleStats]: the sum of [group.charInfos.length],
    [charInfos] being an array in every line entry of a validated verse. *)
Definition totalChars (rhymeGroups : JsVal) : nat :=
  match rhymeGroups with
  | JArr groups =>
      foldl (fun total group => (total + List.length (charInfosOf group))%nat) 0%nat groups
  | _ => 0%nat
  end.

(** [rhymingChars] of [generateSimpleStats]: the set of the cells of all
    positions; [rhymingCharCount] is its size. *)
Definition addPositionCells (chars : gset Cell) (pos : Position.t) : gset Cell :=
  foldl (fun set cell => set ∪ {[ cell ]}) chars (positionCells pos).

Definition rhymingChars (analysisResults : list FinalResult.t) : gset Cell :=
  foldl (fun chars result =>
           let positions := RhymeResult.positions (FinalResult.result result) in
           addPositionCells (addPositionCells chars (fst positions)) (snd positions))
        ∅ analysisResults.

Definition rhymingCharCount (analysisResults : list FinalResult.t) : nat :=
  size (rhymingChars analysisResults).

(** The cells of a verse whose lines are numbered from [k]. *)
Fixpoint verseCells (k : nat) (rhymeGroups : Verse) : list Cell :=
  match rhymeGroups with
  | [] => []
  | group :: rest =>
      map (fun i => (k, i)) (seq 0 (List.length (Line.charInfos group)))
      ++ verseCells (S k) rest
  end.

(** What the type of a candidate says of its two positions. *)
Definition typeGeometry (cfg : Config.t) (rhymeGroups : Verse) (rt : RhymeType)
    (p1 p2 : Position.t) : Prop :=
  Z.abs (Z.of_nat (Position.line p1) - Z.of_nat (Position.line p2))
  <= Config.interLineLineDiffTolerance cfg
  ∧ match rt with
    | EndRhyme _ =>
        Config.detectEndRhyme cfg = true
        ∧ (endsLine rhymeGroups p1 ∨ endsLine rhymeGroups p2)
    | InterLineRhyme _ =>
        Config.detectInterLineRhyme cfg = true
        ∧ Position.line p1 ≠ Position.line p2
        ∧ positionInterval rhymeGroups p1 p2 <= Config.interLineTolerance cfg
        ∧ (Config.detectEndRhyme cfg = true ->
           ¬ endsLine rhymeGroups p1 ∧ ¬ endsLine rhymeGroups p2)
    | InternalRhyme _ =>
        Config.detectInternalRhyme cfg = true
        ∧ Position.line p1 = Position.line p2
        ∧ positionGap p1 p2
          <= Z.min (Z.of_nat (Position.length p1)) (Z.of_nat (Position.length p2))
             + Config.internalRhymeTolerance cfg
        ∧ (Config.detectEndRhyme cfg = true ->
           ¬ endsLine rhymeGroups p1 ∧ ¬ endsLine rhymeGroups p2)
    end.

(** ** The options of the page (src/app.js) *)

(** The [options] object [updateAnalysis] builds: end-rhyme detection is
    always on, the two other detections are the check boxes and the three
    tolerances the integers [parseInt] reads off the sliders. *)
Definition appOptions (detectInterLineRhyme detectInternalRhyme : bool)
    (interLineTolerance interLineLineDiffTolerance internalRhymeTolerance : Z)
  : Options.t :=
  {| Options.detectEndRhyme := Some true;
     Options.detectInterLineRhyme := Some detectInterLineRhyme;
     Options.detectInternalRhyme := Some detectInternalRhyme;
     Options.interLineTolerance := Some interLineTolerance;
     Options.interLineLineDiffTolerance := Some interLineLineDiffTolerance;
     Options.internalRhymeTolerance := Some internalRhymeTolerance |}.

(** Every character of the verse has the unknown or the empty group. *)
Definition allUnknown (rhymeGroups : Verse) : Prop :=
  ∀ group c, group ∈ rhymeGroups -> c ∈ Line.charInfos group ->
             isUnknownGroup (CharInfo.normalGroup c) = true.

(** The three detections are off. *)
Definition nothingDetected (cfg : Config.t) : Prop :=
  Config.detectEndRhyme cfg = false ∧ Config.detectInterLineRhyme cfg = false
  ∧ Config.detectInternalRhyme cfg = false.

(** A line of punctuation, whose characters have no rhyme group. *)
Definition punctuation : JsVal :=
  JArr [ jsLine "!?" [jc "!" "未知"; jc "?" "未知"] ].

Definition allOff : Options.t :=
  {| Options.detectEndRhyme := Some false;
     Options.detectInterLineRhyme := Some false;
     Options.detectInternalRhyme := Some false;
     Options.interLineTolerance := None;
     Options.interLineLineDiffTolerance := None;
     Options.internalRhymeTolerance := None |}.

(** ** The store of a call *)

(** The four components the selection loop works on. *)
Definition selectionOf (w : Working.t) : Selection.t :=
  {| Selection.markedPositions := Working.markedPositions w;
     Selection.analysisResults := Working.analysisResults w;
     Selection.endRhymeCount := Working.endRhymeCount w;
     Selection.internalRhymeCount := Working.internalRhymeCount w |}.

(** The store an analysis of [stanza] leaves behind. *)
Definition usedStore : Working.t :=
  snd (Stateful.analyzeRhymePatterns stanza Options.empty Working.blank).

(** * Properties *)

(** ** The stable sort *)

Section StableSortFacts.
Context {A : Type} (key : A -> Z).

Lemma insertDesc_perm (x : A) (l : list A) : insertDesc key x l ≡ₚ x :: l.
Proof.
  induction l as [|y l IH]; simpl; [done|].
  destruct (key x <? key y); [|done].
  rewrite IH. apply Permutation_swap.
Qed.

Lemma sortDesc_perm (l : list A) : sortDesc key l ≡ₚ l.
Proof.
  induction l as [|x l IH]; simpl; [done|].
  rewrite insertDesc_perm. by f_equiv.
Qed.

Lemma sortDesc_elem_of (x : A) (l : list A) : x ∈ sortDesc key l ↔ x ∈ l.
Proof. by rewrite sortDesc_perm. Qed.

Lemma insertDesc_sorted (x : A) (l : list A) :
  sortedDesc key l -> sortedDesc key (insertDesc key x l).
Proof.
  induction 1 as [|y l Hl IH Hy]; simpl.
  - repeat constructor.
  - destruct (Z.ltb_spec (key x) (key y)) as [Hlt|Hge].
    + constructor; [done|].
      rewrite insertDesc_perm. constructor; [lia|done].
    + constructor; [by constructor|].
      constructor; [done|].
      eapply Forall_impl; [exact Hy|]. simpl. intros; lia.
Qed.

Lemma sortDesc_sorted (l : list A) : sortedDesc key (sortDesc key l).
Proof.
  induction l as [|x l IH]; simpl; [constructor|].
  by apply insertDesc_sorted.
Qed.

End StableSortFacts.

(** ** Span extraction *)

Lemma isUnknownGroup_false (g : string) :
  isUnknownGroup g = false <-> g ≠ "未知" ∧ g ≠ "".
Proof.
  unfold isUnknownGroup. rewrite orb_false_iff, !String.eqb_neq. done.
Qed.

Lemma scanChars_Some (cs : list CharInfo.t) (rs ch ps : list string) :
  scanChars cs = Some (rs, ch, ps) ->
  rs = map CharInfo.normalGroup cs ∧ ch = map CharInfo.char cs
  ∧ ps = map CharInfo.pinyin cs
  ∧ Forall (fun c => isUnknownGroup (CharInfo.normalGroup c) = false) cs.
Proof.
  revert rs ch ps. induction cs as [|c cs IH]; intros rs ch ps; simpl.
  - intros [= <- <- <-]. by repeat split.
  - destruct (isUnknownGroup (CharInfo.normalGroup c)) eqn:Hc; [done|].
    destruct (scanChars cs) as [[[rs' ch'] ps']|]; [|done].
    intros [= <- <- <-].
    destruct (IH _ _ _ eq_refl) as (-> & -> & -> & Hall).
    repeat split. by constructor.
Qed.

Lemma scanChars_None (cs : list CharInfo.t) :
  scanChars cs = None <->
  Exists (fun c => isUnknownGroup (CharInfo.normalGroup c) = true) cs.
Proof.
  induction cs as [|c cs IH]; simpl.
  - split; [done|]. by intros ?%Exists_nil.
  - rewrite Exists_cons.
    destruct (isUnknownGroup (CharInfo.normalGroup c)) eqn:Hc; [by split; auto|].
    destruct (scanChars cs) as [[[rs' ch'] ps']|].
    + split; [done|]. intros [?|H]; [done|]. by apply IH in H.
    + split; [|done]. intros _. right. by apply IH.
Qed.

Lemma extractSpan_fields (lineIndex : nat) (cis : list CharInfo.t) (a b : nat) (s : Seq.t) :
  extractSpan lineIndex cis a b = Some s ->
  Seq.lineIndex s = lineIndex ∧ Seq.startIndex s = a ∧ Seq.endIndex s = b
  ∧ Seq.length s = (b - a + 1)%nat
  ∧ Seq.isEndOfLine s = Nat.eqb b (List.length cis - 1)
  ∧ Seq.sequenceKey s = getSequenceKey (Seq.sequence s)
  ∧ scanChars (charRange cis a b) = Some (Seq.sequence s, Seq.chars s, Seq.pinyins s).
Proof.
  unfold extractSpan.
  destruct (scanChars (charRange cis a b)) as [[[rs ch] ps]|]; [|done].
  intros [= <-]. simpl. by repeat split.
Qed.

Lemma extractLine_spec (lineIndex : nat) (group : Line.t) (s : Seq.t) :
  s ∈ extractLine lineIndex group <->
  ∃ a b, (a <= b < List.length (Line.charInfos group))%nat
         ∧ extractSpan lineIndex (Line.charInfos group) a b = Some s.
Proof.
  unfold extractLine. rewrite list_elem_of_In, in_flat_map. split.
  - intros (a & Ha & Hs). apply list_elem_of_In in Hs.
    apply list_elem_of_omap in Hs as (b & Hb & Hs).
    apply in_seq in Ha. apply list_elem_of_In, in_seq in Hb.
    exists a, b. split; [lia|done].
  - intros (a & b & Hab & Hs). exists a. split; [apply in_seq; lia|].
    apply list_elem_of_In, list_elem_of_omap. exists b. split; [|done].
    apply list_elem_of_In, in_seq. lia.
Qed.

Lemma extractFrom_spec (k : nat) (rhymeGroups : Verse) (s : Seq.t) :
  s ∈ extractFrom k rhymeGroups <->
  ∃ i group a b,
    rhymeGroups !! i = Some group
    ∧ (a <= b < List.length (Line.charInfos group))%nat
    ∧ extractSpan (k + i) (Line.charInfos group) a b = Some s.
Proof.
  revert k. induction rhymeGroups as [|g rest IH]; intros k; simpl.
  - split; [by intros ?%elem_of_nil|]. by intros (i & group & a & b & ? & _).
  - rewrite elem_of_app, extractLine_spec, IH. split.
    + intros [(a & b & Hab & Hs)|(i & group & a & b & Hi & Hab & Hs)].
      * exists 0%nat, g, a, b. by rewrite Nat.add_0_r.
      * exists (S i), group, a, b. by rewrite Nat.add_succ_r.
    + intros ([|i] & group & a & b & Hi & Hab & Hs); simpl in Hi.
      * injection Hi as ->. left. exists a, b. by rewrite Nat.add_0_r in Hs.
      * right. exists i, group, a, b. by rewrite Nat.add_succ_r in Hs.
Qed.

Lemma extractAll_spec (rhymeGroups : Verse) (s : Seq.t) :
  s ∈ extractAllRhymeSequences rhymeGroups <-> spanOf rhymeGroups s.
Proof.
  unfold extractAllRhymeSequences, spanOf.
  rewrite sortDesc_elem_of, extractFrom_spec. simpl. split.
  - intros (i & group & a & b & Hi & Hab & Hs).
    destruct (extractSpan_fields _ _ _ _ _ Hs) as (-> & -> & -> & _).
    by exists group.
  - intros (group & Hi & Hab & Hs). by exists (Seq.lineIndex s), group, (Seq.startIndex s), (Seq.endIndex s).
Qed.

(** ** Candidate generation *)

Lemma pairMatch_Some (cfg : Config.t) (rhymeGroups : Verse) (s1 s2 : Seq.t) (m : Match.t) :
  pairMatch cfg rhymeGroups s1 s2 = Some m ->
  Match.seq1 m = s1 ∧ Match.seq2 m = s2
  ∧ isWithinFourLines s1 s2 (Config.interLineLineDiffTolerance cfg) = true
  ∧ Seq.sequenceKey s1 = Seq.sequenceKey s2
  ∧ Match.sequence m = Seq.sequence s1
  ∧ ∃ p, classify cfg rhymeGroups s1 s2 = Some (Match.rhymeType m, Match.interval m, p)
         ∧ Match.priority m = p + Z.of_nat (Seq.length s1) * 10.
Proof.
  unfold pairMatch.
  destruct (isWithinFourLines _ _ _); simpl; [|done].
  destruct (String.eqb_spec (Seq.sequenceKey s1) (Seq.sequenceKey s2)); simpl; [|done].
  destruct (classify cfg rhymeGroups s1 s2) as [[[rt i] p]|]; [|done].
  intros [= <-]. simpl. repeat split; try done. by exists p.
Qed.

Lemma collectMatches_elem_of (cfg : Config.t) (rhymeGroups : Verse)
    (l : list Seq.t) (m : Match.t) :
  m ∈ collectMatches cfg rhymeGroups l ->
  ∃ s1 s2, s1 ∈ l ∧ s2 ∈ l ∧ pairMatch cfg rhymeGroups s1 s2 = Some m.
Proof.
  induction l as [|s l IH]; simpl; [by intros ?%elem_of_nil|].
  rewrite elem_of_app, list_elem_of_omap.
  intros [(s2 & Hs2 & Hm)|Hm].
  - exists s, s2. repeat split; [left|by right|done].
  - destruct (IH Hm) as (s1 & s2 & H1 & H2 & Hp).
    exists s1, s2. repeat split; [by right|by right|done].
Qed.

(** Every candidate is the match of two spans of the verse. *)
Lemma allPossibleMatches_elem_of (cfg : Config.t) (rhymeGroups : Verse) (m : Match.t) :
  m ∈ allPossibleMatches cfg rhymeGroups ->
  spanOf rhymeGroups (Match.seq1 m) ∧ spanOf rhymeGroups (Match.seq2 m)
  ∧ pairMatch cfg rhymeGroups (Match.seq1 m) (Match.seq2 m) = Some m.
Proof.
  unfold allPossibleMatches. rewrite sortDesc_elem_of.
  intros (s1 & s2 & H1 & H2 & Hp)%collectMatches_elem_of.
  destruct (pairMatch_Some _ _ _ _ _ Hp) as (-> & -> & _).
  by rewrite <- !extractAll_spec.
Qed.

(** The rule a label comes from. *)
Lemma classify_EndRhyme (cfg : Config.t) (rhymeGroups : Verse) (s1 s2 : Seq.t)
    (rt : RhymeType) (i p : Z) :
  classify cfg rhymeGroups s1 s2 = Some (rt, i, p) -> isEndRhyme rt = true ->
  Config.detectEndRhyme cfg = true
  ∧ (Seq.isEndOfLine s1 || Seq.isEndOfLine s2) = true
  ∧ rt = EndRhyme (Seq.length s1)
  ∧ i = Z.abs (Z.of_nat (Seq.lineIndex s1) - Z.of_nat (Seq.lineIndex s2))
  ∧ p = 1000 - i.
Proof.
  unfold classify.
  destruct (Config.detectEndRhyme cfg && (Seq.isEndOfLine s1 || Seq.isEndOfLine s2)) eqn:He.
  - apply andb_true_iff in He as [-> ->]. by intros [= <- <- <-].
  - repeat case_match; try done; by intros [= <- <- <-].
Qed.

Lemma classify_InterLineRhyme (cfg : Config.t) (rhymeGroups : Verse) (s1 s2 : Seq.t)
    (rt : RhymeType) (i p : Z) :
  classify cfg rhymeGroups s1 s2 = Some (rt, i, p) -> isInterLineRhyme rt = true ->
  (Config.detectEndRhyme cfg && (Seq.isEndOfLine s1 || Seq.isEndOfLine s2)) = false
  ∧ Config.detectInterLineRhyme cfg = true
  ∧ Seq.lineIndex s1 ≠ Seq.lineIndex s2
  ∧ String.concat "" (Seq.chars s1) ≠ String.concat "" (Seq.chars s2)
  ∧ i = interLineInterval rhymeGroups s1 s2
  ∧ i <= Config.interLineTolerance cfg.
Proof.
  unfold classify.
  destruct (Config.detectEndRhyme cfg && (Seq.isEndOfLine s1 || Seq.isEndOfLine s2));
    [by intros [= <- <- <-]|].
  destruct (Config.detectInterLineRhyme cfg); simpl.
  - destruct (Nat.eqb_spec (Seq.lineIndex s1) (Seq.lineIndex s2)); simpl.
    + repeat case_match; try done; by intros [= <- <- <-].
    + destruct (String.eqb_spec (String.concat "" (Seq.chars s1))
                                (String.concat "" (Seq.chars s2))); [done|].
      destruct (Z.leb_spec (interLineInterval rhymeGroups s1 s2)
                           (Config.interLineTolerance cfg)); [|done].
      by intros [= <- <- <-].
  - repeat case_match; try done; by intros [= <- <- <-].
Qed.

Lemma classify_InternalRhyme (cfg : Config.t) (rhymeGroups : Verse) (s1 s2 : Seq.t)
    (rt : RhymeType) (i p : Z) :
  classify cfg rhymeGroups s1 s2 = Some (rt, i, p) -> isInternalRhyme rt = true ->
  (Config.detectEndRhyme cfg && (Seq.isEndOfLine s1 || Seq.isEndOfLine s2)) = false
  ∧ Seq.lineIndex s1 = Seq.lineIndex s2
  ∧ rt = InternalRhyme (Seq.length s1)
  ∧ i = charGap s1 s2
  ∧ p = 100 - i.
Proof.
  unfold classify.
  destruct (Config.detectEndRhyme cfg && (Seq.isEndOfLine s1 || Seq.isEndOfLine s2));
    [by intros [= <- <- <-]|].
  destruct (Nat.eqb_spec (Seq.lineIndex s1) (Seq.lineIndex s2)) as [Heq|Hne].
  - rewrite andb_false_r, andb_true_r.
    destruct (Config.detectInternalRhyme cfg); [|done].
    destruct (isInternalRhymeValid _ _ _); [|done].
    by intros [= <- <- <-].
  - rewrite andb_true_r, andb_false_r.
    destruct (Config.detectInterLineRhyme cfg); [|done].
    repeat case_match; try done. by intros [= <- <- <-].
Qed.

(** ** Cells *)

Lemma spanOf_wfSeq (rhymeGroups : Verse) (s : Seq.t) : spanOf rhymeGroups s -> wfSeq s.
Proof.
  intros (group & _ & Hab & Hs).
  destruct (extractSpan_fields _ _ _ _ _ Hs) as (_ & _ & _ & Hlen & _).
  split; [lia|done].
Qed.

Lemma allPossibleMatches_wf (cfg : Config.t) (rhymeGroups : Verse) :
  Forall wfMatch (allPossibleMatches cfg rhymeGroups).
Proof.
  apply Forall_forall. intros m (H1 & H2 & _)%allPossibleMatches_elem_of.
  split; by eapply spanOf_wfSeq.
Qed.

Lemma elem_of_seqCells (s : Seq.t) (c : Cell) :
  c ∈ seqCells s <->
  c.1 = Seq.lineIndex s ∧ (Seq.startIndex s <= c.2 < Seq.endIndex s + 1)%nat.
Proof.
  unfold seqCells. rewrite list_elem_of_fmap. split.
  - intros (i & -> & Hi). apply list_elem_of_In, in_seq in Hi. simpl. lia.
  - intros [Hl Hi]. exists c.2. split; [by destruct c; simpl in *; subst|].
    apply list_elem_of_In, in_seq. lia.
Qed.

Lemma elem_of_positionCells (pos : Position.t) (c : Cell) :
  (0 < Position.length pos)%nat ->
  c ∈ positionCells pos <->
  c.1 = Position.line pos
  ∧ (Position.char pos <= c.2 < Position.char pos + Position.length pos)%nat.
Proof.
  intros Hpos. unfold positionCells.
  destruct (Nat.eqb_spec (Position.length pos) 0) as [|_]; [lia|].
  rewrite list_elem_of_fmap. split.
  - intros (i & -> & Hi). apply list_elem_of_In, in_seq in Hi. simpl. lia.
  - intros [Hl Hi]. exists (c.2 - Position.char pos)%nat. split.
    + destruct c as [l i]; simpl in *; subst. f_equal. lia.
    + apply list_elem_of_In, in_seq. lia.
Qed.

(** The positions of a committed candidate cover the cells of its spans. *)
Lemma resultCells_mkRhymeResult (m : Match.t) (c : Cell) :
  wfMatch m -> c ∈ resultCells (mkRhymeResult m) <-> c ∈ matchCells m.
Proof.
  intros [[H1 L1] [H2 L2]]. unfold resultCells, matchCells. simpl.
  rewrite !elem_of_app, !elem_of_positionCells, !elem_of_seqCells by (simpl; lia).
  simpl. rewrite L1, L2. split; (intros [[? ?]|[? ?]]; [left|right]; (split; [done|lia])).
Qed.

(** ** The marked set *)

Lemma elem_of_markSequencePositions (s : Seq.t) (marked : gset Cell) (c : Cell) :
  c ∈ markSequencePositions s marked <-> c ∈ marked ∨ c ∈ seqCells s.
Proof.
  unfold markSequencePositions. generalize (seqCells s) as cells.
  intros cells. revert marked. induction cells as [|x cells IH]; intros marked; simpl.
  - rewrite elem_of_nil. tauto.
  - rewrite IH, elem_of_union, elem_of_singleton, elem_of_cons. tauto.
Qed.

Lemma isSequenceMarked_false (s : Seq.t) (marked : gset Cell) :
  isSequenceMarked s marked = false <-> ∀ c, c ∈ seqCells s -> c ∉ marked.
Proof.
  unfold isSequenceMarked. generalize (seqCells s) as cells.
  induction cells as [|x cells IH]; simpl.
  - split; [|done]. by intros _ c ?%elem_of_nil.
  - rewrite orb_false_iff, IH, bool_decide_eq_false. split.
    + intros [Hx Hall] c [->|Hc]%elem_of_cons; auto.
    + intros Hall. split; [apply Hall; left|]. intros c Hc. apply Hall. by right.
Qed.

Lemma isFree_true (m : Match.t) (marked : gset Cell) :
  isFree m marked = true <-> ∀ c, c ∈ matchCells m -> c ∉ marked.
Proof.
  unfold isFree, matchCells.
  rewrite andb_true_iff, !negb_true_iff, !isSequenceMarked_false.
  split.
  - intros [H1 H2] c [Hc|Hc]%elem_of_app; auto.
  - intros Hall. split; intros c Hc; apply Hall, elem_of_app; auto.
Qed.

Lemma selectStep_free (st : Selection.t) (m : Match.t) :
  isFree m (Selection.markedPositions st) = true ->
  Selection.analysisResults (selectStep st m)
  = Selection.analysisResults st ++ [mkRhymeResult m]
  ∧ ∀ c, c ∈ Selection.markedPositions (selectStep st m)
         <-> c ∈ Selection.markedPositions st ∨ c ∈ matchCells m.
Proof.
  intros Hfree. unfold selectStep. rewrite Hfree. simpl. split; [done|].
  intros c. unfold matchCells.
  rewrite !elem_of_markSequencePositions, elem_of_app. tauto.
Qed.

Lemma selectStep_blocked (st : Selection.t) (m : Match.t) :
  isFree m (Selection.markedPositions st) = false -> selectStep st m = st.
Proof. intros Hb. unfold selectStep. by rewrite Hb. Qed.

(** ** No overlap between committed results *)

Lemma pairwiseDisjoint_snoc (rs : list RhymeResult.t) (r : RhymeResult.t) :
  pairwiseDisjoint rs ->
  (∀ r' c, r' ∈ rs -> c ∈ resultCells r' -> c ∈ resultCells r -> False) ->
  pairwiseDisjoint (rs ++ [r]).
Proof.
  intros Hrs Hnew i j ri rj c Hij Hi Hj Hci Hcj.
  apply lookup_snoc_Some in Hi as [[Hi1 Hi2]|[-> <-]];
    apply lookup_snoc_Some in Hj as [[Hj1 Hj2]|[-> <-]].
  - by eapply (Hrs i j).
  - eapply (Hnew ri c); [by eapply list_elem_of_lookup_2|done..].
  - eapply (Hnew rj c); [by eapply list_elem_of_lookup_2|done..].
  - done.
Qed.

Lemma selectStep_inv (st : Selection.t) (m : Match.t) :
  wfMatch m -> selectionInv st -> selectionInv (selectStep st m).
Proof.
  intros Hwf [Hcov Hdis].
  destruct (isFree m (Selection.markedPositions st)) eqn:Hfree;
    [|by rewrite selectStep_blocked].
  destruct (selectStep_free _ _ Hfree) as [Hres Hmarked].
  unfold selectionInv. rewrite Hres.
  split.
  - intros r c [Hr|Hr]%elem_of_app Hc; apply Hmarked.
    + left. by eapply Hcov.
    + apply list_elem_of_singleton in Hr as ->.
      right. by apply resultCells_mkRhymeResult.
  - apply pairwiseDisjoint_snoc; [done|].
    intros r' c Hr' Hc' Hc.
    apply resultCells_mkRhymeResult in Hc; [|done].
    rewrite isFree_true in Hfree. eapply Hfree; [done|]. by eapply Hcov.
Qed.

Lemma foldl_selectStep_inv (l : list Match.t) (st : Selection.t) :
  Forall wfMatch l -> selectionInv st -> selectionInv (foldl selectStep st l).
Proof.
  revert st. induction l as [|m l IH]; intros st Hwf Hinv; simpl; [done|].
  apply Forall_cons in Hwf as [Hm Hl].
  apply IH; [done|]. by apply selectStep_inv.
Qed.

Lemma selectMatches_inv (l : list Match.t) :
  Forall wfMatch l -> selectionInv (selectMatches l).
Proof.
  intros Hwf. apply foldl_selectStep_inv; [done|].
  split; [by intros r c ?%elem_of_nil|]. by intros i j ri rj c _ ?.
Qed.

(** ** Result assembly *)

Lemma assignColors_results (index : nat) (colors : gmap string string)
    (colorIndex : nat) (rs : list RhymeResult.t) :
  map FinalResult.result (assignColors index colors colorIndex rs) = rs.
Proof.
  revert index colors colorIndex.
  induction rs as [|r rs IH]; intros index colors colorIndex; simpl; [done|].
  destruct (colors !! getSequenceKey (RhymeResult.sequence r)); simpl; by rewrite IH.
Qed.

(** What a successful call returns. *)
Lemma analyzeRhymePatterns_inr (v : JsVal) (options : Options.t) (res : Analysis.t) :
  analyzeRhymePatterns v options = inr res ->
  ∃ groups verse,
    v = JArr groups ∧ checkGroups groups = inr verse
    ∧ map FinalResult.result (Analysis.analysisResults res)
      = Selection.analysisResults
          (selectMatches (allPossibleMatches (resolveOptions options) verse)).
Proof.
  destruct v as [| | | | |groups|]; try done. simpl.
  destruct groups as [|g groups]; simpl.
  - intros [= <-]. by exists [], [].
  - destruct (checkGroup g) as [e|l] eqn:Hg; [done|].
    destruct (checkGroups groups) as [e|ls] eqn:Hgs; [done|].
    intros [= <-]. exists (g :: groups), (l :: ls). simpl.
    rewrite Hg, Hgs. split; [done|]. split; [done|].
    apply assignColors_results.
Qed.

(** ** Input validation *)

Lemma checkCharInfo_Some (c : JsVal) : is_Some (checkCharInfo c) <-> charInfoShaped c.
Proof.
  unfold checkCharInfo, charInfoShaped.
  destruct (notAnObject c); [split; [by intros []|by intros []]|].
  destruct (asString (getProp c "char")), (asString (getProp c "pinyin")),
    (asString (getProp c "normalGroup")), (asString (getProp c "strictGroup"));
    (split; [intros [? ?]|intros (_ & [? ?] & [? ?] & [? ?] & [? ?])]);
    try discriminate; repeat split; eauto.
Qed.

Lemma checkCharInfos_Some (items : list JsVal) :
  is_Some (checkCharInfos items) <-> Forall charInfoShaped items.
Proof.
  induction items as [|c items IH]; simpl.
  - split; [constructor|eauto].
  - rewrite Forall_cons, <- IH, <- checkCharInfo_Some.
    destruct (checkCharInfo c); [|split; [by intros []|by intros [[] _]]].
    destruct (checkCharInfos items).
    + split; [intros _; split; eauto|eauto].
    + split; [by intros []|by intros [_ []]].
Qed.

Lemma checkGroup_line_error (g : JsVal) :
  ¬ lineShaped g -> checkGroup g = inl LineShapeError.
Proof.
  unfold checkGroup, lineShaped. intros Hn.
  destruct (notAnObject g); [done|].
  destruct (asString (getProp g "line")); [|done].
  destruct (getProp g "charInfos"); try done.
  exfalso. apply Hn. eauto.
Qed.

Lemma checkGroup_charInfo_error (g : JsVal) :
  lineShaped g -> ¬ Forall charInfoShaped (charInfosOf g) ->
  checkGroup g = inl CharInfoShapeError.
Proof.
  unfold checkGroup, lineShaped, charInfosOf. intros (-> & [line ->] & Harr) Hn.
  destruct (getProp g "charInfos"); try done.
  destruct (checkCharInfos items) eqn:Hc; [|done].
  exfalso. apply Hn, checkCharInfos_Some. by rewrite Hc.
Qed.

Lemma checkGroup_inr (g : JsVal) :
  (∃ l, checkGroup g = inr l) <-> groupShaped g.
Proof.
  unfold checkGroup, groupShaped, lineShaped, charInfosOf.
  destruct (notAnObject g); [split; [by intros []|by intros [[] _]]|].
  destruct (asString (getProp g "line")) as [line|];
    [|split; [by intros []|by intros [(_ & [] & _) _]]].
  destruct (getProp g "charInfos") as [| | | | |items|];
    try (split; [by intros []|by intros [(_ & _ & ?) _]]).
  rewrite <- checkCharInfos_Some.
  destruct (checkCharInfos items).
  - split; [intros _; repeat split; eauto|eauto].
  - split; [by intros []|by intros [_ []]].
Qed.

Lemma checkGroups_inr (groups : list JsVal) :
  (∃ verse, checkGroups groups = inr verse) <-> Forall groupShaped groups.
Proof.
  induction groups as [|g groups IH]; simpl.
  - split; [constructor|eauto].
  - rewrite Forall_cons, <- IH, <- checkGroup_inr.
    destruct (checkGroup g); [split; [by intros []|by intros [[] _]]|].
    destruct (checkGroups groups).
    + split; [by intros []|by intros [_ []]].
    + split; [intros _; split; eauto|eauto].
Qed.

(** The error of the first entry that fails is the one thrown. *)
Lemma checkGroups_first_error (pre post : list JsVal) (g : JsVal) (e : string) :
  Forall groupShaped pre -> checkGroup g = inl e ->
  checkGroups (pre ++ g :: post) = inl e.
Proof.
  intros Hpre Hg. induction Hpre as [|p pre Hp _ IH]; simpl.
  - by rewrite Hg.
  - apply checkGroup_inr in Hp as [l ->]. by rewrite IH.
Qed.

(** C9: on an empty verse the analysis raises nothing and returns no result
    and a summary whose four counts are zero. *)
Theorem empty_verse_is_not_an_error (options : Options.t) :
  analyzeRhymePatterns (JArr []) options
  = inr {| Analysis.rhymeGroups := JArr [];
           Analysis.analysisResults := [];
           Analysis.summary :=
             {| Summary.totalLines := 0; Summary.totalRhymeCount := 0;
                Summary.endRhyme := 0; Summary.internalRhyme := 0 |} |}.
Proof. reflexivity. Qed.

(** C8: the input shape is validated before anything else.  A value that is
    not an array, a first offending line entry without a string [line] or an
    array [charInfos], and a first offending line entry with a character
    entry lacking one of the four string fields, raise three different
    errors; the error does not depend on the options; and a result is
    returned exactly for a well-shaped verse. *)
Theorem validation_fails_fast (v : JsVal) (options : Options.t) :
  (isArray v = false -> analyzeRhymePatterns v options = inl InputShapeError)
  ∧ (∀ pre g post,
       v = JArr (pre ++ g :: post) -> Forall groupShaped pre -> ¬ lineShaped g ->
       analyzeRhymePatterns v options = inl LineShapeError)
  ∧ (∀ pre g post,
       v = JArr (pre ++ g :: post) -> Forall groupShaped pre -> lineShaped g ->
       ¬ Forall charInfoShaped (charInfosOf g) ->
       analyzeRhymePatterns v options = inl CharInfoShapeError)
  ∧ ((∃ res, analyzeRhymePatterns v options = inr res) <-> verseShaped v)
  ∧ (∀ e options', analyzeRhymePatterns v options = inl e ->
                   analyzeRhymePatterns v options' = inl e)
  ∧ InputShapeError ≠ LineShapeError ∧ InputShapeError ≠ CharInfoShapeError
  ∧ LineShapeError ≠ CharInfoShapeError.
Proof.
  assert (Hfirst : ∀ pre g post e,
            Forall groupShaped pre -> checkGroup g = inl e ->
            analyzeRhymePatterns (JArr (pre ++ g :: post)) options = inl e).
  { intros pre g post e Hpre Hg. simpl.
    rewrite (checkGroups_first_error _ _ _ _ Hpre Hg).
    by destruct pre. }
  split; [by destruct v|].
  split; [intros pre g post -> Hpre Hg; by apply Hfirst, checkGroup_line_error|].
  split; [intros pre g post -> Hpre Hg Hc; by apply Hfirst, checkGroup_charInfo_error|].
  split; [|split; [|done]].
  - unfold verseShaped. split.
    + intros [res (groups & verse & -> & Hc & _)%analyzeRhymePatterns_inr].
      exists groups. split; [done|]. apply checkGroups_inr. eauto.
    + intros (groups & -> & [verse Hc]%checkGroups_inr). simpl.
      rewrite Hc. destruct (Nat.eqb _ _); eauto.
  - intros e options'. destruct v as [| | | | |groups|]; try done. simpl.
    destruct (Nat.eqb _ _); [done|]. by destruct (checkGroups groups).
Qed.

(** ** Committed results come from candidates *)

Lemma foldl_selectStep_results (l : list Match.t) (st : Selection.t) (r : RhymeResult.t) :
  r ∈ Selection.analysisResults (foldl selectStep st l) ->
  r ∈ Selection.analysisResults st ∨ ∃ m, m ∈ l ∧ r = mkRhymeResult m.
Proof.
  revert st. induction l as [|m l IH]; intros st; simpl; [by left|].
  intros [Hr|(m' & Hm' & ->)]%IH.
  - destruct (isFree m (Selection.markedPositions st)) eqn:Hfree.
    + destruct (selectStep_free _ _ Hfree) as [Hres _]. rewrite Hres in Hr.
      apply elem_of_app in Hr as [Hr|Hr]; [by left|].
      apply list_elem_of_singleton in Hr as ->. right. exists m. split; [left|done].
    + rewrite selectStep_blocked in Hr by done. by left.
  - right. exists m'. split; [by right|done].
Qed.

Lemma selectMatches_results (l : list Match.t) (r : RhymeResult.t) :
  r ∈ Selection.analysisResults (selectMatches l) -> ∃ m, m ∈ l ∧ r = mkRhymeResult m.
Proof.
  intros [Hr|Hr]%foldl_selectStep_results; [|done]. by apply elem_of_nil in Hr.
Qed.

(** Every returned result is the committed form of a candidate of the
    validated verse. *)
Lemma analyzeRhymePatterns_results (v : JsVal) (options : Options.t) (res : Analysis.t) :
  analyzeRhymePatterns v options = inr res ->
  ∃ groups verse,
    v = JArr groups ∧ checkGroups groups = inr verse
    ∧ ∀ fr, fr ∈ Analysis.analysisResults res ->
        ∃ m, m ∈ allPossibleMatches (resolveOptions options) verse
             ∧ FinalResult.result fr = mkRhymeResult m.
Proof.
  intros (groups & verse & -> & Hc & Hres)%analyzeRhymePatterns_inr.
  exists groups, verse. split; [done|]. split; [done|].
  intros fr Hfr. apply selectMatches_results. rewrite <- Hres.
  apply list_elem_of_fmap. eauto.
Qed.

(** ** No unknown label in a span *)

Lemma charRange_length (cis : list CharInfo.t) (a b : nat) :
  (a <= b < List.length cis)%nat -> List.length (charRange cis a b) = (b - a + 1)%nat.
Proof. intros Hab. unfold charRange. rewrite length_take, length_drop. lia. Qed.

Lemma charRange_lookup (cis : list CharInfo.t) (a b k : nat) (c : CharInfo.t) :
  (a <= k <= b)%nat -> cis !! k = Some c -> c ∈ charRange cis a b.
Proof.
  intros Hk Hc. unfold charRange. apply list_elem_of_lookup. exists (k - a)%nat.
  rewrite lookup_take_lt by lia. rewrite lookup_drop.
  by replace (a + (k - a))%nat with k by lia.
Qed.

Lemma spanOf_known (rhymeGroups : Verse) (s : Seq.t) :
  spanOf rhymeGroups s ->
  ∃ group,
    rhymeGroups !! Seq.lineIndex s = Some group
    ∧ (Seq.startIndex s <= Seq.endIndex s < List.length (Line.charInfos group))%nat
    ∧ Seq.sequence s
      = map CharInfo.normalGroup
          (charRange (Line.charInfos group) (Seq.startIndex s) (Seq.endIndex s))
    ∧ List.length (Seq.sequence s) = (Seq.endIndex s - Seq.startIndex s + 1)%nat
    ∧ Forall knownGroup (Seq.sequence s).
Proof.
  intros (group & Hg & Hab & Hs). exists group.
  destruct (extractSpan_fields _ _ _ _ _ Hs) as (_ & _ & _ & _ & _ & _ & Hscan).
  destruct (scanChars_Some _ _ _ _ Hscan) as (Hseq & _ & _ & Hall).
  repeat split; try done; try lia.
  - rewrite Hseq, length_map. by apply charRange_length.
  - rewrite Hseq. apply Forall_fmap. eapply Forall_impl; [exact Hall|].
    intros c Hc. by apply isUnknownGroup_false.
Qed.

(** C7: no extracted span and no returned result has the unknown or the
    empty label in its sequence; the sequence of a span is that of the whole
    range [startIndex..endIndex] of its line, so that a range holding such a
    character yields no span at all. *)
Theorem no_unknown_label (v : JsVal) (options : Options.t) (res : Analysis.t) :
  analyzeRhymePatterns v options = inr res ->
  ∃ groups verse,
    v = JArr groups ∧ checkGroups groups = inr verse
    ∧ (∀ s, s ∈ extractAllRhymeSequences verse ->
         Forall knownGroup (Seq.sequence s)
         ∧ ∃ group,
             verse !! Seq.lineIndex s = Some group
             ∧ Seq.sequence s
               = map CharInfo.normalGroup
                   (charRange (Line.charInfos group) (Seq.startIndex s) (Seq.endIndex s))
             ∧ List.length (Seq.sequence s)
               = (Seq.endIndex s - Seq.startIndex s + 1)%nat)
    ∧ (∀ i group a b k c,
         verse !! i = Some group -> (a <= k <= b)%nat ->
         Line.charInfos group !! k = Some c ->
         isUnknownGroup (CharInfo.normalGroup c) = true ->
         ∀ s, s ∈ extractAllRhymeSequences verse ->
              ¬ (Seq.lineIndex s = i ∧ Seq.startIndex s = a ∧ Seq.endIndex s = b))
    ∧ (∀ fr, fr ∈ Analysis.analysisResults res ->
         Forall knownGroup (RhymeResult.sequence (FinalResult.result fr))).
Proof.
  intros (groups & verse & -> & Hc & Hres)%analyzeRhymePatterns_results.
  exists groups, verse. split; [done|]. split; [done|].
  split; [|split].
  - intros s Hs.
    apply extractAll_spec, spanOf_known in Hs as (group & Hg & _ & Hseq & Hl & Hk).
    split; [done|]. by exists group.
  - intros i group a b k c Hg Hk Hck Hunk s Hs (<- & <- & <-).
    apply extractAll_spec in Hs as (group' & Hg' & Hab & Hspan).
    rewrite Hg in Hg'. injection Hg' as <-.
    destruct (extractSpan_fields _ _ _ _ _ Hspan) as (_ & _ & _ & _ & _ & _ & Hscan).
    destruct (scanChars_Some _ _ _ _ Hscan) as (_ & _ & _ & Hall).
    rewrite Forall_forall in Hall.
    specialize (Hall c (charRange_lookup _ _ _ _ _ Hk Hck)). congruence.
  - intros fr (m & Hm & ->)%Hres. simpl.
    destruct (allPossibleMatches_elem_of _ _ _ Hm) as (H1 & _ & Hp).
    destruct (pairMatch_Some _ _ _ _ _ Hp) as (_ & _ & _ & _ & -> & _).
    apply spanOf_known in H1 as (group & _ & _ & _ & _ & Hk). done.
Qed.

(** ** The inter-line and internal rules *)

(** C5: an inter-line candidate, and an inter-line result, never pairs two
    spans with the same characters; a pair of spans of different lines with
    the same characters that the end-rhyme rule does not take yields no
    candidate at all. *)
Theorem self_repeat_exclusion (v : JsVal) (options : Options.t) (res : Analysis.t) :
  analyzeRhymePatterns v options = inr res ->
  ∃ groups verse,
    v = JArr groups ∧ checkGroups groups = inr verse
    ∧ (∀ m, m ∈ allPossibleMatches (resolveOptions options) verse ->
            isInterLineRhyme (Match.rhymeType m) = true ->
            Seq.chars (Match.seq1 m) ≠ Seq.chars (Match.seq2 m))
    ∧ (∀ fr, fr ∈ Analysis.analysisResults res ->
             isInterLineRhyme (RhymeResult.rhymeType (FinalResult.result fr)) = true ->
             fst (RhymeResult.chars (FinalResult.result fr))
             ≠ snd (RhymeResult.chars (FinalResult.result fr)))
    ∧ (∀ s1 s2,
         Seq.lineIndex s1 ≠ Seq.lineIndex s2 -> Seq.chars s1 = Seq.chars s2 ->
         (Config.detectEndRhyme (resolveOptions options)
          && (Seq.isEndOfLine s1 || Seq.isEndOfLine s2)) = false ->
         pairMatch (resolveOptions options) verse s1 s2 = None).
Proof.
  intros (groups & verse & -> & Hc & Hres)%analyzeRhymePatterns_results.
  exists groups, verse. split; [done|]. split; [done|].
  assert (Hcand : ∀ m, m ∈ allPossibleMatches (resolveOptions options) verse ->
            isInterLineRhyme (Match.rhymeType m) = true ->
            Seq.chars (Match.seq1 m) ≠ Seq.chars (Match.seq2 m)).
  { intros m (_ & _ & Hp)%allPossibleMatches_elem_of Hil Heq.
    destruct (pairMatch_Some _ _ _ _ _ Hp) as (_ & _ & _ & _ & _ & p & Hcl & _).
    destruct (classify_InterLineRhyme _ _ _ _ _ _ _ Hcl Hil) as (_ & _ & _ & Hne & _).
    by rewrite Heq in Hne. }
  split; [done|]. split.
  - intros fr (m & Hm & ->)%Hres. simpl. by apply Hcand.
  - intros s1 s2 Hline Hchars Hend. unfold pairMatch, classify.
    rewrite Hend, Hchars, String.eqb_refl.
    destruct (Nat.eqb_spec (Seq.lineIndex s1) (Seq.lineIndex s2)) as [|_]; [done|].
    rewrite !andb_false_r, !andb_true_r.
    by destruct (isWithinFourLines _ _ _), (String.eqb _ _),
      (Config.detectInterLineRhyme _).
Qed.

Lemma charGap_closed_form (a b : Seq.t) :
  (Seq.startIndex a <= Seq.endIndex a)%nat -> (Seq.startIndex b <= Seq.endIndex b)%nat ->
  charGap a b
  = Z.max 0 (Z.max (Z.of_nat (Seq.startIndex b) - Z.of_nat (Seq.endIndex a) - 1)
                   (Z.of_nat (Seq.startIndex a) - Z.of_nat (Seq.endIndex b) - 1)).
Proof. intros Ha Hb. unfold charGap. repeat case_match; lia. Qed.

(** C6: a pair of spans of one line with equal keys that reaches the
    internal-rhyme rule is accepted, as an InternalRhyme candidate whose
    interval is the gap, iff the gap is at most
    [min(a.length, b.length) + internalRhymeTolerance]; otherwise it yields
    no candidate.  The gap is the number of characters strictly between the
    spans, 0 when they overlap or touch. *)
Theorem internal_rhyme_boundary (cfg : Config.t) (rhymeGroups : Verse) (a b : Seq.t) :
  Seq.lineIndex a = Seq.lineIndex b ->
  Seq.sequenceKey a = Seq.sequenceKey b ->
  isWithinFourLines a b (Config.interLineLineDiffTolerance cfg) = true ->
  (Config.detectEndRhyme cfg && (Seq.isEndOfLine a || Seq.isEndOfLine b)) = false ->
  Config.detectInternalRhyme cfg = true ->
  let bound :=
    Z.min (Z.of_nat (Seq.length a)) (Z.of_nat (Seq.length b))
    + Config.internalRhymeTolerance cfg in
  ((∃ m, pairMatch cfg rhymeGroups a b = Some m
         ∧ Match.rhymeType m = InternalRhyme (Seq.length a)
         ∧ Match.interval m = charGap a b
         ∧ Match.priority m = 100 - charGap a b + Z.of_nat (Seq.length a) * 10)
   <-> charGap a b <= bound)
  ∧ (pairMatch cfg rhymeGroups a b = None <-> bound < charGap a b)
  ∧ (charGap a b = bound -> is_Some (pairMatch cfg rhymeGroups a b))
  ∧ (charGap a b = bound + 1 -> pairMatch cfg rhymeGroups a b = None)
  ∧ ((Seq.startIndex a <= Seq.endIndex a)%nat -> (Seq.startIndex b <= Seq.endIndex b)%nat ->
     charGap a b
     = Z.max 0 (Z.max (Z.of_nat (Seq.startIndex b) - Z.of_nat (Seq.endIndex a) - 1)
                      (Z.of_nat (Seq.startIndex a) - Z.of_nat (Seq.endIndex b) - 1))).
Proof.
  intros Hline Hkey Hgate Hend Hint bound.
  assert (Hpm : pairMatch cfg rhymeGroups a b
    = if charGap a b <=? bound then
        Some {| Match.seq1 := a; Match.seq2 := b;
                Match.rhymeType := InternalRhyme (Seq.length a);
                Match.interval := charGap a b;
                Match.priority := 100 - charGap a b + Z.of_nat (Seq.length a) * 10;
                Match.sequenceLength := Seq.length a;
                Match.sequence := Seq.sequence a;
                Match.sequenceKey := Seq.sequenceKey a |}
      else None).
  { unfold pairMatch, classify, isInternalRhymeValid.
    rewrite Hgate, Hkey, String.eqb_refl, Hend, Hint, Hline, Nat.eqb_refl.
    rewrite andb_false_r. simpl. fold bound.
    by destruct (charGap a b <=? bound). }
  rewrite Hpm.
  destruct (Z.leb_spec (charGap a b) bound) as [Hle|Hgt].
  - repeat split; try done; try lia; eauto.
    intros; by apply charGap_closed_form.
  - repeat split; try done; try lia.
    + by intros (m & ? & _).
    + by intros; apply charGap_closed_form.
Qed.

(** ** Properties of the selection *)

(** C2: in the returned results no cell is covered by the positions of two
    different results.  The selector commits a candidate exactly when none
    of the cells of its two spans is marked, then marks all of them, and
    otherwise leaves its state as it is. *)
Theorem no_overlap_between_results (v : JsVal) (options : Options.t) (res : Analysis.t) :
  analyzeRhymePatterns v options = inr res ->
  (∀ i j ri rj c,
     i ≠ j ->
     Analysis.analysisResults res !! i = Some ri ->
     Analysis.analysisResults res !! j = Some rj ->
     c ∈ resultCells (FinalResult.result ri) ->
     c ∉ resultCells (FinalResult.result rj))
  ∧ (∀ st m,
       (isFree m (Selection.markedPositions st) = true
        <-> ∀ c, c ∈ matchCells m -> c ∉ Selection.markedPositions st)
       ∧ (isFree m (Selection.markedPositions st) = true ->
          Selection.analysisResults (selectStep st m)
          = Selection.analysisResults st ++ [mkRhymeResult m]
          ∧ ∀ c, c ∈ Selection.markedPositions (selectStep st m)
                 <-> c ∈ Selection.markedPositions st ∨ c ∈ matchCells m)
       ∧ (isFree m (Selection.markedPositions st) = false -> selectStep st m = st)).
Proof.
  intros (groups & verse & -> & Hc & Hres)%analyzeRhymePatterns_inr.
  split.
  - intros i j ri rj c Hij Hi Hj Hci Hcj.
    destruct (selectMatches_inv _ (allPossibleMatches_wf (resolveOptions options) verse))
      as [_ Hdis].
    rewrite <- Hres in Hdis.
    eapply (Hdis i j (FinalResult.result ri) (FinalResult.result rj) c); try done.
    + by rewrite list_lookup_fmap, Hi.
    + by rewrite list_lookup_fmap, Hj.
  - intros st m. split; [apply isFree_true|].
    split; [apply selectStep_free|apply selectStep_blocked].
Qed.

Lemma foldl_selectStep_prefix (l : list Match.t) (st : Selection.t) :
  ∃ rs, Selection.analysisResults (foldl selectStep st l)
        = Selection.analysisResults st ++ rs.
Proof.
  revert st. induction l as [|m l IH]; intros st; simpl.
  - exists []. by rewrite app_nil_r.
  - destruct (IH (selectStep st m)) as [rs ->].
    destruct (isFree m (Selection.markedPositions st)) eqn:Hfree.
    + destruct (selectStep_free _ _ Hfree) as [-> _].
      exists (mkRhymeResult m :: rs). by rewrite <- app_assoc.
    + rewrite selectStep_blocked by done. by exists rs.
Qed.

(** C10: disjointness holds between results, not inside one.  With the
    default options, the line [x y z w] of groups [a a a b] has a committed
    InternalRhyme result whose two positions, [x y] and [y z], share the
    cell of [y]; and whatever its two spans are, the candidate of highest
    priority is committed, its spans being tested against the marked set
    only. *)
Theorem overlap_within_one_result :
  (∃ res fr c,
     analyzeRhymePatterns triple Options.empty = inr res
     ∧ fr ∈ Analysis.analysisResults res
     ∧ isInternalRhyme (RhymeResult.rhymeType (FinalResult.result fr)) = true
     ∧ c ∈ positionCells (fst (RhymeResult.positions (FinalResult.result fr)))
     ∧ c ∈ positionCells (snd (RhymeResult.positions (FinalResult.result fr))))
  ∧ (∀ m rest, ∃ rs,
       Selection.analysisResults (selectMatches (m :: rest)) = mkRhymeResult m :: rs).
Proof.
  split.
  - eexists _, _, (0%nat, 1%nat).
    split; [vm_compute; reflexivity|].
    split; [left|].
    split; [reflexivity|].
    split; [by right; left|by left].
  - intros m rest. unfold selectMatches. simpl.
    destruct (foldl_selectStep_prefix rest (selectStep Selection.init m)) as [rs ->].
    exists rs.
    assert (Hfree : isFree m (Selection.markedPositions Selection.init) = true).
    { apply isFree_true. intros c _. apply not_elem_of_empty. }
    destruct (selectStep_free _ _ Hfree) as [-> _]. done.
Qed.

(** On a line of exactly three characters of one group the overlapping pair
    [x y] / [y z] holds the end-of-line span: with the default options it is
    committed as an end rhyme, its two positions sharing the cell of [y]. *)
Lemma three_character_line_overlap :
  ∃ fr rest,
    resultsOf (JArr [jsLine "xyz" [jc "x" "a"; jc "y" "a"; jc "z" "a"]]) Options.empty
    = fr :: rest
    ∧ RhymeResult.rhymeType (FinalResult.result fr) = EndRhyme 2
    ∧ RhymeResult.positions (FinalResult.result fr)
      = (Position.mk 0 1 2, Position.mk 0 0 2).
Proof.
  eexists _, _. split; [vm_compute; reflexivity|]. by split.
Qed.

(** With end-rhyme detection on, the end-rhyme rule takes every pair with an
    end-of-line span, and the spans of an inter-line candidate are not at
    the end of their lines. *)
Lemma interline_non_end_when_end_detected (cfg : Config.t) (rhymeGroups : Verse)
    (m : Match.t) :
  Config.detectEndRhyme cfg = true ->
  m ∈ allPossibleMatches cfg rhymeGroups ->
  isInterLineRhyme (Match.rhymeType m) = true ->
  Seq.isEndOfLine (Match.seq1 m) = false ∧ Seq.isEndOfLine (Match.seq2 m) = false.
Proof.
  intros Hend (_ & _ & Hp)%allPossibleMatches_elem_of Hil.
  destruct (pairMatch_Some _ _ _ _ _ Hp) as (_ & _ & _ & _ & _ & p & Hcl & _).
  destruct (classify_InterLineRhyme _ _ _ _ _ _ _ Hcl Hil) as (Hno & _).
  rewrite Hend in Hno. simpl in Hno. by apply orb_false_iff in Hno.
Qed.

(** C1: with [detectEndRhyme] off, the two one-character lines [x] and [y]
    of the same group give a candidate labelled as a non-end inter-line
    rhyme whose two spans are both at the end of their lines, and it is
    committed; [isNonEndInterLineRhyme] rejects that pair. *)
Theorem interline_label_on_end_of_line_spans :
  ∃ m fr,
    allPossibleMatches (resolveOptions noEndRhyme) coupletVerse = [m]
    ∧ Match.rhymeType m = InterLineRhyme 1
    ∧ rhymeTypeString (Match.rhymeType m) = "1字非句尾句间押韵"
    ∧ Seq.lineIndex (Match.seq1 m) ≠ Seq.lineIndex (Match.seq2 m)
    ∧ Seq.sequenceKey (Match.seq1 m) = Seq.sequenceKey (Match.seq2 m)
    ∧ Seq.isEndOfLine (Match.seq1 m) = true
    ∧ Seq.isEndOfLine (Match.seq2 m) = true
    ∧ isNonEndInterLineRhyme (Match.seq1 m) (Match.seq2 m)
        (Config.interLineTolerance (resolveOptions noEndRhyme)) = false
    ∧ resultsOf couplet noEndRhyme = [fr]
    ∧ FinalResult.result fr = mkRhymeResult m.
Proof.
  eexists _, _.
  split; [vm_compute; reflexivity|].
  repeat split; try (vm_compute; reflexivity).
  by vm_compute.
Qed.

(** ** The order of consideration *)

Lemma sortedDesc_lookup {A : Type} (key : A -> Z) (l : list A) (i j : nat) (x y : A) :
  sortedDesc key l -> (i < j)%nat -> l !! i = Some x -> l !! j = Some y ->
  key y <= key x.
Proof.
  intros Hs. revert i j. induction Hs as [|a l Hl IH Ha]; intros i j Hij Hi Hj.
  - done.
  - destruct i as [|i], j as [|j]; simpl in *; try lia.
    + injection Hi as ->. rewrite Forall_forall in Ha.
      apply Ha. by eapply list_elem_of_lookup_2.
    + apply (IH i j); [lia|done..].
Qed.

Lemma selectMatches_snoc (l : list Match.t) (m : Match.t) :
  selectMatches (l ++ [m]) = selectStep (selectMatches l) m.
Proof. unfold selectMatches. by rewrite foldl_snoc. Qed.

Lemma markedBefore_S (matches : list Match.t) (k : nat) (m : Match.t) :
  matches !! k = Some m ->
  markedBefore matches (S k)
  = Selection.markedPositions
      (selectStep (selectMatches (take k matches)) m).
Proof.
  intros Hk. unfold markedBefore. by rewrite (take_S_r _ _ _ Hk), selectMatches_snoc.
Qed.

(** A marked cell is a cell of a candidate committed earlier. *)
Lemma markedBefore_origin (matches : list Match.t) (k : nat) (c : Cell) :
  c ∈ markedBefore matches k ->
  ∃ i m, (i < k)%nat ∧ matches !! i = Some m
         ∧ isFree m (markedBefore matches i) = true ∧ c ∈ matchCells m.
Proof.
  induction k as [|k IH].
  - unfold markedBefore. simpl. by intros ?%not_elem_of_empty.
  - destruct (matches !! k) as [m|] eqn:Hk.
    + rewrite (markedBefore_S _ _ _ Hk). fold (markedBefore matches k).
      destruct (isFree m (markedBefore matches k)) eqn:Hfree.
      * destruct (selectStep_free _ _ Hfree) as [_ Hmarked].
        intros [Hc|Hc]%Hmarked.
        -- destruct (IH Hc) as (i & m' & Hi & ?). exists i, m'. split; [lia|done].
        -- exists k, m. split; [lia|done].
      * unfold markedBefore in *. rewrite selectStep_blocked by done.
        intros Hc. destruct (IH Hc) as (i & m' & Hi & ?).
        exists i, m'. split; [lia|done].
    + apply lookup_ge_None in Hk. unfold markedBefore in *.
      rewrite !take_ge in * by lia.
      intros Hc. destruct (IH Hc) as (i & m' & Hi & ?).
      exists i, m'. split; [lia|done].
Qed.

(** A candidate that is free when considered is committed. *)
Lemma free_is_committed (matches : list Match.t) (k : nat) (m : Match.t) :
  matches !! k = Some m -> isFree m (markedBefore matches k) = true ->
  mkRhymeResult m ∈ Selection.analysisResults (selectMatches matches).
Proof.
  intros Hk Hfree.
  rewrite <- (take_drop_middle _ _ _ Hk) at 1.
  unfold selectMatches. rewrite foldl_app. simpl.
  fold (selectMatches (take k matches)).
  destruct (foldl_selectStep_prefix (drop (S k) matches)
              (selectStep (selectMatches (take k matches)) m)) as [rs ->].
  destruct (selectStep_free _ _ Hfree) as [-> _].
  rewrite !elem_of_app, list_elem_of_singleton. auto.
Qed.

(** Two candidates that share a cell and differ in type are not both
    committed. *)
Lemma not_both_committed (matches : list Match.t) (m1 m2 : Match.t) (c : Cell) :
  Forall wfMatch matches -> wfMatch m1 -> wfMatch m2 ->
  c ∈ matchCells m1 -> c ∈ matchCells m2 ->
  Match.rhymeType m1 ≠ Match.rhymeType m2 ->
  mkRhymeResult m1 ∈ Selection.analysisResults (selectMatches matches) ->
  mkRhymeResult m2 ∈ Selection.analysisResults (selectMatches matches) ->
  False.
Proof.
  intros Hwf Hw1 Hw2 Hc1 Hc2 Hne [i Hi]%list_elem_of_lookup [j Hj]%list_elem_of_lookup.
  destruct (selectMatches_inv _ Hwf) as [_ Hdis].
  destruct (decide (i = j)) as [->|Hij].
  - assert (Heq : mkRhymeResult m1 = mkRhymeResult m2) by congruence.
    apply Hne. exact (f_equal RhymeResult.rhymeType Heq).
  - eapply (Hdis i j _ _ c Hij Hi Hj); by apply resultCells_mkRhymeResult.
Qed.

(** A successful call depends on its options through the six resolved
    values only. *)
Lemma analyzeRhymePatterns_resolve (v : JsVal) (o1 o2 : Options.t) :
  resolveOptions o1 = resolveOptions o2 ->
  analyzeRhymePatterns v o1 = analyzeRhymePatterns v o2.
Proof.
  intros Ho. destruct v as [| | | | |groups|]; try done. simpl.
  destruct (Nat.eqb _ _); [done|].
  destruct (checkGroups groups); [done|].
  unfold analyzeValid. by rewrite Ho.
Qed.

Lemma isFree_false (m : Match.t) (marked : gset Cell) :
  isFree m marked = false -> ∃ c, c ∈ matchCells m ∧ c ∈ marked.
Proof.
  unfold isFree, matchCells, isSequenceMarked.
  rewrite andb_false_iff, !negb_false_iff, !existsb_exists.
  intros [(c & Hc & Hm)|(c & Hc & Hm)]; exists c;
    apply list_elem_of_In in Hc; apply bool_decide_eq_true in Hm;
    (split; [apply elem_of_app; auto|done]).
Qed.

(** C4, as the selector has it: an EndRhyme candidate [E] and an
    InternalRhyme candidate [I] that share a cell are never both committed.
    If none of the cells of [E] is marked when [E] is considered, [E] is
    committed and [I] is not; otherwise a candidate committed before [E],
    of priority at least that of [E], holds one of its cells, and only then
    can [I] be committed.  [E] is considered before [I] whenever its
    priority, [1000 - lineDistance + 10 * length], is greater than that of
    [I], [100 - gap + 10 * length]. *)
Theorem end_rhyme_precedence (cfg : Config.t) (rhymeGroups : Verse)
    (i j : nat) (E I : Match.t) (c : Cell) :
  let matches := allPossibleMatches cfg rhymeGroups in
  let results := Selection.analysisResults (selectMatches matches) in
  matches !! i = Some E -> matches !! j = Some I ->
  isEndRhyme (Match.rhymeType E) = true ->
  isInternalRhyme (Match.rhymeType I) = true ->
  c ∈ matchCells E -> c ∈ matchCells I ->
  ¬ (mkRhymeResult E ∈ results ∧ mkRhymeResult I ∈ results)
  ∧ (isFree E (markedBefore matches i) = true ->
     mkRhymeResult E ∈ results ∧ mkRhymeResult I ∉ results)
  ∧ (isFree E (markedBefore matches i) = false ->
     ∃ k C c', (k < i)%nat ∧ matches !! k = Some C
               ∧ mkRhymeResult C ∈ results
               ∧ Match.priority E <= Match.priority C
               ∧ c' ∈ matchCells C ∧ c' ∈ matchCells E)
  ∧ (mkRhymeResult I ∈ results -> isFree E (markedBefore matches i) = false)
  ∧ Match.priority E
    = 1000 - Z.abs (Z.of_nat (Seq.lineIndex (Match.seq1 E))
                    - Z.of_nat (Seq.lineIndex (Match.seq2 E)))
      + Z.of_nat (Seq.length (Match.seq1 E)) * 10
  ∧ Match.priority I
    = 100 - charGap (Match.seq1 I) (Match.seq2 I)
      + Z.of_nat (Seq.length (Match.seq1 I)) * 10
  ∧ (Match.priority I < Match.priority E -> (i < j)%nat).
Proof.
  intros matches results Hi Hj HE HI HcE HcI.
  assert (Hsorted : sortedDesc Match.priority matches) by apply sortDesc_sorted.
  assert (Hwf : Forall wfMatch matches) by apply allPossibleMatches_wf.
  assert (HinE : E ∈ matches) by by eapply list_elem_of_lookup_2.
  assert (HinI : I ∈ matches) by by eapply list_elem_of_lookup_2.
  rewrite Forall_forall in Hwf.
  assert (Hne : Match.rhymeType E ≠ Match.rhymeType I).
  { intros Heq. rewrite Heq in HE. by destruct (Match.rhymeType I). }
  assert (Hboth : ¬ (mkRhymeResult E ∈ results ∧ mkRhymeResult I ∈ results)).
  { intros [H1 H2]. eapply (not_both_committed matches E I c); eauto.
    by apply Forall_forall. }
  split; [done|]. split; [|split; [|split; [|split; [|split]]]].
  - intros Hfree.
    assert (mkRhymeResult E ∈ results) by by eapply free_is_committed.
    split; [done|]. intros HIn. by apply Hboth.
  - intros (c' & Hc' & Hm)%isFree_false.
    destruct (markedBefore_origin _ _ _ Hm) as (k & C & Hk & HC & Hfree & HcC).
    exists k, C, c'. repeat split; try done.
    + by eapply free_is_committed.
    + by eapply (sortedDesc_lookup _ _ k i).
  - intros HIn. destruct (isFree E (markedBefore matches i)) eqn:Hfree; [|done].
    exfalso. apply Hboth. split; [|done]. by eapply free_is_committed.
  - destruct (allPossibleMatches_elem_of _ _ _ HinE) as (_ & _ & Hp).
    destruct (pairMatch_Some _ _ _ _ _ Hp) as (_ & _ & _ & _ & _ & p & Hcl & ->).
    destruct (classify_EndRhyme _ _ _ _ _ _ _ Hcl HE) as (_ & _ & _ & Hint & ->).
    by rewrite Hint.
  - destruct (allPossibleMatches_elem_of _ _ _ HinI) as (_ & _ & Hp).
    destruct (pairMatch_Some _ _ _ _ _ Hp) as (_ & _ & _ & _ & _ & p & Hcl & ->).
    destruct (classify_InternalRhyme _ _ _ _ _ _ _ Hcl HI) as (_ & _ & _ & Hint & ->).
    by rewrite Hint.
  - intros Hprio. destruct (Nat.lt_trichotomy i j) as [Hlt|[->|Hgt]]; [done|..].
    + rewrite Hi in Hj. injection Hj as ->. lia.
    + pose proof (sortedDesc_lookup _ _ _ _ _ _ Hsorted Hgt Hj Hi). lia.
Qed.

(** C4, as stated, fails on the three lines [x y z] / [w] / [v] with the
    default options.  The end-rhyme candidate [E] of [w] with [x] and the
    internal candidate [I] of [x] with [y] share the cell of [x]; the
    end-rhyme candidate [C] of [w] with [v] is committed first and takes
    the cell of [w], so [E] is rejected and [I] is committed. *)
Lemma end_rhyme_candidate_not_committed :
  ∃ C E I c,
    let matches := allPossibleMatches (resolveOptions Options.empty) tercetVerse in
    matches !! 0%nat = Some C ∧ matches !! 1%nat = Some E ∧ matches !! 5%nat = Some I
    ∧ Config.detectEndRhyme (resolveOptions Options.empty) = true
    ∧ RhymeResult.positions (mkRhymeResult E)
      = (Position.mk 1 0 1, Position.mk 0 0 1)
    ∧ RhymeResult.positions (mkRhymeResult I)
      = (Position.mk 0 0 1, Position.mk 0 1 1)
    ∧ isEndRhyme (Match.rhymeType E) = true
    ∧ isInternalRhyme (Match.rhymeType I) = true
    ∧ c ∈ matchCells E ∧ c ∈ matchCells I
    ∧ map FinalResult.result (resultsOf tercet Options.empty)
      = [mkRhymeResult C; mkRhymeResult I]
    ∧ mkRhymeResult E ∉ map FinalResult.result (resultsOf tercet Options.empty).
Proof.
  eexists _, _, _, (0%nat, 0%nat). cbv zeta.
  split; [vm_compute; reflexivity|].
  split; [vm_compute; reflexivity|].
  split; [vm_compute; reflexivity|].
  repeat (split; [vm_compute; reflexivity|]).
  split; [vm_compute; right; left|].
  split; [vm_compute; left|].
  split; [vm_compute; reflexivity|].
  vm_compute. intros H.
  apply elem_of_cons in H as [H|H]; [discriminate|].
  apply elem_of_cons in H as [H|H]; [discriminate|].
  by apply elem_of_nil in H.
Qed.

(** ** The working state of a call *)

Lemma scanLoop_spec (cs : list CharInfo.t) (w : Working.t) :
  Working.hasUnknownRhyme w = false ->
  let w' := snd (Stateful.scanLoop cs w) in
  Working.allSequences w' = Working.allSequences w
  ∧ match scanChars cs with
    | None => Working.hasUnknownRhyme w' = true
    | Some (rhymeSequence, chars, pinyins) =>
        Working.hasUnknownRhyme w' = false
        ∧ Working.rhymeSequence w' = Working.rhymeSequence w ++ rhymeSequence
        ∧ Working.chars w' = Working.chars w ++ chars
        ∧ Working.pinyins w' = Working.pinyins w ++ pinyins
    end.
Proof.
  revert w. induction cs as [|charInfo rest IH]; intros w Hw; simpl.
  - by rewrite !app_nil_r.
  - destruct (isUnknownGroup (CharInfo.normalGroup charInfo)); [done|].
    unfold Stateful.bind; simpl.
    match goal with |- context [Stateful.scanLoop rest ?w1] =>
      specialize (IH w1 Hw) end.
    simpl in IH. destruct IH as [Hall IH]. split; [done|].
    destruct (scanChars rest) as [[[rs cs'] ps]|]; [|done].
    destruct IH as (Hu & Hrs & Hcs & Hps).
    rewrite Hrs, Hcs, Hps, <- !app_assoc. done.
Qed.

Lemma scanSpan_spec (lineIndex : nat) (charInfos : list CharInfo.t)
    (startIndex endIndex : nat) (w : Working.t) :
  Working.allSequences (snd (Stateful.scanSpan lineIndex charInfos startIndex endIndex w))
  = Working.allSequences w
    ++ option_list (extractSpan lineIndex charInfos startIndex endIndex).
Proof.
  unfold Stateful.scanSpan, extractSpan, Stateful.bind. simpl.
  match goal with |- context [Stateful.scanLoop ?cs ?w1] =>
    destruct (scanLoop_spec cs w1 eq_refl) as [Hall Hscan] end.
  simpl in Hall, Hscan.
  destruct (scanChars (charRange charInfos startIndex endIndex))
    as [[[rs cs] ps]|].
  - destruct Hscan as (-> & -> & -> & ->). simpl. by rewrite Hall.
  - rewrite Hscan. simpl. by rewrite Hall, app_nil_r.
Qed.

Lemma forEach_scanSpan (lineIndex : nat) (charInfos : list CharInfo.t)
    (startIndex : nat) (ends : list nat) (w : Working.t) :
  Working.allSequences
    (snd (Stateful.forEach ends
            (fun endIndex => Stateful.scanSpan lineIndex charInfos startIndex endIndex) w))
  = Working.allSequences w
    ++ omap (fun endIndex => extractSpan lineIndex charInfos startIndex endIndex) ends.
Proof.
  revert w. induction ends as [|endIndex rest IH]; intros w; simpl.
  - by rewrite app_nil_r.
  - unfold Stateful.bind. rewrite IH, scanSpan_spec.
    destruct (extractSpan lineIndex charInfos startIndex endIndex); simpl.
    + by rewrite <- app_assoc.
    + by rewrite app_nil_r.
Qed.

Lemma forEach_flat_map {A : Type} (body : A -> Stateful.M unit) (g : A -> list Seq.t)
    (l : list A) (w : Working.t) :
  (∀ x w, Working.allSequences (snd (body x w)) = Working.allSequences w ++ g x) ->
  Working.allSequences (snd (Stateful.forEach l body w))
  = Working.allSequences w ++ flat_map g l.
Proof.
  intros Hbody. revert w. induction l as [|x rest IH]; intros w; simpl.
  - by rewrite app_nil_r.
  - unfold Stateful.bind. by rewrite IH, Hbody, <- app_assoc.
Qed.

Lemma scanLine_spec (group : Line.t) (lineIndex : nat) (w : Working.t) :
  Working.allSequences (snd (Stateful.scanLine group lineIndex w))
  = Working.allSequences w ++ extractLine lineIndex group.
Proof.
  unfold Stateful.scanLine, extractLine.
  apply (forEach_flat_map _
           (fun startIndex =>
              omap (fun endIndex =>
                      extractSpan lineIndex (Line.charInfos group) startIndex endIndex)
                   (seq startIndex (List.length (Line.charInfos group) - startIndex)))).
  intros startIndex w'. apply forEach_scanSpan.
Qed.

Lemma forEachIndexed_scanLine (lineIndex : nat) (rhymeGroups : Verse) (w : Working.t) :
  Working.allSequences
    (snd (Stateful.forEachIndexed lineIndex rhymeGroups Stateful.scanLine w))
  = Working.allSequences w ++ extractFrom lineIndex rhymeGroups.
Proof.
  revert lineIndex w. induction rhymeGroups as [|group rest IH]; intros lineIndex w; simpl.
  - by rewrite app_nil_r.
  - unfold Stateful.bind. by rewrite IH, scanLine_spec, <- app_assoc.
Qed.

(** The extraction returns the spans of the verse, whatever the store. *)
Lemma stateful_extractAllRhymeSequences (rhymeGroups : Verse) (w : Working.t) :
  fst (Stateful.extractAllRhymeSequences rhymeGroups w)
  = extractAllRhymeSequences rhymeGroups.
Proof.
  unfold Stateful.extractAllRhymeSequences, extractAllRhymeSequences, Stateful.bind.
  simpl. by rewrite forEachIndexed_scanLine.
Qed.

Lemma stateful_markSequencePositions (s : Seq.t) (w : Working.t) :
  selectionOf (snd (Stateful.markSequencePositions s w))
  = {| Selection.markedPositions :=
         markSequencePositions s (Working.markedPositions w);
       Selection.analysisResults := Working.analysisResults w;
       Selection.endRhymeCount := Working.endRhymeCount w;
       Selection.internalRhymeCount := Working.internalRhymeCount w |}.
Proof.
  unfold Stateful.markSequencePositions, markSequencePositions.
  revert w. induction (seqCells s) as [|cell rest IH]; intros w; simpl; [done|].
  unfold Stateful.bind. by rewrite IH.
Qed.

Lemma stateful_pairLoops_inner (cfg : Config.t) (rhymeGroups : Verse) (seq1 : Seq.t)
    (rest : list Seq.t) (w : Working.t) :
  let w' :=
    snd (Stateful.forEach rest (fun seq2 =>
           match pairMatch cfg rhymeGroups seq1 seq2 with
           | None => Stateful.ret tt
           | Some m =>
               Stateful.modify (fun w =>
                 Working.withAllPossibleMatches (Working.allPossibleMatches w ++ [m]) w)
           end) w) in
  Working.allPossibleMatches w'
  = Working.allPossibleMatches w ++ omap (pairMatch cfg rhymeGroups seq1) rest
  ∧ Working.markedPositions w' = Working.markedPositions w.
Proof.
  revert w. induction rest as [|seq2 rest IH]; intros w; simpl.
  - by rewrite app_nil_r.
  - unfold Stateful.bind.
    match goal with |- context [Stateful.forEach rest _ ?w1] =>
      destruct (IH w1) as [Hm Hk] end.
    simpl in Hm, Hk. rewrite Hm, Hk.
    destruct (pairMatch cfg rhymeGroups seq1 seq2); simpl; [|done].
    by rewrite <- app_assoc.
Qed.

Lemma stateful_pairLoops (cfg : Config.t) (rhymeGroups : Verse) (allSequences : list Seq.t)
    (w : Working.t) :
  let w' := snd (Stateful.pairLoops cfg rhymeGroups allSequences w) in
  Working.allPossibleMatches w'
  = Working.allPossibleMatches w ++ collectMatches cfg rhymeGroups allSequences
  ∧ Working.markedPositions w' = Working.markedPositions w.
Proof.
  revert w. induction allSequences as [|seq1 rest IH]; intros w; simpl.
  - by rewrite app_nil_r.
  - unfold Stateful.bind.
    match goal with |- context [Stateful.pairLoops cfg rhymeGroups rest ?w1] =>
      destruct (IH w1) as [Hm Hk] end.
    simpl in Hm, Hk. rewrite Hm, Hk.
    destruct (stateful_pairLoops_inner cfg rhymeGroups seq1 rest w) as [Hm' Hk'].
    simpl in Hm', Hk'. rewrite Hm', Hk'. by rewrite <- app_assoc.
Qed.

Lemma stateful_commitMatch (m : Match.t) (w : Working.t) :
  selectionOf (snd (Stateful.commitMatch m w)) = selectStep (selectionOf w) m.
Proof.
  unfold Stateful.commitMatch, selectStep, isFree, Stateful.bind. simpl.
  destruct (negb (isSequenceMarked (Match.seq1 m) (Working.markedPositions w))
            && negb (isSequenceMarked (Match.seq2 m) (Working.markedPositions w)));
    [|done].
  rewrite stateful_markSequencePositions.
  match goal with |- context [Stateful.markSequencePositions (Match.seq1 m) ?w1] =>
    pose proof (stateful_markSequencePositions (Match.seq1 m) w1) as H1 end.
  apply (f_equal Selection.markedPositions) in H1 as Hk.
  apply (f_equal Selection.analysisResults) in H1 as Hr.
  apply (f_equal Selection.endRhymeCount) in H1 as He.
  apply (f_equal Selection.internalRhymeCount) in H1 as Hi.
  simpl in Hk, Hr, He, Hi. rewrite Hk, Hr, He, Hi.
  by destruct (includes "句尾" (rhymeTypeString (Match.rhymeType m))).
Qed.

Lemma stateful_selection (matches : list Match.t) (w : Working.t) :
  selectionOf (snd (Stateful.forEach matches Stateful.commitMatch w))
  = foldl selectStep (selectionOf w) matches.
Proof.
  revert w. induction matches as [|m rest IH]; intros w; simpl; [done|].
  unfold Stateful.bind. by rewrite IH, stateful_commitMatch.
Qed.

Lemma stateful_colours (results : list RhymeResult.t) (index : nat) (w : Working.t) :
  let run := Stateful.mapIndexed index results Stateful.colourResult w in
  fst run
  = assignColors index (Working.rhymeGroupColors w) (Working.colorIndex w) results
  ∧ Working.endRhymeCount (snd run) = Working.endRhymeCount w
  ∧ Working.internalRhymeCount (snd run) = Working.internalRhymeCount w.
Proof.
  revert index w. induction results as [|result rest IH]; intros index w; simpl; [done|].
  unfold Stateful.bind. simpl.
  destruct (Working.rhymeGroupColors w
              !! getSequenceKey (RhymeResult.sequence result)) as [c|] eqn:Hc; simpl.
  - rewrite Hc.
    match goal with |- context [Stateful.mapIndexed (S index) rest _ ?w1] =>
      destruct (IH (S index) w1) as (Hf & He & Hi) end.
    simpl in Hf, He, Hi. by rewrite Hf, He, Hi.
  - rewrite lookup_insert_eq.
    match goal with |- context [Stateful.mapIndexed (S index) rest _ ?w1] =>
      destruct (IH (S index) w1) as (Hf & He & Hi) end.
    simpl in Hf, He, Hi. by rewrite Hf, He, Hi.
Qed.

(** The statement-by-statement reading returns what the functional one
    does, from any store. *)
Lemma stateful_analyzeValid (input : JsVal) (rhymeGroups : Verse) (options : Options.t)
    (w : Working.t) :
  fst (Stateful.analyzeValid input rhymeGroups options w)
  = analyzeValid input rhymeGroups options.
Proof.
  unfold Stateful.analyzeValid, analyzeValid, selectMatches, allPossibleMatches.
  unfold Stateful.bind, Stateful.modify, Stateful.gets, Stateful.ret. cbn [fst snd].
  rewrite stateful_extractAllRhymeSequences.
  set (cfg := resolveOptions options).
  set (w0 := snd (Stateful.extractAllRhymeSequences rhymeGroups w)).
  set (w1 := Working.withAllPossibleMatches [] (Working.withMarkedPositions ∅ w0)).
  destruct (stateful_pairLoops cfg rhymeGroups (extractAllRhymeSequences rhymeGroups) w1)
    as [Hmatches Hmarked].
  cbn zeta in Hmatches, Hmarked.
  set (w2 := snd (Stateful.pairLoops cfg rhymeGroups
                    (extractAllRhymeSequences rhymeGroups) w1)) in *.
  change (Working.allPossibleMatches w1) with (@nil Match.t) in Hmatches.
  change (Working.markedPositions w1) with (∅ : gset Cell) in Hmarked.
  rewrite app_nil_l in Hmatches.
  set (w3 := Working.withInternalRhymeCount 0
               (Working.withEndRhymeCount 0
                  (Working.withAnalysisResults []
                     (Working.withAllPossibleMatches
                        (sortDesc Match.priority (Working.allPossibleMatches w2)) w2)))).
  change (Working.allPossibleMatches w3)
    with (sortDesc Match.priority (Working.allPossibleMatches w2)).
  rewrite Hmatches.
  set (matches := sortDesc Match.priority
                    (collectMatches cfg rhymeGroups (extractAllRhymeSequences rhymeGroups))).
  pose proof (stateful_selection matches w3) as Hsel.
  change (selectionOf w3)
    with (Selection.mk (Working.markedPositions w2) [] 0%nat 0%nat) in Hsel.
  rewrite Hmarked in Hsel. change (Selection.mk ∅ [] 0%nat 0%nat) with Selection.init in Hsel.
  set (w4 := snd (Stateful.forEach matches Stateful.commitMatch w3)) in *.
  set (w5 := Working.withColorIndex 0 (Working.withRhymeGroupColors ∅ w4)).
  change (Working.analysisResults w5) with (Selection.analysisResults (selectionOf w4)).
  destruct (stateful_colours (Selection.analysisResults (selectionOf w4)) 0 w5)
    as (Hfinal & Hend & Hint).
  cbn zeta in Hfinal, Hend, Hint.
  rewrite Hfinal, Hend, Hint.
  change (Working.endRhymeCount w5) with (Selection.endRhymeCount (selectionOf w4)).
  change (Working.internalRhymeCount w5)
    with (Selection.internalRhymeCount (selectionOf w4)).
  change (Working.rhymeGroupColors w5) with (∅ : gmap string string).
  change (Working.colorIndex w5) with 0%nat.
  by rewrite Hsel.
Qed.

(** A call returns, from any store, what the functional reading of the body
    returns. *)
Lemma stateful_analyzeRhymePatterns (v : JsVal) (options : Options.t) (w : Working.t) :
  fst (Stateful.analyzeRhymePatterns v options w) = analyzeRhymePatterns v options.
Proof.
  unfold Stateful.analyzeRhymePatterns, analyzeRhymePatterns.
  destruct v; try done.
  destruct (Nat.eqb (List.length _) 0); [done|].
  destruct (checkGroups _) as [e|verse]; [done|].
  unfold Stateful.bind, Stateful.ret. cbn [fst].
  by rewrite stateful_analyzeValid.
Qed.

(** In a run of calls, each in the store the one before left, every call
    returns what it returns on its own. *)
Lemma stateful_session (calls : list (JsVal * Options.t)) (w : Working.t) :
  fst (Stateful.session calls w)
  = map (fun call => analyzeRhymePatterns (fst call) (snd call)) calls.
Proof.
  revert w. induction calls as [|[v options] rest IH]; intros w; simpl; [done|].
  unfold Stateful.bind, Stateful.ret. cbn [fst snd].
  by rewrite IH, stateful_analyzeRhymePatterns.
Qed.

(** C3: the analysis carries nothing from one call to the next.  With every
    variable and object the code writes to kept in a store that outlives the
    call, two calls on equal verses and equal options return the same
    outcome, error or result with its identifiers, colours and summary,
    whatever the stores they start in; the outcome is the one the functional
    reading of the code gives, the options counting only through the six
    values the destructuring resolves them to; and in a run of calls, each
    started in the store the one before left, every call returns what it
    returns on its own. *)
Theorem analysis_is_deterministic (v1 v2 : JsVal) (o1 o2 : Options.t)
    (w1 w2 : Working.t) :
  v1 = v2 -> resolveOptions o1 = resolveOptions o2 ->
  fst (Stateful.analyzeRhymePatterns v1 o1 w1)
  = fst (Stateful.analyzeRhymePatterns v2 o2 w2)
  ∧ fst (Stateful.analyzeRhymePatterns v1 o1 w1) = analyzeRhymePatterns v1 o1
  ∧ ∀ calls : list (JsVal * Options.t),
      fst (Stateful.session calls w1)
      = map (fun call => analyzeRhymePatterns (fst call) (snd call)) calls.
Proof.
  intros -> Ho. rewrite !stateful_analyzeRhymePatterns.
  split; [by apply analyzeRhymePatterns_resolve|].
  split; [done|]. intros calls. apply stateful_session.
Qed.

(** ** Instances *)

(** On the three lines [x y z] / [w] / [v] the cell of [w] belongs to the
    first result and not to the second. *)
Lemma no_overlap_between_results_witness :
  ∃ res r0 r1,
    analyzeRhymePatterns tercet Options.empty = inr res
    ∧ Analysis.analysisResults res !! 0%nat = Some r0
    ∧ Analysis.analysisResults res !! 1%nat = Some r1
    ∧ (1%nat, 0%nat) ∈ resultCells (FinalResult.result r0)
    ∧ (1%nat, 0%nat) ∉ resultCells (FinalResult.result r1).
Proof.
  eexists _, _, _.
  split; [vm_compute; reflexivity|].
  split; [reflexivity|]. split; [reflexivity|].
  split; [vm_compute; left|].
  refine (proj1 (no_overlap_between_results tercet Options.empty _ _)
            0%nat 1%nat _ _ (1%nat, 0%nat) _ _ _ _).
  - vm_compute; reflexivity.
  - lia.
  - reflexivity.
  - reflexivity.
  - vm_compute; left.
Defined.

(** A call on the three lines [x y z] / [w] / [v] returns the same in a
    blank store and in the store an analysis of [stanza] left, which holds
    one colour and two marked cells. *)
Lemma analysis_is_deterministic_witness :
  Working.colorIndex usedStore = 1%nat
  ∧ size (Working.markedPositions usedStore) = 2%nat
  ∧ fst (Stateful.analyzeRhymePatterns tercet Options.empty Working.blank)
    = fst (Stateful.analyzeRhymePatterns tercet allDefaults usedStore).
Proof.
  split; [vm_compute; reflexivity|].
  split; [vm_compute; reflexivity|].
  apply (analysis_is_deterministic tercet tercet Options.empty allDefaults
           Working.blank usedStore); reflexivity.
Defined.

(** On the three lines [x y z] / [w] / [v], the end-rhyme candidate of [w]
    with [x] is rejected because of the earlier commitment of [w] with [v]. *)
Lemma end_rhyme_precedence_witness :
  ∃ E I,
    let matches := allPossibleMatches (resolveOptions Options.empty) tercetVerse in
    matches !! 1%nat = Some E ∧ matches !! 5%nat = Some I
    ∧ isFree E (markedBefore matches 1) = false
    ∧ ∃ k C c', (k < 1)%nat ∧ matches !! k = Some C
                ∧ mkRhymeResult C ∈ Selection.analysisResults (selectMatches matches)
                ∧ Match.priority E <= Match.priority C
                ∧ c' ∈ matchCells C ∧ c' ∈ matchCells E.
Proof.
  eexists _, _. cbv zeta.
  split; [vm_compute; reflexivity|].
  split; [vm_compute; reflexivity|].
  split; [vm_compute; reflexivity|].
  refine (proj1 (proj2 (proj2
            (end_rhyme_precedence (resolveOptions Options.empty) tercetVerse
               1%nat 5%nat _ _ (0%nat, 0%nat) _ _ _ _ _ _))) _).
  - vm_compute; reflexivity.
  - vm_compute; reflexivity.
  - reflexivity.
  - reflexivity.
  - vm_compute; right; left.
  - vm_compute; left.
  - vm_compute; reflexivity.
Defined.

(** The inter-line result of [x p] / [y q] pairs [x] with [y]. *)
Lemma self_repeat_exclusion_witness :
  ∃ res fr,
    analyzeRhymePatterns stanza Options.empty = inr res
    ∧ Analysis.analysisResults res = [fr]
    ∧ RhymeResult.rhymeType (FinalResult.result fr) = InterLineRhyme 1
    ∧ fst (RhymeResult.chars (FinalResult.result fr))
      ≠ snd (RhymeResult.chars (FinalResult.result fr)).
Proof.
  eexists _, _.
  split; [vm_compute; reflexivity|].
  split; [reflexivity|]. split; [reflexivity|].
  destruct (self_repeat_exclusion stanza Options.empty _ ltac:(vm_compute; reflexivity))
    as (groups & verse & _ & _ & _ & Hres & _).
  apply Hres; [left|reflexivity].
Defined.

(** A gap of one character between two spans of length one, with no extra
    tolerance, is at the bound and accepted. *)
Lemma internal_rhyme_boundary_witness :
  spanX ∈ extractAllRhymeSequences gapVerse
  ∧ spanY ∈ extractAllRhymeSequences gapVerse
  ∧ charGap spanX spanY = 1
  ∧ is_Some (pairMatch (resolveOptions Options.empty) gapVerse spanX spanY).
Proof.
  split; [vm_compute; do 7 right; left|].
  split; [vm_compute; do 9 right; left|].
  split; [reflexivity|].
  refine (proj1 (proj2 (proj2
            (internal_rhyme_boundary (resolveOptions Options.empty) gapVerse
               spanX spanY _ _ _ _ _))) _); reflexivity.
Defined.

(** The results of the three lines [x y z] / [w] / [v] hold known labels. *)
Lemma no_unknown_label_witness :
  ∃ res,
    analyzeRhymePatterns tercet Options.empty = inr res
    ∧ ∀ fr, fr ∈ Analysis.analysisResults res ->
            Forall knownGroup (RhymeResult.sequence (FinalResult.result fr)).
Proof.
  eexists. split; [vm_compute; reflexivity|].
  destruct (no_unknown_label tercet Options.empty _ ltac:(vm_compute; reflexivity))
    as (groups & verse & _ & _ & _ & _ & Hres).
  exact Hres.
Defined.

(** A string instead of a verse, a second line without [charInfos], and a
    second line whose character lacks its two groups. *)
Lemma validation_fails_fast_witness :
  analyzeRhymePatterns (JStr "xyz") Options.empty = inl InputShapeError
  ∧ analyzeRhymePatterns
      (JArr [jsLine "w" [jc "w" "a"]; JObj [("line", JStr "v")]]) Options.empty
    = inl LineShapeError
  ∧ analyzeRhymePatterns
      (JArr [jsLine "w" [jc "w" "a"];
             jsLine "v" [JObj [("char", JStr "v"); ("pinyin", JStr "v")]]])
      Options.empty
    = inl CharInfoShapeError.
Proof.
  assert (Hw : Forall groupShaped [jsLine "w" [jc "w" "a"]]).
  { repeat constructor; simpl; eauto. }
  split; [|split].
  - apply (proj1 (validation_fails_fast (JStr "xyz") Options.empty)). reflexivity.
  - apply (proj1 (proj2 (validation_fails_fast _ Options.empty))
             [jsLine "w" [jc "w" "a"]] (JObj [("line", JStr "v")]) []);
      [reflexivity|exact Hw|].
    intros (_ & _ & Harr). discriminate Harr.
  - apply (proj1 (proj2 (proj2 (validation_fails_fast _ Options.empty)))
             [jsLine "w" [jc "w" "a"]]
             (jsLine "v" [JObj [("char", JStr "v"); ("pinyin", JStr "v")]]) []);
      [reflexivity|exact Hw|repeat split; simpl; eauto|].
    intros Hall. apply Forall_cons in Hall as [(_ & _ & _ & [s Hs] & _) _].
    discriminate Hs.
Defined.

(** * Further properties of the analyzer *)

(** ** The summary *)

Lemma pretty_N_char_isDigit (x : N) : isDigit (pretty_N_char x).
Proof. by exists x. Qed.

Lemma pretty_N_go_allDigits (x : N) (s : string) :
  allDigits s -> allDigits (pretty_N_go x s).
Proof.
  revert s. induction (N.lt_wf_0 x) as [x _ IH]; intros s Hs.
  destruct (decide (x = 0)%N) as [->|Hx]; [by rewrite pretty_N_go_0|].
  rewrite pretty_N_go_step by lia. apply IH.
  - apply N.div_lt; lia.
  - split; [apply pretty_N_char_isDigit|done].
Qed.

Lemma pretty_nat_allDigits (n : nat) : allDigits (pretty n).
Proof.
  unfold pretty, pretty_nat, pretty, pretty_N.
  destruct (decide (N.of_nat n = 0)%N).
  - split; [by exists 0%N|done].
  - by apply pretty_N_go_allDigits.
Qed.

(** A run of digits in front of a text neither adds nor hides an
    occurrence of [句尾]. *)
Lemma includes_after_digits (d t : string) :
  allDigits d -> includes "句尾" (d +:+ t) = includes "句尾" t.
Proof.
  induction d as [|c d IH]; intros Hd; [done|].
  destruct Hd as [[x ->] Hd].
  change (String (pretty_N_char x) d +:+ t) with (String (pretty_N_char x) (d +:+ t)).
  rewrite <- (IH Hd).
  generalize (d +:+ t). intros rest.
  change (includes "句尾" (String (pretty_N_char x) rest))
    with (String.prefix "句尾" (String (pretty_N_char x) rest) || includes "句尾" rest).
  replace (String.prefix "句尾" (String (pretty_N_char x) rest)) with false; [done|].
  unfold pretty_N_char. by repeat case_match.
Qed.

(** The test [rhymeType.includes('句尾')] holds of the end-rhyme label and
    of the inter-line label, which reads [非句尾]. *)
Lemma includes_label (rt : RhymeType) :
  includes "句尾" (rhymeTypeString rt) = negb (isInternalRhyme rt).
Proof.
  destruct rt as [n|n|n]; unfold rhymeTypeString;
    rewrite includes_after_digits by apply pretty_nat_allDigits; by vm_compute.
Qed.

Lemma selectStep_counters (st : Selection.t) (m : Match.t) :
  countersInv st -> countersInv (selectStep st m).
Proof.
  intros [He Hi]. unfold selectStep, countersInv.
  destruct (isFree m (Selection.markedPositions st)); [|done].
  simpl. rewrite !List.filter_app, !length_app, includes_label. simpl.
  destruct (isInternalRhyme (Match.rhymeType m)); simpl; lia.
Qed.

Lemma selectMatches_counters (l : list Match.t) : countersInv (selectMatches l).
Proof.
  unfold selectMatches.
  assert (Hinit : countersInv Selection.init) by done.
  revert Hinit. generalize Selection.init.
  induction l as [|m l IH]; intros st Hst; simpl; [done|].
  by apply IH, selectStep_counters.
Qed.

Lemma length_filter_result (P : RhymeResult.t -> bool) (frs : list FinalResult.t) :
  List.length (List.filter P (map FinalResult.result frs))
  = List.length (List.filter (fun fr => P (FinalResult.result fr)) frs).
Proof.
  induction frs as [|fr frs IH]; simpl; [done|].
  destruct (P (FinalResult.result fr)); simpl; by rewrite IH.
Qed.

(** X1: the summary of a returned analysis.  [totalLines] is the number of
    line entries and [totalRhymeCount] the number of results; [endRhyme]
    counts the end-rhyme results and the inter-line results, whose label
    contains [句尾] too, and [internalRhyme] the internal ones; the two add
    up to [totalRhymeCount]. *)
Theorem summary_counts (v : JsVal) (options : Options.t) (res : Analysis.t) :
  analyzeRhymePatterns v options = inr res ->
  let results := Analysis.analysisResults res in
  let summary := Analysis.summary res in
  (∃ groups, v = JArr groups ∧ Summary.totalLines summary = List.length groups)
  ∧ Summary.totalRhymeCount summary = List.length results
  ∧ Summary.endRhyme summary
    = (countType isEndRhyme results + countType isInterLineRhyme results)%nat
  ∧ Summary.internalRhyme summary = countType isInternalRhyme results
  ∧ (Summary.endRhyme summary + Summary.internalRhyme summary)%nat
    = Summary.totalRhymeCount summary.
Proof.
  intros Hres results summary.
  assert (Hsplit : ∀ frs : list FinalResult.t,
    (countType isEndRhyme frs + countType isInterLineRhyme frs)%nat
    = List.length (List.filter
        (fun fr => negb (isInternalRhyme (RhymeResult.rhymeType (FinalResult.result fr))))
        frs)
    ∧ (countType isEndRhyme frs + countType isInterLineRhyme frs
       + countType isInternalRhyme frs)%nat = List.length frs).
  { unfold countType. induction frs as [|fr frs [IH1 IH2]]; simpl; [done|].
    destruct (RhymeResult.rhymeType (FinalResult.result fr)); simpl; lia. }
  destruct v as [| | | | |groups|]; try done. simpl in Hres.
  destruct groups as [|g groups]; simpl in Hres.
  { injection Hres as <-. subst results summary. simpl.
    split; [by exists []|done]. }
  destruct (checkGroup g) as [e|l] eqn:Hg; [done|].
  destruct (checkGroups groups) as [e|ls] eqn:Hgs; [done|].
  assert (Hlen : List.length (l :: ls) = List.length (g :: groups)).
  { clear -Hgs. simpl. f_equal. revert ls Hgs.
    induction groups as [|g' groups IH]; intros ls; simpl.
    - by intros [= <-].
    - destruct (checkGroup g'); [done|]. destruct (checkGroups groups); [done|].
      intros [= <-]. simpl. f_equal. by apply IH. }
  injection Hres as <-. subst results summary. unfold analyzeValid. simpl.
  set (cfg := resolveOptions options).
  set (st := selectMatches (allPossibleMatches cfg (l :: ls))).
  set (finals := assignColors 0 ∅ 0 (Selection.analysisResults st)).
  assert (Hfin : map FinalResult.result finals = Selection.analysisResults st)
    by apply assignColors_results.
  destruct (selectMatches_counters (allPossibleMatches cfg (l :: ls))) as [He Hi].
  fold st in He, Hi. rewrite <- Hfin, !length_filter_result in He, Hi.
  destruct (Hsplit finals) as [H1 H2].
  split; [exists (g :: groups); split; [done|exact Hlen]|].
  split; [done|]. unfold countType in *. lia.
Qed.

(** ** The committed candidates *)

Lemma sortedDesc_sublist {A : Type} (key : A -> Z) (l1 l2 : list A) :
  l1 `sublist_of` l2 -> sortedDesc key l2 -> sortedDesc key l1.
Proof.
  induction 1 as [|x l1 l2 Hsub IH|x l1 l2 Hsub IH]; intros Hs; [done|..].
  - apply StronglySorted_inv in Hs as [Hs Hall]. constructor; [by apply IH|].
    rewrite Forall_forall in *. intros y Hy. apply Hall.
    by eapply elem_of_sublist.
  - apply StronglySorted_inv in Hs as [Hs _]. by apply IH.
Qed.

Lemma foldl_selectStep_sublist (l : list Match.t) (st : Selection.t) :
  ∃ committed,
    committed `sublist_of` l
    ∧ Selection.analysisResults (foldl selectStep st l)
      = Selection.analysisResults st ++ map mkRhymeResult committed.
Proof.
  revert st. induction l as [|m l IH]; intros st; simpl.
  - exists []. by rewrite app_nil_r.
  - destruct (IH (selectStep st m)) as (committed & Hsub & ->).
    destruct (isFree m (Selection.markedPositions st)) eqn:Hfree.
    + destruct (selectStep_free _ _ Hfree) as [-> _].
      exists (m :: committed). split; [by constructor|]. by rewrite <- app_assoc.
    + rewrite selectStep_blocked by done.
      exists committed. split; [by constructor|done].
Qed.

(** X2: the results are the committed forms of a subsequence of the
    candidates, in the order of the candidates: their priorities never
    increase along the result list. *)
Theorem results_in_priority_order (v : JsVal) (options : Options.t) (res : Analysis.t) :
  analyzeRhymePatterns v options = inr res ->
  ∃ groups verse committed,
    v = JArr groups ∧ checkGroups groups = inr verse
    ∧ committed `sublist_of` allPossibleMatches (resolveOptions options) verse
    ∧ map FinalResult.result (Analysis.analysisResults res)
      = map mkRhymeResult committed
    ∧ sortedDesc Match.priority committed.
Proof.
  intros (groups & verse & -> & Hc & Hres)%analyzeRhymePatterns_inr.
  destruct (foldl_selectStep_sublist
              (allPossibleMatches (resolveOptions options) verse) Selection.init)
    as (committed & Hsub & Heq).
  exists groups, verse, committed. repeat split; try done.
  - by rewrite Hres.
  - eapply sortedDesc_sublist; [done|]. apply sortDesc_sorted.
Qed.

Lemma matchCells_nonempty (m : Match.t) : wfMatch m -> ∃ c, c ∈ matchCells m.
Proof.
  intros [[H1 _] _]. exists (Seq.lineIndex (Match.seq1 m), Seq.startIndex (Match.seq1 m)).
  apply elem_of_app. left. apply elem_of_seqCells. simpl. lia.
Qed.

(** X3: the selection is maximal.  Every candidate shares a cell with a
    committed candidate of at least its priority (itself, if it is
    committed): no candidate left out could be added to the results without
    an overlap. *)
Theorem selection_is_maximal (v : JsVal) (options : Options.t) (res : Analysis.t) :
  analyzeRhymePatterns v options = inr res ->
  ∃ groups verse,
    v = JArr groups ∧ checkGroups groups = inr verse
    ∧ ∀ m, m ∈ allPossibleMatches (resolveOptions options) verse ->
        ∃ C fr c,
          C ∈ allPossibleMatches (resolveOptions options) verse
          ∧ fr ∈ Analysis.analysisResults res
          ∧ FinalResult.result fr = mkRhymeResult C
          ∧ Match.priority m <= Match.priority C
          ∧ c ∈ matchCells m ∧ c ∈ resultCells (FinalResult.result fr).
Proof.
  intros (groups & verse & -> & Hc & Hres)%analyzeRhymePatterns_inr.
  exists groups, verse. split; [done|]. split; [done|].
  set (matches := allPossibleMatches (resolveOptions options) verse) in *.
  assert (Hwf : ∀ m, m ∈ matches -> wfMatch m).
  { apply Forall_forall, allPossibleMatches_wf. }
  assert (Hfinal : ∀ C, mkRhymeResult C ∈ Selection.analysisResults (selectMatches matches) ->
            ∃ fr, fr ∈ Analysis.analysisResults res
                  ∧ FinalResult.result fr = mkRhymeResult C).
  { intros C HC. rewrite <- Hres in HC.
    apply list_elem_of_fmap in HC as (fr & Heq & Hfr). eauto. }
  intros m Hm. destruct (list_elem_of_lookup_1 _ _ Hm) as [i Hi].
  destruct (isFree m (markedBefore matches i)) eqn:Hfree.
  - destruct (Hfinal m (free_is_committed _ _ _ Hi Hfree)) as (fr & Hfr & Heq).
    destruct (matchCells_nonempty m (Hwf m Hm)) as [c Hcell].
    exists m, fr, c. do 3 (split; [done|]). split; [lia|]. split; [done|].
    rewrite Heq. by apply (resultCells_mkRhymeResult m c (Hwf m Hm)).
  - apply isFree_false in Hfree as (c & Hcell & Hmarked).
    destruct (markedBefore_origin _ _ _ Hmarked) as (k & C & Hk & HC & HfreeC & HcC).
    assert (HCin : C ∈ matches) by by eapply list_elem_of_lookup_2.
    destruct (Hfinal C (free_is_committed _ _ _ HC HfreeC)) as (fr & Hfr & Heq).
    exists C, fr, c. do 3 (split; [done|]). split; [|split; [done|]].
    + eapply (sortedDesc_lookup _ _ k i); [apply sortDesc_sorted|done..].
    + rewrite Heq. by apply (resultCells_mkRhymeResult C c (Hwf C HCin)).
Qed.

(** ** The spans of a verse *)

Lemma scanChars_known (cs : list CharInfo.t) :
  Forall (fun c => isUnknownGroup (CharInfo.normalGroup c) = false) cs ->
  scanChars cs
  = Some (map CharInfo.normalGroup cs, map CharInfo.char cs, map CharInfo.pinyin cs).
Proof.
  induction 1 as [|c cs Hc _ IH]; simpl; [done|]. by rewrite Hc, IH.
Qed.

Lemma NoDup_omap_inj {A B : Type} (f : A -> option B) (l : list A) :
  NoDup l -> (∀ x y z, f x = Some z -> f y = Some z -> x = y) -> NoDup (omap f l).
Proof.
  intros Hl Hinj. induction Hl as [|x l Hx _ IH]; simpl; [constructor|].
  destruct (f x) as [z|] eqn:Hfx; [|done].
  constructor; [|done].
  intros (y & Hy & Hfy)%list_elem_of_omap.
  by rewrite (Hinj x y z Hfx Hfy) in Hx.
Qed.

Lemma NoDup_flat_map {A B : Type} (f : A -> list B) (l : list A) :
  NoDup l -> (∀ x, NoDup (f x)) -> (∀ x y z, z ∈ f x -> z ∈ f y -> x = y) ->
  NoDup (flat_map f l).
Proof.
  intros Hl Hf Hdis. induction Hl as [|x l Hx _ IH]; simpl; [constructor|].
  apply NoDup_app. split; [done|]. split; [|done].
  intros z Hz Hin. apply list_elem_of_In, in_flat_map in Hin as (y & Hy & Hzy).
  apply list_elem_of_In in Hy, Hzy.
  by rewrite (Hdis x y z Hz Hzy) in Hx.
Qed.

Lemma extractLine_NoDup (lineIndex : nat) (group : Line.t) :
  NoDup (extractLine lineIndex group).
Proof.
  unfold extractLine. apply NoDup_flat_map.
  - apply NoDup_ListNoDup, seq_NoDup.
  - intros a. apply NoDup_omap_inj; [apply NoDup_ListNoDup, seq_NoDup|].
    intros b b' s Hb Hb'.
    destruct (extractSpan_fields _ _ _ _ _ Hb) as (_ & _ & <- & _).
    by destruct (extractSpan_fields _ _ _ _ _ Hb') as (_ & _ & <- & _).
  - intros a a' s (b & _ & Hb)%list_elem_of_omap (b' & _ & Hb')%list_elem_of_omap.
    destruct (extractSpan_fields _ _ _ _ _ Hb) as (_ & <- & _).
    by destruct (extractSpan_fields _ _ _ _ _ Hb') as (_ & <- & _).
Qed.

Lemma extractFrom_lineIndex (k : nat) (rhymeGroups : Verse) (s : Seq.t) :
  s ∈ extractFrom k rhymeGroups -> (k <= Seq.lineIndex s)%nat.
Proof.
  intros (i & group & a & b & _ & _ & Hs)%extractFrom_spec.
  destruct (extractSpan_fields _ _ _ _ _ Hs) as (-> & _). lia.
Qed.

Lemma extractFrom_NoDup (k : nat) (rhymeGroups : Verse) :
  NoDup (extractFrom k rhymeGroups).
Proof.
  revert k. induction rhymeGroups as [|g rest IH]; intros k; simpl; [constructor|].
  apply NoDup_app. split; [apply extractLine_NoDup|]. split; [|apply IH].
  intros s (a & b & _ & Hs)%extractLine_spec Hin.
  apply extractFrom_lineIndex in Hin.
  destruct (extractSpan_fields _ _ _ _ _ Hs) as (Hl & _). lia.
Qed.

(** X4: the spans are exactly the ranges without an unknown label, once
    each.  Every range [a..b] of a line whose characters all have a known
    group has a span; the list of spans has no duplicate; and two spans of
    the same line with the same bounds are the same object. *)
Theorem spans_are_the_known_ranges (rhymeGroups : Verse) :
  (∀ i group a b,
     rhymeGroups !! i = Some group ->
     (a <= b < List.length (Line.charInfos group))%nat ->
     Forall (fun c => isUnknownGroup (CharInfo.normalGroup c) = false)
            (charRange (Line.charInfos group) a b) ->
     ∃ s, s ∈ extractAllRhymeSequences rhymeGroups
          ∧ Seq.lineIndex s = i ∧ Seq.startIndex s = a ∧ Seq.endIndex s = b
          ∧ Seq.sequence s
            = map CharInfo.normalGroup (charRange (Line.charInfos group) a b))
  ∧ NoDup (extractAllRhymeSequences rhymeGroups)
  ∧ (∀ s1 s2,
       s1 ∈ extractAllRhymeSequences rhymeGroups ->
       s2 ∈ extractAllRhymeSequences rhymeGroups ->
       Seq.lineIndex s1 = Seq.lineIndex s2 -> Seq.startIndex s1 = Seq.startIndex s2 ->
       Seq.endIndex s1 = Seq.endIndex s2 -> s1 = s2).
Proof.
  split; [|split].
  - intros i group a b Hg Hab Hknown.
    pose proof (scanChars_known _ Hknown) as Hscan.
    destruct (extractSpan i (Line.charInfos group) a b) as [s|] eqn:Hs.
    + destruct (extractSpan_fields _ _ _ _ _ Hs) as (Hl & Ha & Hb & _ & _ & _ & Hsc).
      exists s. rewrite Hscan in Hsc. injection Hsc as Hseq _ _.
      split; [|by rewrite Hseq].
      apply extractAll_spec. exists group. rewrite Hl, Ha, Hb. by repeat split; try lia.
    + unfold extractSpan in Hs. by rewrite Hscan in Hs.
  - unfold extractAllRhymeSequences. rewrite sortDesc_perm. apply extractFrom_NoDup.
  - intros s1 s2 (g1 & Hg1 & _ & H1)%extractAll_spec (g2 & Hg2 & _ & H2)%extractAll_spec
      Hl Ha Hb.
    rewrite Hl, Ha, Hb, Hg2 in *. injection Hg1 as ->. congruence.
Qed.

(** ** What a result shows *)

Lemma spanOf_position (rhymeGroups : Verse) (s : Seq.t) :
  spanOf rhymeGroups s ->
  positionShows rhymeGroups (seqPosition s) (Seq.chars s) (Seq.pinyins s)
  ∧ Seq.sequence s = positionLabels rhymeGroups (seqPosition s)
  ∧ List.length (Seq.sequence s) = Seq.length s
  ∧ (Seq.isEndOfLine s = true <-> endsLine rhymeGroups (seqPosition s)).
Proof.
  intros (group & Hg & Hab & Hs).
  destruct (extractSpan_fields _ _ _ _ _ Hs) as (_ & _ & _ & Hlen & Hend & _ & Hscan).
  destruct (scanChars_Some _ _ _ _ Hscan) as (Hseq & Hch & Hpy & _).
  assert (Hrange : charRange (Line.charInfos group) (Seq.startIndex s) (Seq.endIndex s)
            = take (Seq.length s) (drop (Seq.startIndex s) (Line.charInfos group))).
  { unfold charRange. f_equal. lia. }
  rewrite Hrange in Hseq, Hch, Hpy.
  split; [|split; [|split]].
  - exists group. simpl. repeat split; try done; lia.
  - unfold positionLabels. simpl. by rewrite Hg.
  - rewrite Hseq, length_map, length_take, length_drop. lia.
  - unfold endsLine, lineLength. simpl. rewrite Hg, Hend. simpl.
    rewrite Nat.eqb_eq. lia.
Qed.

(** X5: a result points into the verse.  Each of its two positions lies
    within its line and has at least one character; its [chars] and
    [pinyins] are those of the verse at the position; its [sequence] is the
    labels of the verse at the first position; [sequenceLength], the number
    in its type and the length of the first position are the length of the
    sequence; and [rhymeGroup] is the first label. *)
Theorem results_point_into_the_verse (v : JsVal) (options : Options.t) (res : Analysis.t) :
  analyzeRhymePatterns v options = inr res ->
  ∃ groups verse,
    v = JArr groups ∧ checkGroups groups = inr verse
    ∧ ∀ fr, fr ∈ Analysis.analysisResults res ->
        let r := FinalResult.result fr in
        let p1 := fst (RhymeResult.positions r) in
        let p2 := snd (RhymeResult.positions r) in
        positionShows verse p1 (fst (RhymeResult.chars r)) (fst (RhymeResult.pinyins r))
        ∧ positionShows verse p2 (snd (RhymeResult.chars r)) (snd (RhymeResult.pinyins r))
        ∧ RhymeResult.sequence r = positionLabels verse p1
        ∧ Forall knownGroup (positionLabels verse p2)
        ∧ RhymeResult.sequenceLength r = Position.length p1
        ∧ List.length (RhymeResult.sequence r) = Position.length p1
        ∧ RhymeResult.rhymeGroup r = head (positionLabels verse p1)
        ∧ (∃ label, RhymeResult.rhymeGroup r = Some label)
        ∧ RhymeResult.rhymeType r
          ∈ [EndRhyme (Position.length p1); InterLineRhyme (Position.length p1);
             InternalRhyme (Position.length p1)]
        ∧ RhymeResult.type r = rhymeTypeString (RhymeResult.rhymeType r).
Proof.
  intros (groups & verse & -> & Hc & Hres)%analyzeRhymePatterns_results.
  exists groups, verse. split; [done|]. split; [done|].
  intros fr (m & Hm & ->)%Hres. simpl.
  destruct (allPossibleMatches_elem_of _ _ _ Hm) as (H1 & H2 & Hp).
  destruct (pairMatch_Some _ _ _ _ _ Hp) as (_ & _ & _ & _ & Hseq & p & Hcl & _).
  destruct (spanOf_position _ _ H1) as (Hs1 & Hl1 & Hn1 & _).
  destruct (spanOf_position _ _ H2) as (Hs2 & Hl2 & _ & _).
  assert (Hk2 : Forall knownGroup (Seq.sequence (Match.seq2 m))).
  { apply spanOf_known in H2 as (g & _ & _ & _ & _ & Hk). done. }
  assert (Hlenm : Match.sequenceLength m = Seq.length (Match.seq1 m)).
  { unfold pairMatch in Hp. repeat case_match; try done. by injection Hp as <-. }
  rewrite Hseq. fold (seqPosition (Match.seq1 m)) (seqPosition (Match.seq2 m)).
  rewrite <- Hl1, <- Hl2.
  repeat split; try done.
  - destruct (Seq.sequence (Match.seq1 m)) as [|x xs] eqn:Hx; simpl; [|eauto].
    simpl in Hn1. destruct (spanOf_wfSeq _ _ H1) as [_ Hw]. lia.
  - unfold classify in Hcl. repeat case_match; try done; injection Hcl as <- _ _.
    + left.
    + right; left.
    + right; right; left.
Qed.

(** ** Types, options and distances *)

Lemma classify_InternalRhyme_valid (cfg : Config.t) (rhymeGroups : Verse) (s1 s2 : Seq.t)
    (rt : RhymeType) (i p : Z) :
  classify cfg rhymeGroups s1 s2 = Some (rt, i, p) -> isInternalRhyme rt = true ->
  Config.detectInternalRhyme cfg = true
  ∧ charGap s1 s2
    <= Z.min (Z.of_nat (Seq.length s1)) (Z.of_nat (Seq.length s2))
       + Config.internalRhymeTolerance cfg.
Proof.
  intros Hcl Hrt.
  destruct (classify_InternalRhyme _ _ _ _ _ _ _ Hcl Hrt) as (Hend & Hline & _).
  unfold classify in Hcl. rewrite Hend, Hline, Nat.eqb_refl in Hcl.
  rewrite andb_false_r, andb_true_r in Hcl.
  destruct (Config.detectInternalRhyme cfg); [|done]. split; [done|].
  unfold isInternalRhymeValid in Hcl. rewrite Hline, Nat.eqb_refl in Hcl. simpl in Hcl.
  destruct (Z.leb_spec (charGap s1 s2)
              (Z.min (Z.of_nat (Seq.length s1)) (Z.of_nat (Seq.length s2))
               + Config.internalRhymeTolerance cfg)); [done|discriminate].
Qed.

Lemma charGap_positions (s1 s2 : Seq.t) :
  wfSeq s1 -> wfSeq s2 -> charGap s1 s2 = positionGap (seqPosition s1) (seqPosition s2).
Proof.
  intros [H1 L1] [H2 L2]. rewrite charGap_closed_form by done.
  unfold positionGap. simpl. lia.
Qed.

Lemma interLineInterval_positions (rhymeGroups : Verse) (s1 s2 : Seq.t) :
  wfSeq s1 -> wfSeq s2 ->
  interLineInterval rhymeGroups s1 s2
  = positionInterval rhymeGroups (seqPosition s1) (seqPosition s2).
Proof.
  intros [H1 L1] [H2 L2]. unfold interLineInterval, positionInterval. simpl.
  f_equal. f_equal. lia.
Qed.

Lemma candidate_geometry (cfg : Config.t) (rhymeGroups : Verse) (m : Match.t) :
  m ∈ allPossibleMatches cfg rhymeGroups ->
  typeGeometry cfg rhymeGroups (Match.rhymeType m)
    (seqPosition (Match.seq1 m)) (seqPosition (Match.seq2 m)).
Proof.
  intros Hm. unfold typeGeometry.
  destruct (allPossibleMatches_elem_of _ _ _ Hm) as (H1 & H2 & Hp).
  destruct (pairMatch_Some _ _ _ _ _ Hp) as (_ & _ & Hgate & _ & _ & p & Hcl & _).
  destruct (spanOf_position _ _ H1) as (_ & _ & _ & He1).
  destruct (spanOf_position _ _ H2) as (_ & _ & _ & He2).
  pose proof (spanOf_wfSeq _ _ H1) as Hw1.
  pose proof (spanOf_wfSeq _ _ H2) as Hw2.
  assert (Hnoend : (Config.detectEndRhyme cfg
                    && (Seq.isEndOfLine (Match.seq1 m) || Seq.isEndOfLine (Match.seq2 m)))
                   = false ->
                   Config.detectEndRhyme cfg = true ->
                   ¬ endsLine rhymeGroups (seqPosition (Match.seq1 m))
                   ∧ ¬ endsLine rhymeGroups (seqPosition (Match.seq2 m))).
  { intros Hno Hon. rewrite Hon in Hno. simpl in Hno.
    apply orb_false_iff in Hno as [Hn1 Hn2].
    split; [rewrite <- He1|rewrite <- He2]; congruence. }
  split.
  - unfold isWithinFourLines in Hgate. apply Z.leb_le in Hgate. simpl. lia.
  - destruct (Match.rhymeType m) as [n|n|n] eqn:Hrt.
    + destruct (classify_EndRhyme _ _ _ _ _ _ _ Hcl eq_refl) as (Hon & Hor & _).
      split; [done|]. apply orb_true_iff in Hor as [Hor|Hor]; [left|right];
        [by apply He1|by apply He2].
    + destruct (classify_InterLineRhyme _ _ _ _ _ _ _ Hcl eq_refl)
        as (Hno & Hon & Hline & _ & Hint & Hle).
      split; [done|]. split; [done|]. split; [|by apply Hnoend].
      rewrite <- interLineInterval_positions by done. by rewrite <- Hint.
    + destruct (classify_InternalRhyme _ _ _ _ _ _ _ Hcl eq_refl) as (Hno & Hline & _).
      destruct (classify_InternalRhyme_valid _ _ _ _ _ _ _ Hcl eq_refl) as (Hon & Hle).
      split; [done|]. split; [done|]. split; [|by apply Hnoend].
      by rewrite <- charGap_positions.
Qed.

(** X6: what the type of a result says.  The two positions of a result are
    at most [interLineLineDiffTolerance] lines apart, and the option of its
    type is on.  An end rhyme has a position that ends its line; an
    inter-line rhyme joins two different lines at a distance of at most
    [interLineTolerance]; an internal rhyme joins two positions of one line
    whose gap is at most the smaller length plus [internalRhymeTolerance];
    and with end-rhyme detection on, no position of an inter-line or
    internal rhyme ends its line. *)
Theorem result_types_follow_the_options (v : JsVal) (options : Options.t)
    (res : Analysis.t) :
  analyzeRhymePatterns v options = inr res ->
  ∃ groups verse,
    v = JArr groups ∧ checkGroups groups = inr verse
    ∧ ∀ fr, fr ∈ Analysis.analysisResults res ->
        let cfg := resolveOptions options in
        let r := FinalResult.result fr in
        let p1 := fst (RhymeResult.positions r) in
        let p2 := snd (RhymeResult.positions r) in
        Z.abs (Z.of_nat (Position.line p1) - Z.of_nat (Position.line p2))
        <= Config.interLineLineDiffTolerance cfg
        ∧ match RhymeResult.rhymeType r with
          | EndRhyme _ =>
              Config.detectEndRhyme cfg = true
              ∧ (endsLine verse p1 ∨ endsLine verse p2)
          | InterLineRhyme _ =>
              Config.detectInterLineRhyme cfg = true
              ∧ Position.line p1 ≠ Position.line p2
              ∧ positionInterval verse p1 p2 <= Config.interLineTolerance cfg
              ∧ (Config.detectEndRhyme cfg = true ->
                 ¬ endsLine verse p1 ∧ ¬ endsLine verse p2)
          | InternalRhyme _ =>
              Config.detectInternalRhyme cfg = true
              ∧ Position.line p1 = Position.line p2
              ∧ positionGap p1 p2
                <= Z.min (Z.of_nat (Position.length p1)) (Z.of_nat (Position.length p2))
                   + Config.internalRhymeTolerance cfg
              ∧ (Config.detectEndRhyme cfg = true ->
                 ¬ endsLine verse p1 ∧ ¬ endsLine verse p2)
          end.
Proof.
  intros (groups & verse & -> & Hc & Hres)%analyzeRhymePatterns_results.
  exists groups, verse. split; [done|]. split; [done|].
  intros fr (m & Hm & ->)%Hres. exact (candidate_geometry _ _ _ Hm).
Qed.

(** ** Identifiers *)

Lemma zeros_succ (k : nat) (s : string) :
  String.concat "" (replicate (S k) "0") +:+ s
  = String "0"%char (String.concat "" (replicate k "0") +:+ s).
Proof. by destruct k. Qed.

Lemma pretty_N_go_head (x : N) (s : string) :
  (0 < x)%N ->
  ∃ c rest, pretty_N_go x s = String c rest ∧ c ≠ "0"%char.
Proof.
  revert s. induction (N.lt_wf_0 x) as [x _ IH]; intros s Hx.
  rewrite pretty_N_go_step by done.
  destruct (decide (x `div` 10 = 0)%N) as [Hd|Hd].
  - rewrite Hd, pretty_N_go_0. eexists _, _. split; [done|].
    assert (Hlt : (x < 10)%N) by (apply N.div_small_iff in Hd; lia).
    rewrite N.mod_small by done.
    unfold pretty_N_char. repeat case_match; (done || lia).
  - apply IH; [by apply N.div_lt|by apply N.neq_0_lt_0].
Qed.

Lemma pretty_nat_head (n : nat) :
  (0 < n)%nat -> ∃ c rest, pretty n = String c rest ∧ c ≠ "0"%char.
Proof.
  intros Hn. unfold pretty, pretty_nat, pretty, pretty_N.
  destruct (decide (N.of_nat n = 0)%N); [lia|].
  apply pretty_N_go_head. lia.
Qed.

(** Zeros in front of two texts that do not start with a zero. *)
Lemma zeros_inj (k1 k2 : nat) (s1 s2 : string) :
  (∃ c rest, s1 = String c rest ∧ c ≠ "0"%char) ->
  (∃ c rest, s2 = String c rest ∧ c ≠ "0"%char) ->
  String.concat "" (replicate k1 "0") +:+ s1 = String.concat "" (replicate k2 "0") +:+ s2 ->
  s1 = s2.
Proof.
  intros (c1 & r1 & -> & Hc1) (c2 & r2 & -> & Hc2).
  revert k2. induction k1 as [|k1 IH]; intros [|k2].
  - done.
  - rewrite zeros_succ. simpl. intros [= -> _]. done.
  - rewrite zeros_succ. simpl. intros [= <- _]. done.
  - rewrite !zeros_succ. intros [= H]. by apply (IH k2).
Qed.

Lemma assignColors_ids (rs : list RhymeResult.t) (index : nat)
    (colors : gmap string string) (colorIndex i : nat) (fr : FinalResult.t) :
  assignColors index colors colorIndex rs !! i = Some fr ->
  FinalResult.id fr = "rhyme_" +:+ padStart3 (pretty (index + i + 1)%nat).
Proof.
  revert index colors colorIndex i.
  induction rs as [|r rs IH]; intros index colors colorIndex i; simpl; [done|].
  destruct (colors !! getSequenceKey (RhymeResult.sequence r));
    (destruct i as [|i]; simpl;
      [intros [= <-]; simpl; by rewrite Nat.add_0_r
      |intros Hi; rewrite (IH _ _ _ _ Hi); do 3 f_equal; lia]).
Qed.

(** X7: the identifiers.  The result of index [i] is named [rhyme_]
    followed by [i + 1] in decimal, padded with zeros to three digits; no
    two results have the same identifier. *)
Theorem identifiers_are_distinct (v : JsVal) (options : Options.t) (res : Analysis.t) :
  analyzeRhymePatterns v options = inr res ->
  (∀ i fr, Analysis.analysisResults res !! i = Some fr ->
           FinalResult.id fr = "rhyme_" +:+ padStart3 (pretty (i + 1)%nat))
  ∧ (∀ i j fi fj,
       Analysis.analysisResults res !! i = Some fi ->
       Analysis.analysisResults res !! j = Some fj ->
       FinalResult.id fi = FinalResult.id fj -> i = j)
  ∧ NoDup (map FinalResult.id (Analysis.analysisResults res)).
Proof.
  intros Hres.
  assert (Hid : ∀ i fr, Analysis.analysisResults res !! i = Some fr ->
            FinalResult.id fr = "rhyme_" +:+ padStart3 (pretty (i + 1)%nat)).
  { destruct v as [| | | | |groups|]; try done. simpl in Hres.
    destruct (Nat.eqb _ _); [by injection Hres as <-|].
    destruct (checkGroups groups); [done|]. injection Hres as <-.
    intros i fr Hi. simpl in Hi. by rewrite (assignColors_ids _ _ _ _ _ _ Hi). }
  assert (Hinj : ∀ i j fi fj,
            Analysis.analysisResults res !! i = Some fi ->
            Analysis.analysisResults res !! j = Some fj ->
            FinalResult.id fi = FinalResult.id fj -> i = j).
  { intros i j fi fj Hi Hj. rewrite (Hid _ _ Hi), (Hid _ _ Hj).
    simpl. intros [= Heq]. unfold padStart3 in Heq.
    apply zeros_inj in Heq; [|apply pretty_nat_head; lia..].
    apply (inj pretty) in Heq. lia. }
  split; [done|]. split; [done|].
  apply NoDup_alt. intros i j x Hi Hj.
  rewrite list_lookup_fmap in Hi, Hj.
  destruct (Analysis.analysisResults res !! i) as [fi|] eqn:Hfi; [|done].
  destruct (Analysis.analysisResults res !! j) as [fj|] eqn:Hfj; [|done].
  simpl in Hi, Hj. apply (Hinj i j fi fj Hfi Hfj). congruence.
Qed.

(** ** Colours *)

Lemma colorPalette_NoDup : NoDup colorPalette.
Proof. apply (bool_decide_unpack (NoDup colorPalette)). by vm_compute. Qed.

Lemma paletteColor_elem_of (j : nat) : paletteColor j ∈ colorPalette.
Proof.
  unfold paletteColor.
  destruct (lookup_lt_is_Some_2 colorPalette (j mod List.length colorPalette)) as [c Hc].
  { apply Nat.mod_upper_bound. done. }
  rewrite Hc. simpl. by eapply list_elem_of_lookup_2.
Qed.

Lemma paletteColor_inj (j1 j2 : nat) :
  (j1 < List.length colorPalette)%nat -> (j2 < List.length colorPalette)%nat ->
  paletteColor j1 = paletteColor j2 -> j1 = j2.
Proof.
  intros H1 H2. unfold paletteColor. rewrite !Nat.mod_small by done.
  destruct (lookup_lt_is_Some_2 colorPalette j1 H1) as [c1 Hc1].
  destruct (lookup_lt_is_Some_2 colorPalette j2 H2) as [c2 Hc2].
  rewrite Hc1, Hc2. simpl. intros <-.
  by eapply NoDup_lookup; [apply colorPalette_NoDup|..].
Qed.

Lemma colorsInv_empty : colorsInv ∅ 0.
Proof.
  exists []. split; [constructor|]. split; [done|].
  intros k c. rewrite lookup_empty. split; [done|]. by intros (j & ? & _).
Qed.

Lemma colorsInv_insert (colors : gmap string string) (colorIndex : nat) (k : string) :
  colorsInv colors colorIndex -> colors !! k = None ->
  colorsInv (<[k := paletteColor colorIndex]> colors) (S colorIndex).
Proof.
  intros (keys & Hnd & Hlen & Hmap) Hk.
  assert (Hnotin : k ∉ keys).
  { intros [j Hj]%list_elem_of_lookup_1.
    assert (colors !! k = Some (paletteColor j)) by (apply Hmap; eauto). congruence. }
  exists (keys ++ [k]). split; [|split].
  - apply NoDup_app. split; [done|]. split; [|apply NoDup_singleton].
    intros x Hx ->%list_elem_of_singleton. done.
  - rewrite length_app. simpl. lia.
  - intros k' c. destruct (decide (k = k')) as [<-|Hne].
    + rewrite lookup_insert_eq. split.
      * intros [= <-]. exists colorIndex. split; [|done].
        rewrite <- Hlen. by apply list_lookup_middle.
      * intros (j & Hj & ->). f_equal. f_equal.
        apply lookup_snoc_Some in Hj as [[Hlt Hj]|[Hj _]]; [|lia].
        exfalso. apply Hnotin. by eapply list_elem_of_lookup_2.
    + rewrite lookup_insert_ne by done. rewrite Hmap. split.
      * intros (j & Hj & ->). exists j. split; [|done].
        by apply lookup_app_l_Some.
      * intros (j & Hj & ->). exists j. split; [|done].
        apply lookup_snoc_Some in Hj as [[_ Hj]|[_ Hj]]; [done|congruence].
Qed.

(** The state the colour map ends in, and the colour of every result in it. *)
Lemma assignColors_colors (rs : list RhymeResult.t) (index : nat)
    (colors : gmap string string) (colorIndex : nat) :
  colorsInv colors colorIndex ->
  ∃ colors' colorIndex',
    colorsInv colors' colorIndex' ∧ colors ⊆ colors'
    ∧ (∀ fr, fr ∈ assignColors index colors colorIndex rs ->
             colors' !! resultKey fr = Some (FinalResult.color fr))
    ∧ (∀ k, is_Some (colors' !! k) ->
            is_Some (colors !! k) ∨ k ∈ map getSequenceKey (map RhymeResult.sequence rs)).
Proof.
  revert index colors colorIndex.
  induction rs as [|r rs IH]; intros index colors colorIndex Hinv; simpl.
  - exists colors, colorIndex. split; [done|]. split; [done|].
    split; [by intros fr ?%elem_of_nil|]. by left.
  - destruct (colors !! getSequenceKey (RhymeResult.sequence r)) as [c|] eqn:Hk.
    + destruct (IH (S index) colors colorIndex Hinv) as (colors' & ci' & Hinv' & Hsub & Hcol & Hdom).
      exists colors', ci'. split; [done|]. split; [done|]. split.
      * intros fr [->|Hfr]%elem_of_cons; [|by apply Hcol].
        unfold resultKey. simpl. rewrite Hk. simpl.
        by eapply lookup_weaken.
      * intros k Hs. destruct (Hdom k Hs) as [?|?]; [by left|right; by right].
    + destruct (IH (S index) _ _ (colorsInv_insert _ _ _ Hinv Hk))
        as (colors' & ci' & Hinv' & Hsub & Hcol & Hdom).
      exists colors', ci'. split; [done|]. split.
      { etrans; [|exact Hsub]. by apply insert_subseteq. }
      split.
      * intros fr [->|Hfr]%elem_of_cons; [|by apply Hcol].
        unfold resultKey. simpl. rewrite lookup_insert_eq. simpl.
        eapply lookup_weaken; [|exact Hsub]. by rewrite lookup_insert_eq.
      * intros k Hs. destruct (Hdom k Hs) as [Hin|?]; [|right; by right].
        destruct (decide (getSequenceKey (RhymeResult.sequence r) = k)) as [<-|Hne].
        -- right. left.
        -- rewrite lookup_insert_ne in Hin by done. by left.
Qed.

(** X8: the colours.  Results with the same sequence key have the same
    colour; every colour is one of the ten of the palette, the first result
    having the first; and as long as the results have at most ten different
    keys, results with different keys have different colours. *)
Theorem colours_follow_the_keys (v : JsVal) (options : Options.t) (res : Analysis.t) :
  analyzeRhymePatterns v options = inr res ->
  let results := Analysis.analysisResults res in
  (∀ fr1 fr2, fr1 ∈ results -> fr2 ∈ results ->
              resultKey fr1 = resultKey fr2 ->
              FinalResult.color fr1 = FinalResult.color fr2)
  ∧ (∀ fr, fr ∈ results -> FinalResult.color fr ∈ colorPalette)
  ∧ (∀ fr, results !! 0%nat = Some fr -> FinalResult.color fr = "#FF5733")
  ∧ ((size (list_to_set (map resultKey results) : gset string)
      <= List.length colorPalette)%nat ->
     ∀ fr1 fr2, fr1 ∈ results -> fr2 ∈ results ->
                FinalResult.color fr1 = FinalResult.color fr2 ->
                resultKey fr1 = resultKey fr2).
Proof.
  intros Hres results.
  assert (Hstate : ∃ rs colors ci,
            results = assignColors 0 ∅ 0 rs
            ∧ colorsInv colors ci
            ∧ (∀ fr, fr ∈ results -> colors !! resultKey fr = Some (FinalResult.color fr))
            ∧ (∀ k, is_Some (colors !! k) -> k ∈ map resultKey results)).
  { assert (Hrs : ∃ rs, results = assignColors 0 ∅ 0 rs).
    { subst results. destruct v as [| | | | |groups|]; try done. simpl in Hres.
      destruct (Nat.eqb _ _); [injection Hres as <-; by exists []|].
      destruct (checkGroups groups); [done|]. injection Hres as <-. simpl. eauto. }
    destruct Hrs as [rs Hrs].
    destruct (assignColors_colors rs 0 ∅ 0 colorsInv_empty)
      as (colors & ci & Hinv & _ & Hcol & Hdom).
    exists rs, colors, ci. rewrite Hrs. split; [done|]. split; [done|]. split; [done|].
    intros k Hs. destruct (Hdom k Hs) as [[c Hc]|Hin]; [by rewrite lookup_empty in Hc|].
    unfold resultKey.
    rewrite <- (assignColors_results 0 ∅ 0 rs) in Hin at 1.
    by rewrite <- !list_fmap_compose in *. }
  destruct Hstate as (rs & colors & ci & Hrs & (keys & Hnd & Hlen & Hmap) & Hcol & Hdom).
  split; [|split; [|split]].
  - intros fr1 fr2 H1 H2 Hk. apply Hcol in H1, H2. congruence.
  - intros fr Hfr. apply Hcol, Hmap in Hfr as (j & _ & ->). apply paletteColor_elem_of.
  - intros fr Hfr. rewrite Hrs in Hfr. destruct rs as [|r rs]; [done|].
    simpl in Hfr. rewrite lookup_empty in Hfr. injection Hfr as <-. simpl.
    by rewrite lookup_insert_eq.
  - intros Hsize fr1 fr2 H1 H2 Heq.
    assert (Hci : (List.length keys <= List.length colorPalette)%nat).
    { etrans; [|exact Hsize].
      rewrite <- (size_list_to_set (C := gset string) keys) by done.
      apply subseteq_size. intros k Hk. apply elem_of_list_to_set in Hk.
      apply elem_of_list_to_set. apply Hdom.
      apply list_elem_of_lookup_1 in Hk as [j Hj].
      exists (paletteColor j). apply Hmap. eauto. }
    apply Hcol, Hmap in H1 as (j1 & Hj1 & Hc1).
    apply Hcol, Hmap in H2 as (j2 & Hj2 & Hc2).
    assert (j1 = j2) as ->.
    { apply paletteColor_inj; [apply lookup_lt_Some in Hj1; lia
                              |apply lookup_lt_Some in Hj2; lia|congruence]. }
    congruence.
Qed.

(** ** Sequence keys *)

Lemma append_underscore_inj (x y a b : string) :
  noUnderscore x = true -> noUnderscore y = true ->
  x +:+ String "_" a = y +:+ String "_" b -> x = y ∧ a = b.
Proof.
  revert y. induction x as [|c x IH]; intros [|d y]; simpl.
  - by intros _ _ [= ->].
  - intros _ [Hd _]%andb_true_iff [= <- _]. done.
  - intros [Hc _]%andb_true_iff _ [= -> _]. done.
  - intros [_ Hx]%andb_true_iff [_ Hy]%andb_true_iff [= -> H].
    destruct (IH y Hx Hy H) as [-> ->]. done.
Qed.

Lemma append_underscore_ne (x y b : string) :
  noUnderscore x = true -> x ≠ y +:+ String "_" b.
Proof.
  revert x. induction y as [|d y IH]; intros [|c x]; simpl; try done.
  - by intros [Hc _]%andb_true_iff [= ->].
  - intros [_ Hx]%andb_true_iff [= _ H]. by apply (IH x).
Qed.

(** [getSequenceKey] tells apart the non-empty sequences of labels without
    underscore. *)
Lemma getSequenceKey_inj (l1 l2 : list string) :
  Forall (fun g => noUnderscore g = true) l1 ->
  Forall (fun g => noUnderscore g = true) l2 ->
  l1 ≠ [] -> l2 ≠ [] -> getSequenceKey l1 = getSequenceKey l2 -> l1 = l2.
Proof.
  unfold getSequenceKey. intros H1. revert l2.
  induction H1 as [|x xs Hx Hxs IH]; intros l2 H2 Hn1 Hn2; [done|].
  destruct H2 as [|y ys Hy Hys]; [done|].
  destruct xs as [|x' xs], ys as [|y' ys].
  - simpl. by intros ->.
  - intros Heq. exfalso. eapply (append_underscore_ne x); [done|]. exact Heq.
  - intros Heq. exfalso. eapply (append_underscore_ne y); [done|]. symmetry. exact Heq.
  - intros Heq.
    change (x +:+ String "_" (String.concat "_" (x' :: xs))
            = y +:+ String "_" (String.concat "_" (y' :: ys))) in Heq.
    apply append_underscore_inj in Heq as [-> Heq]; [|done..].
    f_equal. by apply IH.
Qed.

Lemma positionLabels_plain (rhymeGroups : Verse) (pos : Position.t) :
  plainLabels rhymeGroups ->
  Forall (fun g => noUnderscore g = true) (positionLabels rhymeGroups pos).
Proof.
  intros Hplain. unfold positionLabels.
  destruct (rhymeGroups !! Position.line pos) as [group|] eqn:Hg; [|constructor].
  apply Forall_fmap, Forall_forall. intros c Hc. simpl.
  apply (Hplain group); [by eapply list_elem_of_lookup_2|].
  apply elem_of_take in Hc as (i & Hc & _).
  rewrite lookup_drop in Hc. by eapply list_elem_of_lookup_2.
Qed.

(** X9: when no rhyme-group label of the verse has an underscore, equal
    sequence keys mean equal sequences: the two positions of every result
    have the same labels, those of its [sequence], and the same length. *)
Theorem equal_keys_mean_equal_sequences (v : JsVal) (options : Options.t)
    (res : Analysis.t) :
  analyzeRhymePatterns v options = inr res ->
  ∃ groups verse,
    v = JArr groups ∧ checkGroups groups = inr verse
    ∧ (plainLabels verse ->
       ∀ fr, fr ∈ Analysis.analysisResults res ->
         let r := FinalResult.result fr in
         let p1 := fst (RhymeResult.positions r) in
         let p2 := snd (RhymeResult.positions r) in
         positionLabels verse p1 = RhymeResult.sequence r
         ∧ positionLabels verse p2 = RhymeResult.sequence r
         ∧ Position.length p2 = Position.length p1
         ∧ Position.length p1 = RhymeResult.sequenceLength r).
Proof.
  intros (groups & verse & -> & Hc & Hres)%analyzeRhymePatterns_results.
  exists groups, verse. split; [done|]. split; [done|].
  intros Hplain fr (m & Hm & ->)%Hres. simpl.
  destruct (allPossibleMatches_elem_of _ _ _ Hm) as (H1 & H2 & Hp).
  destruct (pairMatch_Some _ _ _ _ _ Hp) as (_ & _ & _ & Hkey & Hseq & _).
  assert (Hlenm : Match.sequenceLength m = Seq.length (Match.seq1 m)).
  { unfold pairMatch in Hp. repeat case_match; try done. by injection Hp as <-. }
  destruct (spanOf_position _ _ H1) as (_ & Hl1 & Hn1 & _).
  destruct (spanOf_position _ _ H2) as (_ & Hl2 & Hn2 & _).
  assert (Hk1 : Seq.sequenceKey (Match.seq1 m) = getSequenceKey (Seq.sequence (Match.seq1 m))).
  { destruct H1 as (g & _ & _ & Hs).
    by destruct (extractSpan_fields _ _ _ _ _ Hs) as (_ & _ & _ & _ & _ & ? & _). }
  assert (Hk2 : Seq.sequenceKey (Match.seq2 m) = getSequenceKey (Seq.sequence (Match.seq2 m))).
  { destruct H2 as (g & _ & _ & Hs).
    by destruct (extractSpan_fields _ _ _ _ _ Hs) as (_ & _ & _ & _ & _ & ? & _). }
  fold (seqPosition (Match.seq1 m)) (seqPosition (Match.seq2 m)) in *.
  assert (Heq : Seq.sequence (Match.seq1 m) = Seq.sequence (Match.seq2 m)).
  { apply getSequenceKey_inj.
    - rewrite Hl1. by apply positionLabels_plain.
    - rewrite Hl2. by apply positionLabels_plain.
    - intros Hnil. rewrite Hnil in Hn1. simpl in Hn1.
      destruct (spanOf_wfSeq _ _ H1). lia.
    - intros Hnil. rewrite Hnil in Hn2. simpl in Hn2.
      destruct (spanOf_wfSeq _ _ H2). lia.
    - congruence. }
  rewrite Hseq. repeat split; try done.
  - congruence.
  - simpl. rewrite <- Hn1, <- Hn2. by rewrite Heq.
Qed.

(** With an underscore in a label the keys collide: the one character of
    group [a_b] rhymes with the two characters of groups [a] and [b]. *)
Lemma underscore_label_pairs_unequal_spans :
  ∃ fr,
    resultsOf underscored Options.empty = [fr]
    ∧ RhymeResult.positions (FinalResult.result fr)
      = (Position.mk 1 0 2, Position.mk 0 0 1)
    ∧ RhymeResult.sequence (FinalResult.result fr) = ["a"; "b"].
Proof. eexists. split; [vm_compute; reflexivity|]. by split. Qed.

(** * The converter's validation and the analyzer *)

Lemma isString_asString (v : JsVal) : isString v = true <-> is_Some (asString v).
Proof. destruct v; simpl; split; try done; try (by intros [? ?]); eauto. Qed.

Lemma validCharInfo_shaped (c : JsVal) : validCharInfo c = true <-> charInfoShaped c.
Proof.
  unfold validCharInfo, charInfoShaped, requiredFields. simpl.
  rewrite !andb_true_iff, negb_true_iff, !isString_asString. tauto.
Qed.

Lemma validGroup_shaped (g : JsVal) : validGroup g = true <-> groupShaped g.
Proof.
  unfold validGroup, groupShaped, lineShaped.
  rewrite !andb_true_iff, negb_true_iff, isString_asString, forallb_forall, Forall_forall.
  setoid_rewrite <- list_elem_of_In. setoid_rewrite validCharInfo_shaped. tauto.
Qed.

Lemma validateRhymeGroups_shaped (v : JsVal) :
  validateRhymeGroups v = true <-> verseShaped v.
Proof.
  unfold validateRhymeGroups, verseShaped. destruct v as [| | | | |groups|];
    try (split; [done|by intros (? & ? & _)]).
  rewrite forallb_forall. setoid_rewrite <- list_elem_of_In.
  setoid_rewrite validGroup_shaped. rewrite <- Forall_forall. split.
  - intros H. by exists groups.
  - by intros (groups' & [= <-] & H).
Qed.

(** X10: the two validations agree.  [validateRhymeGroups] of the converter
    accepts a value exactly when [analyzeRhymePatterns] returns a result for
    it, whatever the options, and rejects it exactly when the analyzer
    throws: a verse that passed the check of the caller is never refused by
    the analyzer. *)
Theorem validated_verse_is_analyzed (v : JsVal) (options : Options.t) :
  (validateRhymeGroups v = true <-> ∃ res, analyzeRhymePatterns v options = inr res)
  ∧ (validateRhymeGroups v = false <-> ∃ e, analyzeRhymePatterns v options = inl e).
Proof.
  assert (Hok : validateRhymeGroups v = true
                <-> ∃ res, analyzeRhymePatterns v options = inr res).
  { rewrite validateRhymeGroups_shaped. unfold verseShaped. split.
    - intros (groups & -> & [verse Hc]%checkGroups_inr). simpl.
      rewrite Hc. destruct (Nat.eqb _ _); eauto.
    - intros [res (groups & verse & -> & Hc & _)%analyzeRhymePatterns_inr].
      exists groups. split; [done|]. apply checkGroups_inr. eauto. }
  split; [done|].
  destruct (validateRhymeGroups v) eqn:Hv.
  - split; [done|]. intros [e He]. destruct (proj1 Hok eq_refl) as [res Hr]. congruence.
  - split; [|done]. intros _.
    destruct (analyzeRhymePatterns v options) as [e|res] eqn:Ha; [eauto|].
    assert (false = true) by (apply Hok; eauto). done.
Qed.

(** * The renderer's view of an analysis *)

Lemma positionCells_NoDup (pos : Position.t) : NoDup (positionCells pos).
Proof.
  unfold positionCells. apply NoDup_fmap_2_strong; [|apply NoDup_ListNoDup, seq_NoDup].
  intros i j _ _ [= H]. lia.
Qed.

Lemma pushMarker_at (result : FinalResult.t) (markers : gmap Cell (list FinalResult.t))
    (cell c : Cell) :
  markersAt (pushMarker result markers cell) c
  = markersAt markers c ++ (if decide (c = cell) then [result] else []).
Proof.
  unfold markersAt, pushMarker. destruct (decide (c = cell)) as [->|Hne].
  - by rewrite lookup_insert_eq.
  - rewrite lookup_insert_ne by done. by rewrite app_nil_r.
Qed.

Lemma pushMarkers_at (result : FinalResult.t) (cells : list Cell)
    (markers : gmap Cell (list FinalResult.t)) (c : Cell) :
  NoDup cells ->
  markersAt (foldl (pushMarker result) markers cells) c
  = markersAt markers c ++ (if decide (c ∈ cells) then [result] else []).
Proof.
  intros Hnd. revert markers. induction Hnd as [|x cells Hx _ IH]; intros markers.
  - cbn [foldl]. destruct (decide (c ∈ [])) as [Hin|_]; [by apply elem_of_nil in Hin|].
    by rewrite app_nil_r.
  - cbn [foldl]. rewrite IH, pushMarker_at, <- app_assoc. f_equal.
    destruct (decide (c = x)) as [Heq|Hne], (decide (c ∈ cells)) as [Hin|Hnin],
      (decide (c ∈ x :: cells)) as [Hin'|Hnin']; try done.
    + exfalso. by subst.
    + exfalso. apply Hnin'. subst. left.
    + exfalso. apply Hnin'. subst. left.
    + exfalso. apply Hnin'. by right.
    + exfalso. by apply elem_of_cons in Hin' as [?|?].
Qed.

Lemma createRhymeMarkers_at (rhymeGroups : JsVal) (results : list FinalResult.t) (c : Cell) :
  markersAt (createRhymeMarkers rhymeGroups results) c = flat_map (markersOf c) results.
Proof.
  unfold createRhymeMarkers.
  assert (Hgen : ∀ markers,
    markersAt (foldl (fun markers result =>
        let positions := RhymeResult.positions (FinalResult.result result) in
        markPosition result (markPosition result markers (fst positions)) (snd positions))
      markers results) c
    = markersAt markers c ++ flat_map (markersOf c) results).
  { induction results as [|fr results IH]; intros markers; simpl.
    - by rewrite app_nil_r.
    - rewrite IH. unfold markPosition.
      rewrite !pushMarkers_at by apply positionCells_NoDup.
      unfold markersOf. by rewrite <- !app_assoc. }
  rewrite Hgen. unfold markersAt. by rewrite lookup_empty.
Qed.

Lemma elem_of_markersOf (c : Cell) (fr fr' : FinalResult.t) :
  fr' ∈ markersOf c fr <-> fr' = fr ∧ c ∈ resultCells (FinalResult.result fr).
Proof.
  unfold markersOf, resultCells. rewrite !elem_of_app.
  destruct (decide (c ∈ positionCells (fst (RhymeResult.positions (FinalResult.result fr))))),
    (decide (c ∈ positionCells (snd (RhymeResult.positions (FinalResult.result fr)))));
    rewrite ?list_elem_of_singleton, ?elem_of_nil; tauto.
Qed.

(** The results of a call, as a list, have pairwise disjoint cells. *)
Lemma analysis_results_disjoint (v : JsVal) (options : Options.t) (res : Analysis.t) :
  analyzeRhymePatterns v options = inr res ->
  pairwiseDisjoint (map FinalResult.result (Analysis.analysisResults res)).
Proof.
  intros (groups & verse & -> & Hc & Hres)%analyzeRhymePatterns_inr.
  rewrite Hres. apply selectMatches_inv, allPossibleMatches_wf.
Qed.

(** X11: the markers of a character.  A result is among the markers the
    renderer finds for a cell iff it is a result of the analysis with a
    position covering the cell; and for the results of one analysis all the
    markers of a cell are one and the same result, so that the colour and
    the sequence shown for a character, taken from the first marker, are
    those of the only result there. *)
Theorem markers_of_a_cell (v : JsVal) (options : Options.t) (res : Analysis.t) (c : Cell) :
  analyzeRhymePatterns v options = inr res ->
  let markers :=
    createRhymeMarkers (Analysis.rhymeGroups res) (Analysis.analysisResults res) in
  (∀ fr, fr ∈ markersAt markers c
         <-> fr ∈ Analysis.analysisResults res ∧ c ∈ resultCells (FinalResult.result fr))
  ∧ (∀ fr1 fr2, fr1 ∈ markersAt markers c -> fr2 ∈ markersAt markers c -> fr1 = fr2)
  ∧ (markersAt markers c = []
     <-> ∀ fr, fr ∈ Analysis.analysisResults res -> c ∉ resultCells (FinalResult.result fr)).
Proof.
  intros Hres markers.
  assert (Hin : ∀ fr, fr ∈ markersAt markers c
            <-> fr ∈ Analysis.analysisResults res ∧ c ∈ resultCells (FinalResult.result fr)).
  { intros fr. subst markers. rewrite createRhymeMarkers_at, list_elem_of_In, in_flat_map.
    split.
    - intros (fr' & Hfr' & [-> Hc]%list_elem_of_In%elem_of_markersOf).
      by apply list_elem_of_In in Hfr'.
    - intros [Hfr Hc]. exists fr. split; [by apply list_elem_of_In|].
      by apply list_elem_of_In, elem_of_markersOf. }
  split; [done|]. split.
  - intros fr1 fr2 [[i Hi]%list_elem_of_lookup_1 Hc1]%Hin [[j Hj]%list_elem_of_lookup_1 Hc2]%Hin.
    destruct (decide (i = j)) as [->|Hij]; [congruence|].
    exfalso.
    apply (analysis_results_disjoint _ _ _ Hres i j
             (FinalResult.result fr1) (FinalResult.result fr2) c Hij); [| |done..].
    + by rewrite list_lookup_fmap, Hi.
    + by rewrite list_lookup_fmap, Hj.
  - split.
    + intros Hnil fr Hfr Hc. assert (Hm : fr ∈ markersAt markers c) by by apply Hin.
      rewrite Hnil in Hm. by apply elem_of_nil in Hm.
    + intros Hnone. destruct (markersAt markers c) as [|fr rest] eqn:Hm; [done|].
      assert (Hfr : fr ∈ fr :: rest) by left.
      apply Hin in Hfr as [Hfr Hc]. by destruct (Hnone fr Hfr).
Qed.

(** ** The share of rhyming characters *)

Lemma addPositionCells_spec (chars : gset Cell) (pos : Position.t) (c : Cell) :
  c ∈ addPositionCells chars pos <-> c ∈ chars ∨ c ∈ positionCells pos.
Proof.
  unfold addPositionCells. generalize (positionCells pos). intros cells.
  revert chars. induction cells as [|x cells IH]; intros chars; simpl.
  - rewrite elem_of_nil. tauto.
  - rewrite IH, elem_of_union, elem_of_singleton, elem_of_cons. tauto.
Qed.

Lemma elem_of_rhymingChars (results : list FinalResult.t) (c : Cell) :
  c ∈ rhymingChars results
  <-> ∃ fr, fr ∈ results ∧ c ∈ resultCells (FinalResult.result fr).
Proof.
  unfold rhymingChars.
  assert (Hgen : ∀ chars,
    c ∈ foldl (fun chars result =>
        let positions := RhymeResult.positions (FinalResult.result result) in
        addPositionCells (addPositionCells chars (fst positions)) (snd positions))
      chars results
    <-> c ∈ chars ∨ ∃ fr, fr ∈ results ∧ c ∈ resultCells (FinalResult.result fr)).
  { induction results as [|fr results IH]; intros chars; simpl.
    - split; [by left|]. intros [?|(fr & ?%elem_of_nil & _)]; done.
    - rewrite IH, !addPositionCells_spec. unfold resultCells. split.
      + intros [[[?|?]|?]|(fr' & Hfr' & Hc)].
        * by left.
        * right. exists fr. split; [left|]. apply elem_of_app. by left.
        * right. exists fr. split; [left|]. apply elem_of_app. by right.
        * right. exists fr'. split; [by right|done].
      + intros [?|(fr' & [->|Hfr']%elem_of_cons & Hc)].
        * by left; left; left.
        * apply elem_of_app in Hc as [?|?]; [by left; left; right|by left; right].
        * right. by exists fr'. }
  rewrite Hgen. split; [|by right]. intros [?|?]; [|done]. by apply not_elem_of_empty in H.
Qed.

Lemma verseCells_length (k : nat) (rhymeGroups : Verse) :
  List.length (verseCells k rhymeGroups)
  = foldr (fun group total => (List.length (Line.charInfos group) + total)%nat) 0%nat
          rhymeGroups.
Proof.
  revert k. induction rhymeGroups as [|g rest IH]; intros k; simpl; [done|].
  by rewrite length_app, length_map, length_seq, IH.
Qed.

Lemma elem_of_verseCells (k : nat) (rhymeGroups : Verse) (l i : nat) (group : Line.t) :
  rhymeGroups !! l = Some group -> (i < List.length (Line.charInfos group))%nat ->
  ((k + l)%nat, i) ∈ verseCells k rhymeGroups.
Proof.
  revert k l. induction rhymeGroups as [|g rest IH]; intros k l; [done|].
  destruct l as [|l]; simpl.
  - intros [= ->] Hi. apply elem_of_app. left. rewrite Nat.add_0_r.
    apply list_elem_of_fmap. exists i. split; [done|]. apply list_elem_of_In, in_seq. lia.
  - intros Hg Hi. apply elem_of_app. right.
    replace (k + S l)%nat with (S k + l)%nat by lia. by apply IH.
Qed.

Lemma size_list_to_set_le (l : list Cell) :
  (size (list_to_set l : gset Cell) <= List.length l)%nat.
Proof.
  induction l as [|x l IH].
  - by rewrite size_list_to_set by constructor.
  - cbn [list_to_set List.length]. rewrite size_union_alt, size_singleton.
    assert (size (list_to_set l ∖ {[x]} : gset Cell) <= size (list_to_set l : gset Cell))%nat
      by (apply subseteq_size; intros y Hy; by apply elem_of_difference in Hy as [Hy _]).
    lia.
Qed.

Lemma checkGroups_totalChars (groups : list JsVal) (verse : Verse) (n : nat) :
  checkGroups groups = inr verse ->
  foldl (fun total group => (total + List.length (charInfosOf group))%nat) n groups
  = (n + foldr (fun group total => (List.length (Line.charInfos group) + total)%nat) 0%nat
             verse)%nat.
Proof.
  revert verse n. induction groups as [|g groups IH]; intros verse n; simpl.
  - intros [= <-]. simpl. lia.
  - destruct (checkGroup g) as [e|l] eqn:Hg; [done|].
    destruct (checkGroups groups) as [e|ls] eqn:Hgs; [done|].
    intros [= <-]. rewrite (IH ls _ eq_refl). simpl.
    assert (List.length (charInfosOf g) = List.length (Line.charInfos l)) as ->; [|lia].
    unfold checkGroup in Hg. unfold charInfosOf.
    destruct (notAnObject g); [done|].
    destruct (asString (getProp g "line")); [|done].
    destruct (getProp g "charInfos") as [| | | | |items|]; try done.
    destruct (checkCharInfos items) as [cis|] eqn:Hc; [|done].
    injection Hg as <-. simpl. clear -Hc. revert cis Hc.
    induction items as [|c items IHc]; intros cis; simpl.
    + by intros [= <-].
    + destruct (checkCharInfo c); [|done]. destruct (checkCharInfos items); [|done].
      intros [= <-]. simpl. f_equal. by apply IHc.
Qed.

(** X12: the statistics of the report.  The set of rhyming characters is
    the set of the cells covered by a result, and the number of rhyming
    characters is at most the number of characters of the verse: the share
    shown never exceeds 100%. *)
Theorem rhyming_characters_are_bounded (v : JsVal) (options : Options.t)
    (res : Analysis.t) :
  analyzeRhymePatterns v options = inr res ->
  (∀ c, c ∈ rhymingChars (Analysis.analysisResults res)
        <-> ∃ fr, fr ∈ Analysis.analysisResults res
                  ∧ c ∈ resultCells (FinalResult.result fr))
  ∧ (rhymingCharCount (Analysis.analysisResults res)
     <= totalChars (Analysis.rhymeGroups res))%nat.
Proof.
  intros Hres. split; [apply elem_of_rhymingChars|].
  destruct (analyzeRhymePatterns_results _ _ _ Hres) as (groups & verse & -> & Hc & Hfrom).
  assert (Hrg : Analysis.rhymeGroups res = JArr groups).
  { simpl in Hres. destruct groups as [|g groups]; simpl in Hres; [by injection Hres as <-|].
    destruct (checkGroup g); [done|]. destruct (checkGroups groups); [done|].
    by injection Hres as <-. }
  rewrite Hrg. unfold totalChars, rhymingCharCount.
  rewrite (checkGroups_totalChars _ _ _ Hc), Nat.add_0_l, <- (verseCells_length 0).
  etrans; [|apply size_list_to_set_le].
  apply subseteq_size. intros c (fr & Hfr & Hcell)%elem_of_rhymingChars.
  apply elem_of_list_to_set.
  destruct (Hfrom fr Hfr) as (m & Hm & Heq). rewrite Heq in Hcell.
  destruct (allPossibleMatches_elem_of _ _ _ Hm) as (H1 & H2 & _).
  apply resultCells_mkRhymeResult in Hcell; [|split; by eapply spanOf_wfSeq].
  assert (Hspan : ∀ s, spanOf verse s -> c ∈ seqCells s -> c ∈ verseCells 0 verse).
  { intros s (group & Hg & Hab & _) [Hl Hi]%elem_of_seqCells.
    destruct c as [l i]. simpl in *. subst l.
    apply (elem_of_verseCells 0 verse _ i group Hg). lia. }
  apply elem_of_app in Hcell as [?|?]; eauto.
Qed.

(** * Edge cases and the options of the page *)

(** A successful call is [analyzeValid] on the verse read as records; on
    the empty verse the two coincide. *)
Lemma analyzeRhymePatterns_valid (v : JsVal) (options : Options.t) (res : Analysis.t) :
  analyzeRhymePatterns v options = inr res ->
  ∃ groups verse,
    v = JArr groups ∧ checkGroups groups = inr verse
    ∧ res = analyzeValid v verse options.
Proof.
  destruct v as [| | | | |groups|]; try done. simpl.
  destruct groups as [|g groups]; simpl.
  - intros [= <-]. by exists [], [].
  - destruct (checkGroup g) as [e|l] eqn:Hg; [done|].
    destruct (checkGroups groups) as [e|ls] eqn:Hgs; [done|].
    intros [= <-]. exists (g :: groups), (l :: ls). simpl. by rewrite Hg, Hgs.
Qed.

Lemma extractAll_allUnknown (rhymeGroups : Verse) :
  allUnknown rhymeGroups -> extractAllRhymeSequences rhymeGroups = [].
Proof.
  intros Hall.
  destruct (extractAllRhymeSequences rhymeGroups) as [|s rest] eqn:Hs; [done|].
  exfalso. assert (Hin : s ∈ extractAllRhymeSequences rhymeGroups) by (rewrite Hs; left).
  apply extractAll_spec in Hin as (group & Hg & Hab & Hspan).
  destruct (extractSpan_fields _ _ _ _ _ Hspan) as (_ & _ & _ & _ & _ & _ & Hscan).
  destruct (scanChars_Some _ _ _ _ Hscan) as (_ & _ & _ & Hknown).
  destruct (lookup_lt_is_Some_2 (Line.charInfos group) (Seq.startIndex s)) as [c Hc]; [lia|].
  rewrite Forall_forall in Hknown.
  assert (Hk : isUnknownGroup (CharInfo.normalGroup c) = false).
  { apply Hknown. eapply charRange_lookup; [|exact Hc]. lia. }
  rewrite (Hall group c) in Hk; [done|by eapply list_elem_of_lookup_2..].
Qed.

Lemma collectMatches_nothingDetected (cfg : Config.t) (rhymeGroups : Verse)
    (l : list Seq.t) :
  nothingDetected cfg -> collectMatches cfg rhymeGroups l = [].
Proof.
  intros (He & Hi & Hn). induction l as [|s l IH]; simpl; [done|].
  rewrite IH, app_nil_r. clear IH.
  induction l as [|s2 l IH]; simpl; [done|].
  unfold pairMatch at 1, classify. rewrite He, Hi, Hn. simpl.
  by destruct (isWithinFourLines _ _ _), (String.eqb _ _).
Qed.

(** X13: nothing to rhyme.  When every character of the verse has the
    unknown or the empty group (a text of punctuation or of unmapped
    characters, or lines without characters), or when the three detections
    are off, the analysis returns no result, and a summary that counts the
    lines and no rhyme. *)
Theorem nothing_to_rhyme (v : JsVal) (options : Options.t) (res : Analysis.t) :
  analyzeRhymePatterns v options = inr res ->
  ∃ groups verse,
    v = JArr groups ∧ checkGroups groups = inr verse
    ∧ (allUnknown verse ∨ nothingDetected (resolveOptions options) ->
       Analysis.analysisResults res = []
       ∧ Analysis.summary res
         = {| Summary.totalLines := List.length groups; Summary.totalRhymeCount := 0;
              Summary.endRhyme := 0; Summary.internalRhyme := 0 |}).
Proof.
  intros (groups & verse & -> & Hc & ->)%analyzeRhymePatterns_valid.
  exists groups, verse. split; [done|]. split; [done|].
  intros Hcase.
  assert (Hlen : List.length verse = List.length groups).
  { clear -Hc. revert verse Hc. induction groups as [|g groups IH]; intros verse; simpl.
    - by intros [= <-].
    - destruct (checkGroup g); [done|]. destruct (checkGroups groups); [done|].
      intros [= <-]. simpl. f_equal. by apply IH. }
  assert (Hnone : allPossibleMatches (resolveOptions options) verse = []).
  { unfold allPossibleMatches. destruct Hcase as [Hall|Hoff].
    - by rewrite (extractAll_allUnknown _ Hall).
    - by rewrite collectMatches_nothingDetected. }
  unfold analyzeValid. rewrite Hnone. simpl. by rewrite Hlen.
Qed.

(** ** A span is not matched with itself *)

Lemma extractAll_NoDup (rhymeGroups : Verse) : NoDup (extractAllRhymeSequences rhymeGroups).
Proof.
  unfold extractAllRhymeSequences. rewrite sortDesc_perm. apply extractFrom_NoDup.
Qed.

Lemma collectMatches_distinct (cfg : Config.t) (rhymeGroups : Verse) (l : list Seq.t)
    (m : Match.t) :
  NoDup l -> m ∈ collectMatches cfg rhymeGroups l -> Match.seq1 m ≠ Match.seq2 m.
Proof.
  induction 1 as [|s l Hs _ IH]; simpl; [by intros ?%elem_of_nil|].
  rewrite elem_of_app, list_elem_of_omap. intros [(s2 & Hs2 & Hp)|Hm]; [|by apply IH].
  destruct (pairMatch_Some _ _ _ _ _ Hp) as (-> & -> & _). by intros ->.
Qed.

(** X14: the two positions of a result are different: a span is paired
    with the spans after it in the list, never with itself. *)
Theorem positions_of_a_result_differ (v : JsVal) (options : Options.t) (res : Analysis.t) :
  analyzeRhymePatterns v options = inr res ->
  ∀ fr, fr ∈ Analysis.analysisResults res ->
        fst (RhymeResult.positions (FinalResult.result fr))
        ≠ snd (RhymeResult.positions (FinalResult.result fr)).
Proof.
  intros (groups & verse & -> & Hc & Hres)%analyzeRhymePatterns_results.
  intros fr (m & Hm & ->)%Hres. simpl. intros [= Hl Ha Hlen].
  destruct (allPossibleMatches_elem_of _ _ _ Hm) as (H1 & H2 & _).
  assert (Hne : Match.seq1 m ≠ Match.seq2 m).
  { unfold allPossibleMatches in Hm. apply sortDesc_elem_of in Hm.
    eapply collectMatches_distinct; [apply extractAll_NoDup|exact Hm]. }
  apply Hne.
  destruct (spanOf_wfSeq _ _ H1) as [Hle1 Hw1], (spanOf_wfSeq _ _ H2) as [Hle2 Hw2].
  assert (Hb : Seq.endIndex (Match.seq1 m) = Seq.endIndex (Match.seq2 m)) by lia.
  destruct H1 as (g1 & Hg1 & _ & Hs1), H2 as (g2 & Hg2 & _ & Hs2).
  rewrite Hl, Ha, Hb, Hg2 in *. injection Hg1 as ->. congruence.
Qed.

(** ** Through the page *)

(** X15: with the options the page builds, where end-rhyme detection is
    always on, the labels tell the truth about line ends: an end rhyme has a
    position that ends its line, and no position of an inter-line or of an
    internal rhyme does; with the two check boxes off every result is an end
    rhyme. *)
Theorem page_options_keep_line_ends_for_end_rhymes (v : JsVal) (res : Analysis.t)
    (detectInterLineRhyme detectInternalRhyme : bool)
    (interLineTolerance interLineLineDiffTolerance internalRhymeTolerance : Z) :
  analyzeRhymePatterns v
    (appOptions detectInterLineRhyme detectInternalRhyme
       interLineTolerance interLineLineDiffTolerance internalRhymeTolerance) = inr res ->
  ∃ groups verse,
    v = JArr groups ∧ checkGroups groups = inr verse
    ∧ ∀ fr, fr ∈ Analysis.analysisResults res ->
        let r := FinalResult.result fr in
        let p1 := fst (RhymeResult.positions r) in
        let p2 := snd (RhymeResult.positions r) in
        (isEndRhyme (RhymeResult.rhymeType r) = true
         <-> endsLine verse p1 ∨ endsLine verse p2)
        ∧ (detectInterLineRhyme = false -> detectInternalRhyme = false ->
           isEndRhyme (RhymeResult.rhymeType r) = true).
Proof.
  intros (groups & verse & -> & Hc & Hres)%analyzeRhymePatterns_results.
  exists groups, verse. split; [done|]. split; [done|].
  intros fr (m & Hm & ->)%Hres.
  destruct (candidate_geometry _ _ _ Hm) as [_ Hgeo]. simpl in *.
  fold (seqPosition (Match.seq1 m)) (seqPosition (Match.seq2 m)).
  destruct (Match.rhymeType m) as [n|n|n]; simpl.
  - destruct Hgeo as [_ Hor]. by split.
  - destruct Hgeo as (Hon & _ & _ & Hno). destruct (Hno eq_refl) as [Hn1 Hn2].
    split; [|by intros ->]. split; [done|]. by intros [?|?].
  - destruct Hgeo as (Hon & _ & _ & Hno). destruct (Hno eq_refl) as [Hn1 Hn2].
    split; [|by intros _ ->]. split; [done|]. by intros [?|?].
Qed.

(** ** Instances of the further properties *)

(** The inter-line result of [x p] / [y q] is counted as an end rhyme. *)
Lemma summary_counts_witness :
  ∃ res,
    analyzeRhymePatterns stanza Options.empty = inr res
    ∧ Summary.endRhyme (Analysis.summary res)
      = (countType isEndRhyme (Analysis.analysisResults res)
         + countType isInterLineRhyme (Analysis.analysisResults res))%nat
    ∧ countType isInterLineRhyme (Analysis.analysisResults res) = 1%nat
    ∧ Summary.endRhyme (Analysis.summary res) = 1%nat.
Proof.
  eexists. split; [vm_compute; reflexivity|].
  destruct (summary_counts stanza Options.empty _ ltac:(vm_compute; reflexivity))
    as (_ & _ & Hend & _).
  split; [exact Hend|]. split; reflexivity.
Defined.

Lemma results_in_priority_order_witness :
  ∃ res committed,
    analyzeRhymePatterns tercet Options.empty = inr res
    ∧ map FinalResult.result (Analysis.analysisResults res) = map mkRhymeResult committed
    ∧ sortedDesc Match.priority committed.
Proof.
  destruct (results_in_priority_order tercet Options.empty _ ltac:(vm_compute; reflexivity))
    as (groups & verse & committed & _ & _ & _ & Hmap & Hsorted).
  eexists _, committed. split; [vm_compute; reflexivity|]. by split.
Defined.

Lemma selection_is_maximal_witness :
  ∃ res verse,
    analyzeRhymePatterns tercet Options.empty = inr res
    ∧ ∀ m, m ∈ allPossibleMatches (resolveOptions Options.empty) verse ->
        ∃ fr c, fr ∈ Analysis.analysisResults res
                ∧ c ∈ matchCells m ∧ c ∈ resultCells (FinalResult.result fr).
Proof.
  destruct (selection_is_maximal tercet Options.empty _ ltac:(vm_compute; reflexivity))
    as (groups & verse & _ & _ & Hmax).
  eexists _, verse. split; [vm_compute; reflexivity|].
  intros m Hm. destruct (Hmax m Hm) as (C & fr & c & _ & Hfr & _ & _ & Hc1 & Hc2).
  by exists fr, c.
Defined.

(** The range of [x] alone in the line [x p y q] has its span. *)
Lemma spans_are_the_known_ranges_witness :
  ∃ s, s ∈ extractAllRhymeSequences gapVerse
       ∧ Seq.lineIndex s = 0%nat ∧ Seq.startIndex s = 0%nat ∧ Seq.endIndex s = 0%nat
       ∧ Seq.sequence s = ["a"].
Proof.
  refine (proj1 (spans_are_the_known_ranges gapVerse) 0%nat
            (Line.mk "xpyq" [ci "x" "a"; ci "p" "c"; ci "y" "a"; ci "q" "d"])
            0%nat 0%nat _ _ _).
  - reflexivity.
  - simpl; lia.
  - repeat constructor.
Defined.

Lemma results_point_into_the_verse_witness :
  ∃ res verse,
    analyzeRhymePatterns tercet Options.empty = inr res
    ∧ ∀ fr, fr ∈ Analysis.analysisResults res ->
        positionShows verse (fst (RhymeResult.positions (FinalResult.result fr)))
          (fst (RhymeResult.chars (FinalResult.result fr)))
          (fst (RhymeResult.pinyins (FinalResult.result fr))).
Proof.
  destruct (results_point_into_the_verse tercet Options.empty _
              ltac:(vm_compute; reflexivity)) as (groups & verse & _ & _ & Hall).
  eexists _, verse. split; [vm_compute; reflexivity|].
  intros fr Hfr. exact (proj1 (Hall fr Hfr)).
Defined.

Lemma result_types_follow_the_options_witness :
  ∃ res,
    analyzeRhymePatterns tercet Options.empty = inr res
    ∧ ∀ fr, fr ∈ Analysis.analysisResults res ->
        Z.abs (Z.of_nat (Position.line (fst (RhymeResult.positions (FinalResult.result fr))))
               - Z.of_nat (Position.line (snd (RhymeResult.positions (FinalResult.result fr)))))
        <= 4.
Proof.
  destruct (result_types_follow_the_options tercet Options.empty _
              ltac:(vm_compute; reflexivity)) as (groups & verse & _ & _ & Hall).
  eexists. split; [vm_compute; reflexivity|].
  intros fr Hfr. exact (proj1 (Hall fr Hfr)).
Defined.

Lemma identifiers_are_distinct_witness :
  ∃ res,
    analyzeRhymePatterns tercet Options.empty = inr res
    ∧ map FinalResult.id (Analysis.analysisResults res) = ["rhyme_001"; "rhyme_002"]
    ∧ NoDup (map FinalResult.id (Analysis.analysisResults res)).
Proof.
  eexists. split; [vm_compute; reflexivity|]. split; [reflexivity|].
  exact (proj2 (proj2 (identifiers_are_distinct tercet Options.empty _
                         ltac:(vm_compute; reflexivity)))).
Defined.

Lemma colours_follow_the_keys_witness :
  ∃ res,
    analyzeRhymePatterns tercet Options.empty = inr res
    ∧ ∀ fr, fr ∈ Analysis.analysisResults res -> FinalResult.color fr ∈ colorPalette.
Proof.
  eexists. split; [vm_compute; reflexivity|].
  exact (proj1 (proj2 (colours_follow_the_keys tercet Options.empty _
                         ltac:(vm_compute; reflexivity)))).
Defined.

Lemma equal_keys_mean_equal_sequences_witness :
  ∃ res,
    analyzeRhymePatterns tercet Options.empty = inr res
    ∧ ∀ fr, fr ∈ Analysis.analysisResults res ->
        Position.length (snd (RhymeResult.positions (FinalResult.result fr)))
        = Position.length (fst (RhymeResult.positions (FinalResult.result fr))).
Proof.
  destruct (equal_keys_mean_equal_sequences tercet Options.empty _
              ltac:(vm_compute; reflexivity)) as (groups & verse & Hv & Hc & Hall).
  eexists. split; [vm_compute; reflexivity|].
  injection Hv as <-. vm_compute in Hc. injection Hc as <-.
  assert (Hplain : plainLabels
            [ Line.mk "xyz" [ci "x" "a"; ci "y" "a"; ci "z" "b"];
              Line.mk "w" [ci "w" "a"]; Line.mk "v" [ci "v" "a"] ]).
  { intros group c Hg Hcin.
    repeat (apply elem_of_cons in Hg as [->|Hg]);
      [..|by apply elem_of_nil in Hg]; simpl in Hcin;
      repeat (apply elem_of_cons in Hcin as [->|Hcin]);
      (reflexivity || by apply elem_of_nil in Hcin). }
  intros fr Hfr. exact (proj1 (proj2 (proj2 (Hall Hplain fr Hfr)))).
Defined.

Lemma markers_of_a_cell_witness :
  ∃ res,
    analyzeRhymePatterns tercet Options.empty = inr res
    ∧ ∀ fr1 fr2,
        fr1 ∈ markersAt (createRhymeMarkers (Analysis.rhymeGroups res)
                           (Analysis.analysisResults res)) (0%nat, 0%nat) ->
        fr2 ∈ markersAt (createRhymeMarkers (Analysis.rhymeGroups res)
                           (Analysis.analysisResults res)) (0%nat, 0%nat) ->
        fr1 = fr2.
Proof.
  eexists. split; [vm_compute; reflexivity|].
  exact (proj1 (proj2 (markers_of_a_cell tercet Options.empty _ (0%nat, 0%nat)
                         ltac:(vm_compute; reflexivity)))).
Defined.

Lemma rhyming_characters_are_bounded_witness :
  ∃ res,
    analyzeRhymePatterns tercet Options.empty = inr res
    ∧ totalChars (Analysis.rhymeGroups res) = 5%nat
    ∧ (rhymingCharCount (Analysis.analysisResults res)
       <= totalChars (Analysis.rhymeGroups res))%nat.
Proof.
  eexists. split; [vm_compute; reflexivity|]. split; [reflexivity|].
  exact (proj2 (rhyming_characters_are_bounded tercet Options.empty _
                  ltac:(vm_compute; reflexivity))).
Defined.

(** The three lines with every detection off, and a line of punctuation. *)
Lemma nothing_to_rhyme_witness :
  (∃ res,
     analyzeRhymePatterns tercet allOff = inr res
     ∧ Analysis.analysisResults res = []
     ∧ Summary.totalLines (Analysis.summary res) = 3%nat)
  ∧ (∃ res,
       analyzeRhymePatterns punctuation Options.empty = inr res
       ∧ Analysis.analysisResults res = []).
Proof.
  split.
  - destruct (nothing_to_rhyme tercet allOff _ ltac:(vm_compute; reflexivity))
      as (groups & verse & Hv & _ & Hnone).
    eexists. split; [vm_compute; reflexivity|].
    destruct Hnone as [Hres Hsum]; [right; by repeat split|].
    split; [exact Hres|]. rewrite Hsum. simpl. by injection Hv as <-.
  - destruct (nothing_to_rhyme punctuation Options.empty _ ltac:(vm_compute; reflexivity))
      as (groups & verse & Hv & Hc & Hnone).
    eexists. split; [vm_compute; reflexivity|].
    injection Hv as <-. vm_compute in Hc. injection Hc as <-.
    apply Hnone. left. intros group c Hg Hcin.
    apply list_elem_of_singleton in Hg as ->. simpl in Hcin.
    repeat (apply elem_of_cons in Hcin as [->|Hcin]);
      (reflexivity || by apply elem_of_nil in Hcin).
Defined.

Lemma positions_of_a_result_differ_witness :
  ∃ res,
    analyzeRhymePatterns triple Options.empty = inr res
    ∧ ∀ fr, fr ∈ Analysis.analysisResults res ->
        fst (RhymeResult.positions (FinalResult.result fr))
        ≠ snd (RhymeResult.positions (FinalResult.result fr)).
Proof.
  eexists. split; [vm_compute; reflexivity|].
  exact (positions_of_a_result_differ triple Options.empty _
           ltac:(vm_compute; reflexivity)).
Defined.

Lemma page_options_keep_line_ends_for_end_rhymes_witness :
  ∃ res verse,
    analyzeRhymePatterns stanza (appOptions true true 2 4 0) = inr res
    ∧ ∀ fr, fr ∈ Analysis.analysisResults res ->
        (isEndRhyme (RhymeResult.rhymeType (FinalResult.result fr)) = true
         <-> endsLine verse (fst (RhymeResult.positions (FinalResult.result fr)))
             ∨ endsLine verse (snd (RhymeResult.positions (FinalResult.result fr)))).
Proof.
  destruct (page_options_keep_line_ends_for_end_rhymes stanza _ true true 2 4 0
              ltac:(vm_compute; reflexivity)) as (groups & verse & _ & _ & Hall).
  eexists _, verse. split; [vm_compute; reflexivity|].
  intros fr Hfr. exact (proj1 (Hall fr Hfr)).
Defined.
